(** * Cross-process cycle barrier (switchboard/cpp/barrier_sync.h)

    A shallow embedding of the sense-reversing barrier that switchboard
    uses to keep co-simulating processes in lockstep, together with the
    open/close handshake around it.

    - The shared structure [cycle_barrier_shared] is a record of
      fixed-width unsigned integers (as [Z], wrap-around written out).
    - Every [__atomic_*] builtin is an action of a small state-and-trace
      monad over the shared structure; it logs the access it performs.
    - [barrier_wait] is a per-process step function, one step per atomic
      access, so that the calls of several processes interleave under
      sequentially consistent semantics.
    - [barrier_open] and [barrier_close] run against an environment
      record that answers the system calls, and log every call.
    - A session grows while it runs: [session_step] adds the
      [barrier_open] of a further process to the steps of the
      processes there are. *)

From Stdlib Require Import ZArith List Lia Bool.
From Stdlib Require String.
Import ListNotations.
Open Scope Z_scope.

Set Implicit Arguments.

(* ================================================================== *)
(** ** Shared barrier state *)
(* ================================================================== *)

Definition BARRIER_CACHE_LINE_SIZE : Z := 64.

Definition UINT32_MOD : Z := 2 ^ 32.
Definition UINT64_MOD : Z := 2 ^ 64.

(** [typedef struct cycle_barrier_shared]: five fields, each aligned to
    its own cache line. *)
Record cycle_barrier_shared : Type := mk_shared {
  cycle_count   : Z;  (* uint64_t *)
  barrier_count : Z;  (* uint32_t *)
  num_processes : Z;  (* uint32_t *)
  sense         : Z;  (* uint32_t *)
  initialized   : Z   (* uint32_t *)
}.

Inductive field : Type :=
| F_cycle_count | F_barrier_count | F_num_processes | F_sense | F_initialized.

Definition field_modulus (f : field) : Z :=
  match f with
  | F_cycle_count => UINT64_MOD
  | _ => UINT32_MOD
  end.

Definition get_field (f : field) (s : cycle_barrier_shared) : Z :=
  match f with
  | F_cycle_count => cycle_count s
  | F_barrier_count => barrier_count s
  | F_num_processes => num_processes s
  | F_sense => sense s
  | F_initialized => initialized s
  end.

Definition set_field (f : field) (v : Z) (s : cycle_barrier_shared)
  : cycle_barrier_shared :=
  match f with
  | F_cycle_count =>
      mk_shared v (barrier_count s) (num_processes s) (sense s) (initialized s)
  | F_barrier_count =>
      mk_shared (cycle_count s) v (num_processes s) (sense s) (initialized s)
  | F_num_processes =>
      mk_shared (cycle_count s) (barrier_count s) v (sense s) (initialized s)
  | F_sense =>
      mk_shared (cycle_count s) (barrier_count s) (num_processes s) v (initialized s)
  | F_initialized =>
      mk_shared (cycle_count s) (barrier_count s) (num_processes s) (sense s) v
  end.

(** [barrier_mapsize]: [sizeof(cycle_barrier_shared)], five members
    each on a cache line of its own. *)
Definition barrier_mapsize : Z := 5 * BARRIER_CACHE_LINE_SIZE.

(** The fields are unsigned machine integers. *)
Definition shared_wf (s : cycle_barrier_shared) : Prop :=
  0 <= cycle_count s < UINT64_MOD /\
  0 <= barrier_count s < UINT32_MOD /\
  0 <= num_processes s < UINT32_MOD /\
  0 <= sense s < UINT32_MOD /\
  0 <= initialized s < UINT32_MOD.

(* ================================================================== *)
(** ** Atomic accesses *)
(* ================================================================== *)

(** What one access does to the shared memory, as seen by an observer. *)
Inductive event : Type :=
| EvStore (f : field) (v : Z)            (* __atomic_store_n *)
| EvLoad (f : field) (v : Z)             (* __atomic_load_n, value read *)
| EvAddFetch (f : field) (d : Z) (v : Z) (* __atomic_add_fetch, new value *)
| EvFence                                (* __atomic_thread_fence *)
| EvPause                                (* pause / yield hint *)
| EvLocal.                               (* process-local assignment *)

(** State-and-trace monad over the shared structure. *)
Definition atomic (A : Type) : Type :=
  cycle_barrier_shared -> A * cycle_barrier_shared * list event.

Definition aret {A} (a : A) : atomic A := fun s => (a, s, []).

Definition abind {A B} (m : atomic A) (k : A -> atomic B) : atomic B :=
  fun s =>
    let '(a, s1, t1) := m s in
    let '(b, s2, t2) := k a s1 in
    (b, s2, t1 ++ t2).

Declare Scope atomic_scope.
Delimit Scope atomic_scope with atomic.
Notation "x <- m ;; k" := (abind m (fun x => k))
  (at level 61, m at next level, right associativity) : atomic_scope.
Notation "m ;; k" := (abind m (fun _ => k))
  (at level 61, right associativity) : atomic_scope.
Open Scope atomic_scope.

Definition atomic_store_n (f : field) (v : Z) : atomic unit :=
  fun s => (tt, set_field f v s, [EvStore f v]).

Definition atomic_load_n (f : field) : atomic Z :=
  fun s => (get_field f s, s, [EvLoad f (get_field f s)]).

Definition atomic_add_fetch (f : field) (d : Z) : atomic Z :=
  fun s =>
    let v := (get_field f s + d) mod field_modulus f in
    (v, set_field f v s, [EvAddFetch f d v]).

Definition atomic_thread_fence : atomic unit :=
  fun s => (tt, s, [EvFence]).

Definition cpu_pause : atomic unit :=
  fun s => (tt, s, [EvPause]).

Definition local_op : atomic unit :=
  fun s => (tt, s, [EvLocal]).

Definition result_of {A} (r : A * cycle_barrier_shared * list event) : A :=
  fst (fst r).
Definition state_of {A} (r : A * cycle_barrier_shared * list event)
  : cycle_barrier_shared := snd (fst r).
Definition trace_of {A} (r : A * cycle_barrier_shared * list event)
  : list event := snd r.

(** Effect of a logged access on the shared memory; replaying a trace
    reconstructs every intermediate state an observer could have seen. *)
Definition apply_event (s : cycle_barrier_shared) (e : event)
  : cycle_barrier_shared :=
  match e with
  | EvStore f v => set_field f v s
  | EvAddFetch f _ v => set_field f v s
  | _ => s
  end.

Definition replay (t : list event) (s : cycle_barrier_shared)
  : cycle_barrier_shared := fold_left apply_event t s.

(* ================================================================== *)
(** ** The handle *)
(* ================================================================== *)

(** [typedef struct cycle_barrier]. Pointers are options ([None] is
    [NULL]); the mapping is represented by its address. *)
Record cycle_barrier : Type := mk_barrier {
  shm            : option Z;
  name           : option String.string;
  fd             : Z;
  is_leader      : bool;
  local_sense    : Z;   (* uint32_t *)
  unmap_at_close : bool
}.

Definition set_local_sense (b : cycle_barrier) (v : Z) : cycle_barrier :=
  mk_barrier (shm b) (name b) (fd b) (is_leader b) v (unmap_at_close b).

(* ================================================================== *)
(** ** barrier_init_shared and the non-blocking queries *)
(* ================================================================== *)

Definition barrier_init_shared (num : Z) : atomic unit :=
  atomic_store_n F_cycle_count 0 ;;
  atomic_store_n F_barrier_count 0 ;;
  atomic_store_n F_num_processes num ;;
  atomic_store_n F_sense 0 ;;
  atomic_thread_fence ;;
  atomic_store_n F_initialized 1.

(** The assertions [assert(b && b->shm)] abort the process; an aborted
    call is [None]. *)
Definition barrier_get_cycle (b : option cycle_barrier) : option (atomic Z) :=
  match b with
  | Some h => match shm h with
              | Some _ => Some (atomic_load_n F_cycle_count)
              | None => None
              end
  | None => None
  end.

Definition barrier_all_ready (b : option cycle_barrier) : option (atomic bool) :=
  match b with
  | Some h => match shm h with
              | Some _ => Some (v <- atomic_load_n F_initialized ;; aret (v =? 1))
              | None => None
              end
  | None => None
  end.

Definition barrier_set_num_processes (b : option cycle_barrier) (num : Z)
  : option (atomic unit) :=
  match b with
  | Some h => match shm h with
              | Some _ => if is_leader h
                          then Some (atomic_store_n F_num_processes num)
                          else None
              | None => None
              end
  | None => None
  end.

Definition barrier_get_num_processes (b : option cycle_barrier)
  : option (atomic Z) :=
  match b with
  | Some h => match shm h with
              | Some _ => Some (atomic_load_n F_num_processes)
              | None => None
              end
  | None => None
  end.

(* ================================================================== *)
(** ** barrier_wait, one atomic access per step *)
(* ================================================================== *)

(** Program points of [barrier_wait], named after what the next access
    is; the locals [num_procs] and [my_sense] travel with them. *)
Inductive wait_pc : Type :=
| PC_load_num                         (* num_procs = load(num_processes) *)
| PC_arrive (num_procs my_sense : Z)  (* arrived = ++barrier_count *)
| PC_reset (my_sense : Z)             (* barrier_count = 0 *)
| PC_fence_rel (my_sense : Z)         (* fence on the releasing branch *)
| PC_inc_cycle (my_sense : Z)         (* ++cycle_count *)
| PC_release (my_sense : Z)           (* sense = my_sense *)
| PC_spin (my_sense : Z)              (* while (load(sense) != my_sense) *)
| PC_fence (my_sense : Z)             (* fence after the branch *)
| PC_flip (my_sense : Z)              (* local_sense = 1 - my_sense *)
| PC_load_cycle                       (* return load(cycle_count) *)
| PC_done (ret : Z).

Definition wait_step (b : cycle_barrier) (pc : wait_pc)
  : atomic (cycle_barrier * wait_pc) :=
  match pc with
  | PC_load_num =>
      num_procs <- atomic_load_n F_num_processes ;;
      aret (b, PC_arrive num_procs (local_sense b))
  | PC_arrive num_procs my_sense =>
      arrived <- atomic_add_fetch F_barrier_count 1 ;;
      aret (b, if arrived =? num_procs
               then PC_reset my_sense else PC_spin my_sense)
  | PC_reset my_sense =>
      atomic_store_n F_barrier_count 0 ;;
      aret (b, PC_fence_rel my_sense)
  | PC_fence_rel my_sense =>
      atomic_thread_fence ;;
      aret (b, PC_inc_cycle my_sense)
  | PC_inc_cycle my_sense =>
      atomic_add_fetch F_cycle_count 1 ;;
      aret (b, PC_release my_sense)
  | PC_release my_sense =>
      atomic_store_n F_sense my_sense ;;
      aret (b, PC_fence my_sense)
  | PC_spin my_sense =>
      v <- atomic_load_n F_sense ;;
      if v =? my_sense
      then aret (b, PC_fence my_sense)
      else cpu_pause ;; aret (b, PC_spin my_sense)
  | PC_fence my_sense =>
      atomic_thread_fence ;;
      aret (b, PC_flip my_sense)
  | PC_flip my_sense =>
      local_op ;;
      aret (set_local_sense b ((1 - my_sense) mod UINT32_MOD), PC_load_cycle)
  | PC_load_cycle =>
      v <- atomic_load_n F_cycle_count ;;
      aret (b, PC_done v)
  | PC_done v => aret (b, PC_done v)
  end.

(** A call running with no other process taking a step in between. The
    spin loop is the only loop, so the fuel bounds its iterations. *)
Fixpoint run_wait (fuel : nat) (b : cycle_barrier) (pc : wait_pc)
  : atomic (option (cycle_barrier * Z)) :=
  match pc with
  | PC_done v => aret (Some (b, v))
  | _ =>
      match fuel with
      | O => aret None
      | S fuel' =>
          r <- wait_step b pc ;;
          run_wait fuel' (fst r) (snd r)
      end
  end.

Definition barrier_wait (fuel : nat) (b : option cycle_barrier)
  : option (atomic (option (cycle_barrier * Z))) :=
  match b with
  | Some h => match shm h with
              | Some _ => Some (run_wait fuel h PC_load_num)
              | None => None
              end
  | None => None
  end.

(** Steps [barrier_wait] takes when it is the releaser and runs alone. *)
Definition RELEASER_STEPS : nat := 9.

(* ================================================================== *)
(** ** Several processes on one shared structure *)
(* ================================================================== *)

(** A process: its handle, where it is inside [barrier_wait] ([None]
    between calls) and the values its calls have returned so far. *)
Record proc : Type := mk_proc {
  handle   : cycle_barrier;
  pc       : option wait_pc;
  returned : list Z
}.

Record system : Type := mk_system {
  shared : cycle_barrier_shared;
  procs  : list proc
}.

Inductive op : Type :=
| OpCallWait
| OpWaitStep (t : list event)
| OpWaitReturn (v : Z)
| OpGetCycle (v : Z)
| OpAllReady (r : bool)
| OpGetNumProcesses (v : Z)
| OpSetNumProcesses (m : Z).

Definition parked (p : proc) : Prop := pc p = None.

(** One step of one process that holds a handle; the label is the index
    of the process and what it did. [barrier_set_num_processes] is
    under its caller contract: every process is between episodes, and
    the new count covers the processes that take part. A process that
    opens the barrier while the session runs is a step of
    [session_step], further down. *)
Inductive sys_step : system -> nat * op -> system -> Prop :=
| step_call : forall sh l1 p l2,
    pc p = None ->
    shm (handle p) <> None ->
    sys_step (mk_system sh (l1 ++ p :: l2))
             (length l1, OpCallWait)
             (mk_system sh (l1 ++ mk_proc (handle p) (Some PC_load_num) (returned p) :: l2))
| step_wait : forall sh l1 p l2 c b' c' sh' t,
    pc p = Some c ->
    (forall v, c <> PC_done v) ->
    wait_step (handle p) c sh = ((b', c'), sh', t) ->
    sys_step (mk_system sh (l1 ++ p :: l2))
             (length l1, OpWaitStep t)
             (mk_system sh' (l1 ++ mk_proc b' (Some c') (returned p) :: l2))
| step_return : forall sh l1 p l2 v,
    pc p = Some (PC_done v) ->
    sys_step (mk_system sh (l1 ++ p :: l2))
             (length l1, OpWaitReturn v)
             (mk_system sh (l1 ++ mk_proc (handle p) None (returned p ++ [v]) :: l2))
| step_get_cycle : forall sh l1 p l2 m,
    pc p = None ->
    barrier_get_cycle (Some (handle p)) = Some m ->
    sys_step (mk_system sh (l1 ++ p :: l2))
             (length l1, OpGetCycle (result_of (m sh)))
             (mk_system (state_of (m sh)) (l1 ++ p :: l2))
| step_all_ready : forall sh l1 p l2 m,
    pc p = None ->
    barrier_all_ready (Some (handle p)) = Some m ->
    sys_step (mk_system sh (l1 ++ p :: l2))
             (length l1, OpAllReady (result_of (m sh)))
             (mk_system (state_of (m sh)) (l1 ++ p :: l2))
| step_get_num : forall sh l1 p l2 m,
    pc p = None ->
    barrier_get_num_processes (Some (handle p)) = Some m ->
    sys_step (mk_system sh (l1 ++ p :: l2))
             (length l1, OpGetNumProcesses (result_of (m sh)))
             (mk_system (state_of (m sh)) (l1 ++ p :: l2))
| step_set_num : forall sh l1 p l2 num m,
    pc p = None ->
    barrier_set_num_processes (Some (handle p)) num = Some m ->
    Forall parked (l1 ++ p :: l2) ->
    Z.of_nat (length (l1 ++ p :: l2)) <= num < UINT32_MOD ->
    sys_step (mk_system sh (l1 ++ p :: l2))
             (length l1, OpSetNumProcesses num)
             (mk_system (state_of (m sh)) (l1 ++ p :: l2)).

Inductive sys_steps : system -> list (nat * op) -> system -> Prop :=
| steps_nil : forall s, sys_steps s [] s
| steps_snoc : forall s tr s1 lbl s2,
    sys_steps s tr s1 -> sys_step s1 lbl s2 -> sys_steps s (tr ++ [lbl]) s2.

(** The handle as [barrier_open] fills it in on success. *)
Definition opened_handle (addr : Z) (nm : option String.string) (f : Z)
    (leader : bool) : cycle_barrier :=
  mk_barrier (Some addr) nm f leader 1 true.

(** A session right after the handshake: the leader has run
    [barrier_init_shared], every process holds a fresh handle, and no
    more processes take part than the leader announced. *)
Definition fresh_proc (p : proc) : Prop :=
  pc p = None /\ returned p = [] /\
  exists addr nm f leader, handle p = opened_handle addr nm f leader.

Definition initial (s : system) : Prop :=
  exists s0 num,
    shared s = state_of (barrier_init_shared num s0) /\
    0 <= num < UINT32_MOD /\
    Z.of_nat (length (procs s)) <= num /\
    Forall fresh_proc (procs s).

(* ================================================================== *)
(** ** The barrier invariant *)
(* ================================================================== *)

(** Counting the processes at given program points. *)
Definition count (f : proc -> nat) (l : list proc) : nat :=
  list_sum (map f l).

(** Arrived in the running episode and spinning for the sense flip. *)
Definition waiting_ind (sn : Z) (p : proc) : nat :=
  match pc p with
  | Some (PC_spin ms) => if ms =? sn then 0%nat else 1%nat
  | _ => 0%nat
  end.

(** The releaser, before it has reset the arrival counter. *)
Definition reset_ind (p : proc) : nat :=
  match pc p with
  | Some (PC_reset _) => 1%nat
  | _ => 0%nat
  end.

(** The releaser, between the reset and the cycle increment. *)
Definition mid_ind (p : proc) : nat :=
  match pc p with
  | Some (PC_fence_rel _) | Some (PC_inc_cycle _) => 1%nat
  | _ => 0%nat
  end.

(** The releaser, about to publish the new sense. *)
Definition release_ind (p : proc) : nat :=
  match pc p with
  | Some (PC_release _) => 1%nat
  | _ => 0%nat
  end.

(** The values [barrier_wait] returns in episodes 1, 2, ..., k. *)
Definition episode_values (k : nat) : list Z :=
  map (fun i => Z.of_nat i mod UINT64_MOD) (seq 1 k).

(** What holds of one process when [E] episodes have been released, the
    shared sense is [sn] and the announced count is [N]. *)
Definition pc_inv (E : nat) (sn N : Z) (ls : Z) (k : nat)
    (c : option wait_pc) : Prop :=
  match c with
  | None | Some PC_load_num => ls = 1 - sn /\ k = E
  | Some (PC_arrive np ms) => np = N /\ ms = 1 - sn /\ ls = ms /\ k = E
  | Some (PC_reset ms) | Some (PC_fence_rel ms)
  | Some (PC_inc_cycle ms) | Some (PC_release ms) =>
      ms = 1 - sn /\ ls = ms /\ k = E
  | Some (PC_spin ms) =>
      ls = ms /\ ((ms = 1 - sn /\ k = E) \/ (ms = sn /\ S k = E))
  | Some (PC_fence ms) | Some (PC_flip ms) => ls = ms /\ ms = sn /\ S k = E
  | Some PC_load_cycle => ls = 1 - sn /\ S k = E
  | Some (PC_done v) =>
      ls = 1 - sn /\ S k = E /\ v = Z.of_nat E mod UINT64_MOD
  end.

Definition proc_inv (E : nat) (sn N : Z) (p : proc) : Prop :=
  shm (handle p) <> None /\
  returned p = episode_values (length (returned p)) /\
  pc_inv E sn N (local_sense (handle p)) (length (returned p)) (pc p).

Record barrier_inv (E : nat) (s : system) : Prop := mk_barrier_inv {
  inv_wf : shared_wf (shared s);
  inv_sense : sense (shared s) = Z.of_nat E mod 2;
  inv_size : Z.of_nat (length (procs s)) <= num_processes (shared s);
  inv_procs :
    Forall (proc_inv E (sense (shared s)) (num_processes (shared s))) (procs s);
  inv_one :
    (count reset_ind (procs s) + count mid_ind (procs s)
     + count release_ind (procs s) <= 1)%nat;
  inv_all :
    (count reset_ind (procs s) + count mid_ind (procs s)
     + count release_ind (procs s) = 1)%nat ->
    (count (waiting_ind (sense (shared s))) (procs s) + 1
     = length (procs s))%nat /\
    Z.of_nat (length (procs s)) = num_processes (shared s);
  inv_count_reset :
    count reset_ind (procs s) = 1%nat ->
    barrier_count (shared s) = num_processes (shared s);
  inv_count_mid :
    (count mid_ind (procs s) + count release_ind (procs s) = 1)%nat ->
    barrier_count (shared s) = 0;
  inv_count_wait :
    (count reset_ind (procs s) + count mid_ind (procs s)
     + count release_ind (procs s) = 0)%nat ->
    barrier_count (shared s)
    = Z.of_nat (count (waiting_ind (sense (shared s))) (procs s));
  inv_cycle :
    cycle_count (shared s)
    = (Z.of_nat E + Z.of_nat (count release_ind (procs s))) mod UINT64_MOD
}.

(* ================================================================== *)
(** ** Episodes of a run *)
(* ================================================================== *)

(** The store that publishes the release, and the cycle increment. *)
Definition is_release (e : event) : nat :=
  match e with
  | EvStore F_sense _ => 1%nat
  | _ => 0%nat
  end.

Definition is_increment (e : event) : nat :=
  match e with
  | EvAddFetch F_cycle_count _ _ => 1%nat
  | _ => 0%nat
  end.

Definition releases (t : list event) : nat := list_sum (map is_release t).
Definition increments (t : list event) : nat := list_sum (map is_increment t).

(** Accesses made from inside [barrier_wait] by one step of a run. *)
Definition wait_events (lbl : nat * op) : list event :=
  match snd lbl with
  | OpWaitStep t => t
  | _ => []
  end.

(** Completed episodes of a run: the releases published in it. *)
Definition episodes (tr : list (nat * op)) : nat :=
  list_sum (map (fun lbl => releases (wait_events lbl)) tr).

Definition cycle_increments (tr : list (nat * op)) : nat :=
  list_sum (map (fun lbl => increments (wait_events lbl)) tr).

(* ================================================================== *)
(** ** Running a schedule *)
(* ================================================================== *)

(** The step process [i] takes next: it calls [barrier_wait] when it is
    between calls, returns when the call is done, and otherwise performs
    the next access of the call. *)
Definition exec_step (i : nat) (s : system) : option (system * (nat * op)) :=
  match nth_error (procs s) i with
  | None => None
  | Some p =>
      let l1 := firstn i (procs s) in
      let l2 := skipn (S i) (procs s) in
      match pc p with
      | None =>
          match shm (handle p) with
          | Some _ =>
              Some (mk_system (shared s)
                      (l1 ++ mk_proc (handle p) (Some PC_load_num) (returned p) :: l2),
                    (i, OpCallWait))
          | None => None
          end
      | Some (PC_done v) =>
          Some (mk_system (shared s)
                  (l1 ++ mk_proc (handle p) None (returned p ++ [v]) :: l2),
                (i, OpWaitReturn v))
      | Some c =>
          let r := wait_step (handle p) c (shared s) in
          Some (mk_system (state_of r)
                  (l1 ++ mk_proc (fst (result_of r)) (Some (snd (result_of r)))
                           (returned p) :: l2),
                (i, OpWaitStep (trace_of r)))
      end
  end.

Fixpoint exec (sched : list nat) (s : system)
  : option (system * list (nat * op)) :=
  match sched with
  | [] => Some (s, [])
  | i :: sched' =>
      match exec_step i s with
      | None => None
      | Some (s1, lbl) =>
          match exec sched' s1 with
          | None => None
          | Some (s2, tr) => Some (s2, lbl :: tr)
          end
      end
  end.

(** The state a schedule leads to and the labels of its steps; a
    schedule that cannot be run stops where it started. *)
Definition run_of (sched : list nat) (s : system) : system * list (nat * op) :=
  match exec sched s with
  | Some r => r
  | None => (s, [])
  end.

(** A session of [n] fresh processes behind a leader that announced
    [num] of them. *)
Definition fresh_session (num : Z) (n : nat) : system :=
  mk_system (state_of (barrier_init_shared num (mk_shared 0 0 0 0 0)))
            (map (fun i => mk_proc (opened_handle 0 None (Z.of_nat i + 3)
                                      (Nat.eqb i 0)) None [])
                 (seq 0 n)).

(* ================================================================== *)
(** ** One process on its own *)
(* ================================================================== *)

(** A whole call with nobody else running, within the step budget of
    the releasing branch. *)
Definition solo_wait (b : cycle_barrier) (s : cycle_barrier_shared)
  : option (cycle_barrier * cycle_barrier_shared * Z * list event) :=
  match barrier_wait RELEASER_STEPS (Some b) with
  | Some call =>
      match call s with
      | (Some (b', v), s', t) => Some (b', s', v, t)
      | (None, _, _) => None
      end
  | None => None
  end.

(** The [k]-th of [k] calls made in a row ([k >= 1]). *)
Fixpoint nth_solo_wait (k : nat) (b : cycle_barrier) (s : cycle_barrier_shared)
  : option (cycle_barrier * cycle_barrier_shared * Z * list event) :=
  match k with
  | O => None
  | S O => solo_wait b s
  | S k' =>
      match solo_wait b s with
      | Some (b', s', _, _) => nth_solo_wait k' b' s'
      | None => None
      end
  end.

(** The accesses of a call that takes the releasing branch, given the
    values it reads and writes. *)
Definition releaser_trace (num arrived cycle my_sense : Z) : list event :=
  [ EvLoad F_num_processes num;
    EvAddFetch F_barrier_count 1 arrived;
    EvStore F_barrier_count 0;
    EvFence;
    EvAddFetch F_cycle_count 1 cycle;
    EvStore F_sense my_sense;
    EvFence;
    EvLocal;
    EvLoad F_cycle_count cycle ].

(** A call whose steps see arbitrary shared states: whatever the other
    processes do between two of its accesses. *)
Inductive call_run : cycle_barrier -> wait_pc -> cycle_barrier -> Z -> Prop :=
| call_done : forall b v, call_run b (PC_done v) b v
| call_step : forall b c s b1 c1 s1 t b2 v,
    (forall w, c <> PC_done w) ->
    wait_step b c s = ((b1, c1), s1, t) ->
    call_run b1 c1 b2 v ->
    call_run b c b2 v.

(** A completed call of [barrier_wait] on handle [b]. *)
Definition completes (b b' : cycle_barrier) (v : Z) : Prop :=
  call_run b PC_load_num b' v.

(** [k] completed calls in a row on one handle. *)
Inductive waits : cycle_barrier -> nat -> cycle_barrier -> Prop :=
| waits_O : forall b, waits b 0 b
| waits_S : forall b k b1 b2 v,
    waits b k b1 -> completes b1 b2 v -> waits b (S k) b2.

(* ================================================================== *)
(** ** The system calls around the barrier *)
(* ================================================================== *)

Definition ENOENT : Z := 2.
Definition max_retries : nat := 1000.

Inductive heap_obj : Type := HeapHandle | HeapName.

(** Calls made by [barrier_open] and [barrier_close], with their
    results. [SysShared] is an access to the mapped structure,
    [SysStderr] a diagnostic ([perror], [fprintf(stderr, ...)]). *)
Inductive sys_event : Type :=
| SysMemalign (r : Z)
| SysOpen (nm : String.string) (create : bool) (fd : Z)
| SysUsleep (usec : Z)
| SysFtruncate (fd size r : Z)
| SysFstat (fd r size : Z)
| SysMmap (fd size : Z) (p : option Z)
| SysStrdup (nm : String.string) (ok : bool)
| SysShared (t : list event)
| SysMunmap (addr size : Z)
| SysClose (fd : Z)
| SysUnlink (nm : String.string)
| SysFree (o : option heap_obj)
| SysStderr.

(** What the system answers: the return code of [posix_memalign], the
    result and [errno] of the k-th [open], the result of [ftruncate],
    the result and [st_size] of the k-th [fstat], the address [mmap]
    returns ([None] is [MAP_FAILED]), whether [strdup] succeeds, what
    the mapping holds when the leader starts to fill it in, and the
    value the k-th load of [initialized] reads. *)
Record environment : Type := mk_env {
  env_memalign    : Z;
  env_open        : nat -> Z * Z;
  env_ftruncate   : Z;
  env_fstat       : nat -> Z * Z;
  env_mmap        : option Z;
  env_strdup      : bool;
  env_shared      : cycle_barrier_shared;
  env_initialized : nat -> Z
}.

Inductive loop_exit (A : Type) : Type :=
| Break (a : A)   (* left through [break] *)
| Exhausted       (* the loop condition [retries < max_retries] failed *)
| Failed.         (* [goto err] from inside the loop *)
Arguments Break {A} a.
Arguments Exhausted {A}.
Arguments Failed {A}.

(** [while (retries < max_retries) { fd = open(...); ... }]: [budget]
    is [max_retries - retries]. *)
Fixpoint open_loop (env : environment) (nm : String.string) (leader : bool)
    (budget retries : nat) : loop_exit Z * list sys_event :=
  match budget with
  | O => (Exhausted, [])
  | S budget' =>
      let '(f, errno) := env_open env retries in
      if 0 <=? f then (Break f, [SysOpen nm leader f])
      else if negb leader && (errno =? ENOENT)
      then
        let '(x, t) := open_loop env nm leader budget' (S retries) in
        (x, SysOpen nm leader f :: SysUsleep 10000 :: t)
      else (Failed, [SysOpen nm leader f; SysStderr])
  end.

(** The follower's loop on [fstat]. *)
Fixpoint size_loop (env : environment) (f : Z) (budget retries : nat)
  : loop_exit unit * list sys_event :=
  match budget with
  | O => (Exhausted, [])
  | S budget' =>
      let '(r, size) := env_fstat env retries in
      if (r =? 0) && (barrier_mapsize <=? size)
      then (Break tt, [SysFstat f r size])
      else
        let '(x, t) := size_loop env f budget' (S retries) in
        (x, SysFstat f r size :: SysUsleep 10000 :: t)
  end.

(** The follower's loop on the [initialized] flag. *)
Fixpoint init_loop (env : environment) (budget retries : nat)
  : loop_exit unit * list sys_event :=
  match budget with
  | O => (Exhausted, [])
  | S budget' =>
      let v := env_initialized env retries in
      if v =? 1
      then (Break tt, [SysShared [EvLoad F_initialized v]])
      else
        let '(x, t) := init_loop env budget' (S retries) in
        (x, SysShared [EvLoad F_initialized v] :: SysUsleep 1000 :: t)
  end.

(** The [err:] label: [if (fd >= 0) close(fd); free(b); return NULL]. *)
Definition open_err (f : Z) (allocated : bool) : list sys_event :=
  (if 0 <=? f then [SysClose f] else [])
  ++ [SysFree (if allocated then Some HeapHandle else None)].

(** Sizing the file: [ftruncate] for the leader, the [fstat] loop for a
    follower. *)
Definition size_phase (env : environment) (leader : bool) (f : Z)
  : loop_exit unit * list sys_event :=
  if leader
  then
    let r := env_ftruncate env in
    if r <? 0
    then (Failed, [SysFtruncate f barrier_mapsize r; SysStderr])
    else (Break tt, [SysFtruncate f barrier_mapsize r])
  else
    match size_loop env f max_retries 0 with
    | (Exhausted, t) => (Exhausted, t ++ [SysStderr])
    | r => r
    end.

(** Filling in the shared structure (leader) or waiting for it
    (follower). *)
Definition init_phase (env : environment) (leader : bool) (num : Z)
  : loop_exit unit * list sys_event :=
  if leader
  then (Break tt,
        [SysShared (trace_of (barrier_init_shared num (env_shared env)))])
  else
    match init_loop env max_retries 0 with
    | (Exhausted, t) => (Exhausted, t ++ [SysStderr])
    | r => r
    end.

(** [barrier_open]: the handle, or [None] for [NULL], and the calls
    made. In the opening loop [fd] is negative whenever the loop is left
    without [break], which [-1] stands for. *)
Definition barrier_open (env : environment) (nm : String.string)
    (leader : bool) (num : Z) : option cycle_barrier * list sys_event :=
  if negb (env_memalign env =? 0)
  then (None, [SysMemalign (env_memalign env); SysStderr] ++ open_err (-1) false)
  else
    let t0 := [SysMemalign (env_memalign env)] in
    match open_loop env nm leader max_retries 0 with
    | (Failed, t1) => (None, t0 ++ t1 ++ open_err (-1) true)
    | (Exhausted, t1) => (None, t0 ++ t1 ++ [SysStderr] ++ open_err (-1) true)
    | (Break f, t1) =>
        match size_phase env leader f with
        | (Break _, t2) =>
            match env_mmap env with
            | None =>
                (None, t0 ++ t1 ++ t2
                       ++ [SysMmap f barrier_mapsize None; SysStderr]
                       ++ open_err f true)
            | Some p =>
                let b := mk_barrier (Some p)
                           (if env_strdup env then Some nm else None)
                           f leader 1 true in
                let t3 := [SysMmap f barrier_mapsize (Some p);
                           SysStrdup nm (env_strdup env)] in
                match init_phase env leader num with
                | (Break _, t4) => (Some b, t0 ++ t1 ++ t2 ++ t3 ++ t4)
                | (_, t4) => (None, t0 ++ t1 ++ t2 ++ t3 ++ t4 ++ open_err f true)
                end
            end
        | (_, t2) => (None, t0 ++ t1 ++ t2 ++ open_err f true)
        end
    end.

(** [barrier_close]. *)
Definition barrier_close (b : option cycle_barrier) : list sys_event :=
  match b with
  | None => []
  | Some h =>
      (match shm h with
       | Some p => if unmap_at_close h then [SysMunmap p barrier_mapsize] else []
       | None => []
       end)
      ++ (if 0 <=? fd h then [SysClose (fd h)] else [])
      ++ (match name h with
          | Some nm => if is_leader h then [SysUnlink nm] else []
          | None => []
          end)
      ++ [SysFree (match name h with Some _ => Some HeapName | None => None end);
          SysFree (Some HeapHandle)]
  end.

(** *** Resources *)

Inductive resource : Type :=
| ResHandle | ResFd (f : Z) | ResMapping (p : Z) | ResName.

Definition resource_eqb (a b : resource) : bool :=
  match a, b with
  | ResHandle, ResHandle => true
  | ResFd f, ResFd g => f =? g
  | ResMapping p, ResMapping q => p =? q
  | ResName, ResName => true
  | _, _ => false
  end.

Definition acquires (e : sys_event) : list resource :=
  match e with
  | SysMemalign r => if r =? 0 then [ResHandle] else []
  | SysOpen _ _ f => if 0 <=? f then [ResFd f] else []
  | SysMmap _ _ (Some p) => [ResMapping p]
  | SysStrdup _ true => [ResName]
  | _ => []
  end.

Definition frees (e : sys_event) : list resource :=
  match e with
  | SysClose f => [ResFd f]
  | SysMunmap p _ => [ResMapping p]
  | SysFree (Some HeapHandle) => [ResHandle]
  | SysFree (Some HeapName) => [ResName]
  | _ => []
  end.

Definition drop (r : resource) (l : list resource) : list resource :=
  filter (fun x => negb (resource_eqb r x)) l.

(** The resources held after a sequence of calls, given the ones held
    before it. *)
Definition held_from (live : list resource) (t : list sys_event)
  : list resource :=
  fold_left (fun live e => fold_right drop (live ++ acquires e) (frees e))
            t live.

(** The resources a sequence of calls leaves acquired. *)
Definition held_after (t : list sys_event) : list resource := held_from [] t.

Definition sleeps (t : list sys_event) : list Z :=
  flat_map (fun e => match e with SysUsleep u => [u] | _ => [] end) t.

(** A loop that sleeps [u] between checks sleeps at most once per unit
    of budget, and as often as the budget when it runs out. *)
Definition paced (u : Z) (budget : nat) {A} (r : loop_exit A * list sys_event)
  : Prop :=
  sleeps (snd r) = repeat u (length (sleeps (snd r))) /\
  (length (sleeps (snd r)) <= budget)%nat /\
  (fst r = Exhausted -> length (sleeps (snd r)) = budget).

(** The shared accesses a sequence of calls makes, in order. *)
Definition shared_accesses (t : list sys_event) : list event :=
  flat_map (fun e => match e with SysShared a => a | _ => [] end) t.

(** Answers under which every call succeeds at once. *)
Definition env_ok : environment :=
  mk_env 0 (fun _ => (3, 0)) 0 (fun _ => (0, barrier_mapsize)) (Some 4096)
         true (mk_shared 0 0 0 0 0) (fun _ => 1).

(** Answers of a system in which the file is there and sized but the
    leader never sets [initialized]. *)
Definition env_never_initialized : environment :=
  mk_env 0 (fun _ => (3, 0)) 0 (fun _ => (0, barrier_mapsize)) (Some 4096)
         true (mk_shared 0 0 0 0 0) (fun _ => 0).

(** What a valid handle is: one with a mapping and an open descriptor,
    as [barrier_open] returns it. The copy of the name is no part of
    it: [barrier_open] does not check what its [strdup] returned, so a
    handle it returns can have [name] at [NULL]. *)
Definition valid_handle (h : cycle_barrier) : Prop :=
  shm h <> None /\ 0 <= fd h.

(** Answers under which every call succeeds at once except [strdup],
    which finds no memory. *)
Definition env_strdup_fails : environment :=
  mk_env 0 (fun _ => (3, 0)) 0 (fun _ => (0, barrier_mapsize)) (Some 4096)
         false (mk_shared 0 0 0 0 0) (fun _ => 1).

(** The handle the leader's [barrier_open] returns under them. *)
Definition nameless_leader : cycle_barrier :=
  mk_barrier (Some 4096) None 3 true 1 true.

(** Answers of a system in which the leader never creates the file. *)
Definition env_no_file : environment :=
  mk_env 0 (fun _ => (-1, ENOENT)) 0 (fun _ => (0, barrier_mapsize))
         (Some 4096) true (mk_shared 0 0 0 0 0) (fun _ => 1).

(** The shared structure and the handle of a one-process session after
    [k] calls of [barrier_wait]. *)
Definition solo_shared (k : nat) : cycle_barrier_shared :=
  mk_shared (Z.of_nat k mod UINT64_MOD) 0 1 (Z.of_nat k mod 2) 1.

Definition solo_handle (b : cycle_barrier) (k : nat) : cycle_barrier :=
  set_local_sense b (1 - Z.of_nat k mod 2).

(** Two processes going through one episode: process 0 arrives first
    and spins, process 1 releases, process 0 leaves. *)
Definition two_process_episode : list nat :=
  [0; 0; 0; 0; 1; 1; 1; 1; 1; 1; 1; 1; 1; 1; 1; 0; 0; 0; 0; 0]%nat.

(** One process calling [barrier_wait], up to its last access. *)
Definition up_to_last_access : list nat := repeat 0%nat 9.

(** A one-process session whose cycle counter is at its maximum. *)
Definition session_at_max : system :=
  mk_system (mk_shared (UINT64_MOD - 1) 0 1 1 1)
            [mk_proc (mk_barrier (Some 4096) None 3 true 0 true) None []].

(** Not in the spin loop of [barrier_wait]. *)
Definition not_spinning (p : proc) : Prop :=
  forall my_sense, pc p <> Some (PC_spin my_sense).

(* ================================================================== *)
(** ** Sessions that grow *)
(* ================================================================== *)

(** [sys_step] runs the calls of a fixed set of handles. A session also
    grows while it runs: a follower's [barrier_open] returns as soon as
    it has read [initialized] as 1, at any point of the run, and the
    handle it returns has [local_sense] at 1 whatever the shared [sense]
    is at that time. *)
Inductive session_label : Type :=
| Did (lbl : nat * op)   (* a step of the processes there are *)
| Attached (i : nat).    (* [barrier_open] returned in a new process, number [i] *)

Inductive session_step : system -> session_label -> system -> Prop :=
| session_did : forall s lbl s',
    sys_step s lbl s' ->
    session_step s (Did lbl) s'
| session_attach : forall sh l addr nm f,
    initialized sh = 1 ->
    session_step (mk_system sh l) (Attached (length l))
      (mk_system sh (l ++ [mk_proc (opened_handle addr nm f false) None []])).

Inductive session_steps : system -> list session_label -> system -> Prop :=
| session_nil : forall s, session_steps s [] s
| session_snoc : forall s tr s1 l s2,
    session_steps s tr s1 -> session_step s1 l s2 ->
    session_steps s (tr ++ [l]) s2.

(** The steps of the processes in a session run. *)
Definition ops_of (tr : list session_label) : list (nat * op) :=
  flat_map (fun l => match l with Did lbl => [lbl] | Attached _ => [] end) tr.

(** A session run in which every handle is opened in time: a further
    process opens the barrier, as a follower, only before the first
    episode is released and while fewer handles are open than
    [num_processes] announces. *)
Inductive orderly : system -> list session_label -> system -> Prop :=
| orderly_nil : forall s, orderly s [] s
| orderly_did : forall s0 tr s lbl s',
    orderly s0 tr s ->
    sys_step s lbl s' ->
    orderly s0 (tr ++ [Did lbl]) s'
| orderly_attach : forall s0 tr s i s',
    orderly s0 tr s ->
    episodes (ops_of tr) = 0%nat ->
    Z.of_nat (length (procs s)) < num_processes (shared s) ->
    session_step s (Attached i) s' ->
    orderly s0 (tr ++ [Attached i]) s'.

(** *** Running a session *)

Inductive command : Type :=
| Go (i : nat)                 (* process [i] takes its next step *)
| Join (addr f : Z)            (* a follower's [barrier_open] returns *)
| Resize (i : nat) (num : Z).  (* process [i] calls [barrier_set_num_processes] *)

Definition is_parked (p : proc) : bool :=
  match pc p with None => true | Some _ => false end.

Definition session_exec_step (c : command) (s : system)
  : option (system * session_label) :=
  match c with
  | Go i =>
      match exec_step i s with
      | Some (s', lbl) => Some (s', Did lbl)
      | None => None
      end
  | Join addr f =>
      if initialized (shared s) =? 1
      then Some (mk_system (shared s)
                   (procs s ++ [mk_proc (opened_handle addr None f false) None []]),
                 Attached (length (procs s)))
      else None
  | Resize i num =>
      match nth_error (procs s) i with
      | Some p =>
          match barrier_set_num_processes (Some (handle p)) num with
          | Some m =>
              if forallb is_parked (procs s)
                 && (Z.of_nat (length (procs s)) <=? num)
                 && (num <? UINT32_MOD)
              then Some (mk_system (state_of (m (shared s))) (procs s),
                         Did (i, OpSetNumProcesses num))
              else None
          | None => None
          end
      | None => None
      end
  end.

Fixpoint session_exec (cs : list command) (s : system)
  : option (system * list session_label) :=
  match cs with
  | [] => Some (s, [])
  | c :: cs' =>
      match session_exec_step c s with
      | None => None
      | Some (s1, l) =>
          match session_exec cs' s1 with
          | None => None
          | Some (s2, tr) => Some (s2, l :: tr)
          end
      end
  end.

Definition session_run_of (cs : list command) (s : system)
  : system * list session_label :=
  match session_exec cs s with
  | Some r => r
  | None => (s, [])
  end.

(** Whether a handle may still be opened after the steps [tr] that led
    to [s]: no episode released yet, and a place left. *)
Definition may_join (tr : list session_label) (s : system) : bool :=
  Nat.eqb (episodes (ops_of tr)) 0
  && (Z.of_nat (length (procs s)) <? num_processes (shared s)).

(** Running commands as long as every [Join] comes in time. *)
Fixpoint orderly_exec (cs : list command) (tr : list session_label)
    (s : system) : option (system * list session_label) :=
  match cs with
  | [] => Some (s, tr)
  | c :: cs' =>
      match session_exec_step c s with
      | None => None
      | Some (s1, l) =>
          if match l with Attached _ => may_join tr s | Did _ => true end
          then orderly_exec cs' (tr ++ [l]) s1
          else None
      end
  end.

Definition orderly_run_of (cs : list command) (s : system)
  : system * list session_label :=
  match orderly_exec cs [] s with
  | Some r => r
  | None => (s, [])
  end.

(** The values the calls of a run returned, in the order of the
    returns, and the calls made. *)
Definition returned_values (tr : list (nat * op)) : list Z :=
  flat_map (fun lbl => match snd lbl with OpWaitReturn v => [v] | _ => [] end) tr.

Definition calls_made (tr : list (nat * op)) : list nat :=
  flat_map (fun lbl => match snd lbl with OpCallWait => [fst lbl] | _ => [] end) tr.

(** *** The resize scenario *)

(** A call of process [i] up to its arrival, the whole call of the last
    to arrive, and the rest of the call of a process that was
    spinning. *)
Definition arrives (i : nat) : list command := repeat (Go i) 3.
Definition releases_episode (i : nat) : list command := repeat (Go i) 11.
Definition leaves (i : nat) : list command := repeat (Go i) 5.

(** Three processes behind a leader that announced three go through
    episode 1; the leader sets the count to 4 while all are parked and a
    fourth process opens the barrier. *)
Definition episode_then_join : list command :=
  arrives 0 ++ arrives 1 ++ releases_episode 2 ++ leaves 0 ++ leaves 1
  ++ [Resize 0 4; Join 0 6].

Definition resized_session : system :=
  fst (session_run_of episode_then_join (fresh_session 3 3)).

(** The rest of the releaser's call after its arrival. *)
Definition releases_after_arrival (i : nat) : list command := repeat (Go i) 8.

(** Episode 2 with the four calls in flight together: all four arrive,
    the new process (not the last to arrive) reads [sense], finds the 1
    its handle expects and returns; then the last to arrive releases
    the episode and the others return. *)
Definition episode_two : list command :=
  arrives 3 ++ arrives 0 ++ arrives 1 ++ arrives 2
  ++ leaves 3 ++ releases_after_arrival 2 ++ leaves 0 ++ leaves 1.

(** The same start; the new process, back from its call, calls again
    and arrives before the releaser has reset the counter. *)
Definition episode_two_overrun : list command :=
  arrives 3 ++ arrives 0 ++ arrives 1 ++ arrives 2
  ++ leaves 3 ++ arrives 3.

(** Episode 2 with the new process arriving last: it is the releaser and
    stores the 1 its handle expects over the 1 in [sense]; the others
    go on reading [sense]. *)
Definition episode_two_joiner_last : list command :=
  arrives 0 ++ arrives 1 ++ arrives 2 ++ releases_episode 3
  ++ [Go 0; Go 1; Go 2].

(** Where that run leaves the session. *)
Definition stranded_session : system :=
  fst (session_run_of episode_two_joiner_last resized_session).

(** The three processes of episode 1 in the spin loop of their second
    call, and the new process back from its first call, at the program
    point [c] with the arrival counter at [count]. *)
Definition stranded (c : option wait_pc) (count : Z) : system :=
  mk_system (mk_shared 2 count 4 1 1)
    [ mk_proc (mk_barrier (Some 0) None 3 true 0 true) (Some (PC_spin 0)) [1];
      mk_proc (mk_barrier (Some 0) None 4 false 0 true) (Some (PC_spin 0)) [1];
      mk_proc (mk_barrier (Some 0) None 5 false 0 true) (Some (PC_spin 0)) [1];
      mk_proc (mk_barrier (Some 0) None 6 false 0 true) c [2] ].

(** The new process between calls, and in its next call: at the load of
    [num_processes], at the arrival, in the spin loop. *)
Definition stranded_states : list system :=
  [ stranded None 0; stranded (Some PC_load_num) 0;
    stranded (Some (PC_arrive 4 0)) 0; stranded (Some (PC_spin 0)) 1 ].

(** The calls in flight. *)
Definition in_flight (s : system) : nat :=
  length (filter (fun p => negb (is_parked p)) (procs s)).

Definition program_points (s : system) : list (option wait_pc) :=
  map pc (procs s).
(* ================================================================== *)
(** ** Counting calls in a run *)
(* ================================================================== *)







(** Whether a step changes [num_processes] from the outside. *)
Definition is_resize (lbl : nat * op) : bool :=
  match snd lbl with
  | OpSetNumProcesses _ => true
  | _ => false
  end.



(** Some interleaving leads from [s] to [s']. *)
Definition reaches (s s' : system) : Prop := exists tr, sys_steps s tr s'.

(** A process that has arrived and spins for its local sense. *)
Definition spinning (p : proc) : proc :=
  mk_proc (handle p) (Some (PC_spin (local_sense (handle p)))) (returned p).

(** A process back from a call that returned [v] on sense [sn]. *)
Definition left_with (sn v : Z) (p : proc) : proc :=
  mk_proc (set_local_sense (handle p) ((1 - sn) mod UINT32_MOD)) None
          (returned p ++ [v]).

(** *** What [barrier_open] needs from the system *)

(** The k-th [open] fails because the file is not there yet. *)
Definition open_retry (env : environment) (k : nat) : Prop :=
  fst (env_open env k) < 0 /\ snd (env_open env k) = ENOENT.

(** The k-th [fstat] succeeds and reports the full size. *)
Definition sized (env : environment) (k : nat) : Prop :=
  fst (env_fstat env k) = 0 /\ barrier_mapsize <= snd (env_fstat env k).

(** The answers under which [barrier_open] gets through: the handle can
    be allocated and the file mapped; for the leader the first [open]
    and [ftruncate] succeed; for a follower, within [max_retries] tries
    each, [open] succeeds after failing only with [ENOENT], [fstat]
    reports the full size, and [initialized] reads 1. *)
Definition open_answers (env : environment) (leader : bool) : Prop :=
  env_memalign env = 0 /\ env_mmap env <> None /\
  if leader
  then 0 <= fst (env_open env 0) /\ 0 <= env_ftruncate env
  else (exists i, (i < max_retries)%nat /\ 0 <= fst (env_open env i) /\
                  forall j, (j < i)%nat -> open_retry env j)
       /\ (exists k, (k < max_retries)%nat /\ sized env k)
       /\ (exists j, (j < max_retries)%nat /\ env_initialized env j = 1).

(** The loads of [initialized] a follower makes in its first [n] polls. *)
Definition init_polls (env : environment) (n : nat) : list event :=
  map (fun i => EvLoad F_initialized (env_initialized env i)) (seq 0 n).

(** The calls of [open] in a sequence of calls, with their flags. *)
Definition opens (t : list sys_event) : list bool :=
  flat_map (fun e => match e with SysOpen _ create _ => [create] | _ => [] end) t.

(** The resources a handle stands for. *)
Definition handle_resources (h : cycle_barrier) : list resource :=
  [ResHandle; ResFd (fd h)]
  ++ (match shm h with Some p => [ResMapping p] | None => [] end)
  ++ (match name h with Some _ => [ResName] | None => [] end).

(** A handle as a successful [barrier_open] leaves it, up to the local
    sense. *)
Definition open_handle (h : cycle_barrier) : Prop :=
  shm h <> None /\ 0 <= fd h /\ unmap_at_close h = true.

(* ================================================================== *)
(** ** The DPI entry points (dpi/barrier_dpi.cc) *)
(* ================================================================== *)

Definition INT_MAX : Z := 2 ^ 31 - 1.
Definition INT_MIN : Z := - 2 ^ 31.

(** [(uint32_t)n] for an [int] [n], and [(int)v] for a [uint32_t] [v]. *)
Definition to_uint32 (n : Z) : Z := n mod UINT32_MOD.
Definition to_int (v : Z) : Z := if v <=? INT_MAX then v else v - UINT32_MOD.

(** How a call ends: it returns, the process leaves through [exit], or
    an [assert] aborts it. *)
Inductive outcome (A : Type) : Type :=
| Returns (a : A)
| Exits (code : Z)
| Aborts.
Arguments Returns {A} a.
Arguments Exits {A} code.
Arguments Aborts {A}.

(** The entry points work on the process-wide [g_barrier], which each of
    them is given here; those that assign it return its new value. The
    calls listed are those of [barrier_open] and [barrier_close] and the
    diagnostics on [stderr]. *)
Definition pi_barrier_init (env : environment)
    (g_barrier : option cycle_barrier) (uri : String.string)
    (is_leader num_procs : Z)
  : outcome (option cycle_barrier) * list sys_event :=
  match g_barrier with
  | Some _ => (Returns g_barrier, [SysStderr])
  | None =>
      match barrier_open env uri (negb (is_leader =? 0)) (to_uint32 num_procs) with
      | (Some h, t) => (Returns (Some h), t)
      | (None, t) => (Exits 1, t ++ [SysStderr])
      end
  end.

(** [cycle_out] receives the value [barrier_wait] returns, next to the
    handle as the call leaves it. *)
Definition pi_barrier_wait (fuel : nat) (g_barrier : option cycle_barrier)
  : outcome (atomic (option (cycle_barrier * Z))) * list sys_event :=
  match g_barrier with
  | None => (Exits 1, [SysStderr])
  | Some h =>
      match barrier_wait fuel g_barrier with
      | Some m => (Returns m, [])
      | None => (Aborts, [])
      end
  end.

Definition pi_barrier_get_cycle (g_barrier : option cycle_barrier)
  : outcome (atomic Z) * list sys_event :=
  match g_barrier with
  | None => (Exits 1, [SysStderr])
  | Some h =>
      match barrier_get_cycle g_barrier with
      | Some m => (Returns m, [])
      | None => (Aborts, [])
      end
  end.

Definition pi_barrier_close (g_barrier : option cycle_barrier)
  : option cycle_barrier * list sys_event :=
  match g_barrier with
  | Some h => (None, barrier_close g_barrier)
  | None => (g_barrier, [])
  end.

Definition pi_barrier_ready (g_barrier : option cycle_barrier)
  : outcome (atomic Z) * list sys_event :=
  match g_barrier with
  | None => (Returns (aret 0), [])
  | Some h =>
      match barrier_all_ready g_barrier with
      | Some m => (Returns (r <- m ;; aret (if r : bool then 1 else 0)), [])
      | None => (Aborts, [])
      end
  end.

Definition pi_barrier_set_num_procs (g_barrier : option cycle_barrier)
    (num_procs : Z) : outcome (atomic unit) * list sys_event :=
  match g_barrier with
  | None => (Returns (aret tt), [SysStderr])
  | Some h =>
      match barrier_set_num_processes g_barrier (to_uint32 num_procs) with
      | Some m => (Returns m, [])
      | None => (Aborts, [])
      end
  end.

Definition pi_barrier_get_num_procs (g_barrier : option cycle_barrier)
  : outcome (atomic Z) * list sys_event :=
  match g_barrier with
  | None => (Returns (aret 0), [])
  | Some h =>
      match barrier_get_num_processes g_barrier with
      | Some m => (Returns (v <- m ;; aret (to_int v)), [])
      | None => (Aborts, [])
      end
  end.

(** A process calling the entry points one after the other. A call of
    [pi_barrier_wait] completes with whatever the other processes do to
    the shared structure in between; a call that does not return ends
    the sequence. *)
Inductive dpi_call : Type :=
| DpiInit (env : environment) (uri : String.string) (is_leader num_procs : Z)
| DpiWait
| DpiGetCycle
| DpiClose
| DpiReady
| DpiSetNumProcs (num_procs : Z)
| DpiGetNumProcs.

Inductive dpi_step
  : option cycle_barrier -> dpi_call -> option cycle_barrier ->
    list sys_event -> Prop :=
| dpi_init : forall g env uri is_leader num_procs g' t,
    pi_barrier_init env g uri is_leader num_procs = (Returns g', t) ->
    dpi_step g (DpiInit env uri is_leader num_procs) g' t
| dpi_wait : forall fuel h m t h' v,
    pi_barrier_wait fuel (Some h) = (Returns m, t) ->
    completes h h' v ->
    dpi_step (Some h) DpiWait (Some h') t
| dpi_get_cycle : forall g m t,
    pi_barrier_get_cycle g = (Returns m, t) ->
    dpi_step g DpiGetCycle g t
| dpi_close : forall g g' t,
    pi_barrier_close g = (g', t) ->
    dpi_step g DpiClose g' t
| dpi_ready : forall g m t,
    pi_barrier_ready g = (Returns m, t) ->
    dpi_step g DpiReady g t
| dpi_set_num_procs : forall g num_procs m t,
    pi_barrier_set_num_procs g num_procs = (Returns m, t) ->
    dpi_step g (DpiSetNumProcs num_procs) g t
| dpi_get_num_procs : forall g m t,
    pi_barrier_get_num_procs g = (Returns m, t) ->
    dpi_step g DpiGetNumProcs g t.

Inductive dpi_steps
  : option cycle_barrier -> list dpi_call -> option cycle_barrier ->
    list sys_event -> Prop :=
| dpi_steps_nil : forall g, dpi_steps g [] g []
| dpi_steps_snoc : forall g calls g1 t1 c g2 t2,
    dpi_steps g calls g1 t1 -> dpi_step g1 c g2 t2 ->
    dpi_steps g (calls ++ [c]) g2 (t1 ++ t2).


(* ================================================================== *)
(** ** The synchronized testbench (verilator/testbench_sync.cc) *)
(* ================================================================== *)

From Stdlib Require Ascii.

(** A [std::string], or the characters of a C string up to its end. *)
Definition text : Type := list Ascii.ascii.

Module Plusargs.
Import Ascii String.
Definition plus : ascii := "+"%char.
Definition equals : ascii := "="%char.
Definition period : text := list_ascii_of_string "period".
Definition barrier_uri : text := list_ascii_of_string "barrier_uri".
Definition barrier_leader : text := list_ascii_of_string "barrier_leader".
Definition barrier_procs : text := list_ascii_of_string "barrier_procs".
Definition max_cycles : text := list_ascii_of_string "max_cycles".
End Plusargs.

Definition text_eqb (a b : text) : bool :=
  if list_eq_dec Ascii.ascii_dec a b then true else false.

(** [s.substr(pos, n)] and [s.substr(pos)], for [pos <= s.size()]. *)
Definition substr (s : text) (pos n : nat) : text := firstn n (skipn pos s).
Definition substr_from (s : text) (pos : nat) : text := skipn pos s.

(** [match] is [None] for a null pointer. *)
Definition extract_plusarg_value (match_ : option text) (name : text) : text :=
  match match_ with
  | Some full =>
      let prefix := [Plusargs.plus] ++ name ++ [Plusargs.equals] in
      let len := length prefix in
      if (len + 1 <=? length full)%nat
         && text_eqb (substr full 0 (len - 1)) (substr prefix 0 (len - 1))
      then substr_from full len
      else []
  | None => []
  end.

(** [iss >> result] is [extraction], which is given the text and the
    value [result] has. *)
Definition parse_plusarg {T : Type} (extraction : text -> T -> T)
    (match_ : option text) (name : text) (result : T) : T :=
  let value := extract_plusarg_value match_ name in
  if negb (text_eqb value []) then extraction value result else result.

Definition get_plusarg_string (commandArgsPlusMatch : text -> option text)
    (name : text) : text :=
  extract_plusarg_value (commandArgsPlusMatch name) name.

(** What [main] does to the model and the system, in order. *)
Inductive tb_event : Type :=
| TbSys (e : sys_event)     (* a call of barrier_open or barrier_close *)
| TbStderr
| TbStdout
| TbEval (clk : Z)          (* top->eval() with the clock at [clk] *)
| TbStartDelay
| TbBarrierWait             (* a completed barrier_wait *)
| TbTimeInc (d : Z)
| TbFinal.

(** The handle after a completed [barrier_wait]. *)
Definition waited (b : option cycle_barrier) : option cycle_barrier :=
  match b with
  | Some h => Some (set_local_sense h ((1 - local_sense h) mod UINT32_MOD))
  | None => None
  end.

(** One turn of the simulation loop past its checks. *)
Definition sim_cycle (duration0 duration1 : Z) (barrier : option cycle_barrier)
  : list tb_event :=
  [TbEval 0]
  ++ (match barrier with Some _ => [TbBarrierWait] | None => [] end)
  ++ [TbTimeInc duration0; TbEval 1; TbTimeInc duration1; TbEval 0].

(** The simulation loop. [finish k] is what
    [contextp->gotFinish() || got_sigint] gives when the loop condition
    is evaluated for the k-th time. [wait_returns k] is whether the
    [barrier_wait] of turn [k] returns: the call spins until
    [num_processes] processes have arrived, so this is up to the other
    processes of the session, and a call that does not return holds the
    loop for good (the spin does not look at [got_sigint]). [fuel]
    bounds the turns, and [None] is a loop that has not ended within
    them: still running, or held in [barrier_wait]. *)
Fixpoint sim_loop (fuel : nat) (finish wait_returns : nat -> bool)
    (max_cycles duration0 duration1 : Z) (barrier : option cycle_barrier)
    (cycle : Z) (k : nat)
  : option (Z * option cycle_barrier * list tb_event) :=
  match fuel with
  | O => None
  | S fuel' =>
      if finish k then Some (cycle, barrier, [])
      else if (0 <? max_cycles) && (max_cycles <=? cycle)
      then Some (cycle, barrier, [TbStdout])
      else if match barrier with Some _ => wait_returns k | None => true end
      then
        match sim_loop fuel' finish wait_returns max_cycles duration0 duration1
                (waited barrier) ((cycle + 1) mod UINT64_MOD) (S k) with
        | Some (c, b, t) => Some (c, b, sim_cycle duration0 duration1 barrier ++ t)
        | None => None
        end
      else None
  end.

Section TestbenchSync.
(** The pieces of Verilator and of the C++ library [main] relies on:
    the plusargs of the command line, the stream extractions, and the
    initialiser of [iperiod],
    [std::round(period * std::pow(10.0, -1.0 * timeprecision()))]
    converted to [uint64_t]: [period_to_uint64 p] is the [uint64_t] the
    program gets for the period [p]. For a rounded value outside the
    range of [uint64_t] C++ leaves the conversion undefined;
    [period_to_uint64] then stands for whatever the binary produces,
    and nothing below depends on which value that is. The other
    processes of the session are in [wait_returns]. *)
Variable double : Type.
Variable period_default : double.        (* 10e-9 *)
Variable extract_double : text -> double -> double.
Variable extract_int : text -> Z -> Z.
Variable extract_uint64 : text -> Z -> Z.
Variable period_to_uint64 : double -> Z.
Variable commandArgsPlusMatch : text -> option text.
Variable env : environment.
Variable finish : nat -> bool.
Variable wait_returns : nat -> bool.

Record tb_args : Type := mk_tb_args {
  arg_period : double;
  arg_barrier_uri : text;
  arg_barrier_leader : Z;
  arg_barrier_procs : Z;
  arg_max_cycles : Z
}.

(** The plusargs as [main] reads them, with its defaults. *)
Definition main_args : tb_args :=
  mk_tb_args
    (parse_plusarg extract_double (commandArgsPlusMatch Plusargs.period)
       Plusargs.period period_default)
    (get_plusarg_string commandArgsPlusMatch Plusargs.barrier_uri)
    (parse_plusarg extract_int (commandArgsPlusMatch Plusargs.barrier_leader)
       Plusargs.barrier_leader 0)
    (parse_plusarg extract_int (commandArgsPlusMatch Plusargs.barrier_procs)
       Plusargs.barrier_procs 2)
    (parse_plusarg extract_uint64 (commandArgsPlusMatch Plusargs.max_cycles)
       Plusargs.max_cycles 0).

(** [iperiod] is a [uint64_t]: the reduction leaves every value of
    the type as it is. *)
Definition iperiod : Z := period_to_uint64 (arg_period main_args) mod UINT64_MOD.
Definition duration0 : Z := iperiod / 2.
Definition duration1 : Z := (iperiod - duration0) mod UINT64_MOD.

(** [main]: its return value and what it did, or [None] when the
    simulation loop has not ended within [fuel] turns. *)
Definition main (fuel : nat) : option (Z * list tb_event) :=
  let a := main_args in
  let '(barrier, t_open) :=
    match arg_barrier_uri a with
    | [] => (None, [])
    | _ :: _ =>
        barrier_open env (String.string_of_list_ascii (arg_barrier_uri a))
          (negb (arg_barrier_leader a =? 0))
          (to_uint32 (arg_barrier_procs a))
    end in
  match arg_barrier_uri a, barrier with
  | _ :: _, None => Some (1, map TbSys t_open ++ [TbStderr])
  | _, _ =>
      match sim_loop fuel finish wait_returns (arg_max_cycles a)
              duration0 duration1 barrier 0 0 with
      | None => None
      | Some (cycle, barrier', t) =>
          Some (0,
                map TbSys t_open
                ++ (match barrier with Some _ => [TbStdout] | None => [] end)
                ++ [TbEval 0; TbStartDelay]
                ++ t
                ++ map TbSys (barrier_close barrier')
                ++ [TbFinal; TbStdout])
      end
  end.
End TestbenchSync.

(** The simulated time a run advances by, the completed calls of
    [barrier_wait], the rising clock edges, the evaluations of the
    model, and the system calls. *)
Definition time_advance (t : list tb_event) : Z :=
  fold_right (fun e acc => match e with TbTimeInc d => d + acc | _ => acc end) 0 t.

Definition barrier_waits (t : list tb_event) : nat :=
  length (filter (fun e => match e with TbBarrierWait => true | _ => false end) t).

Definition rising_edges (t : list tb_event) : nat :=
  length (filter (fun e => match e with TbEval 1 => true | _ => false end) t).

Definition evals (t : list tb_event) : nat :=
  length (filter (fun e => match e with TbEval _ => true | _ => false end) t).

Definition sys_calls (t : list tb_event) : list sys_event :=
  flat_map (fun e => match e with TbSys c => [c] | _ => [] end) t.

(* ================================================================== *)
(** ** Concrete sessions and command lines *)
(* ================================================================== *)

(** Two processes arrive and spin, in a session that expects three. *)
Definition two_of_three_arrive : list nat :=
  [0; 0; 0; 0; 1; 1; 1; 1; 0; 1]%nat.


(** A leader and a follower at rest, announced as three processes. *)
Definition resize_session : system :=
  mk_system (mk_shared 0 0 3 0 1)
    ([] ++ mk_proc (opened_handle 0 None 3 true) None []
        :: [mk_proc (opened_handle 0 None 4 false) None []]).

(** A command line with [+barrier_uri=b +barrier_leader=1 +max_cycles=3
    +period=7], which leaves [barrier_procs] at its default: a session
    of two, this process being the leader; and the stream extractions
    on these values. *)
Module CommandLine.
Import Ascii String.
Definition uri_arg : text := list_ascii_of_string "+barrier_uri=b".
Definition leader_arg : text := list_ascii_of_string "+barrier_leader=1".
Definition cycles_arg : text := list_ascii_of_string "+max_cycles=3".
Definition period_arg : text := list_ascii_of_string "+period=7".
Definition one : text := list_ascii_of_string "1".
Definition three : text := list_ascii_of_string "3".
Definition seven : text := list_ascii_of_string "7".
End CommandLine.

Definition plusargs_of (argv : list text) (name : text) : option text :=
  find (fun a => text_eqb (firstn (S (length name)) a) ([Plusargs.plus] ++ name))
       argv.

Definition read_digit (value : text) (result : Z) : Z :=
  if text_eqb value CommandLine.one then 1
  else if text_eqb value CommandLine.three then 3
  else if text_eqb value CommandLine.seven then 7
  else result.

Definition synchronized_run : list text :=
  [CommandLine.uri_arg; CommandLine.leader_arg; CommandLine.cycles_arg;
   CommandLine.period_arg].

(** [main] on that command line, with a period of 10 by default, a
    system in which every call succeeds at once, a model that never
    finishes by itself, and the other process arriving at the barrier
    in turn [k] when [partner k] is true. *)
Definition session_main (partner : nat -> bool) (fuel : nat)
  : option (Z * list tb_event) :=
  main 10 read_digit read_digit read_digit (fun p : Z => p)
       (plusargs_of synchronized_run) env_ok (fun _ => false) partner fuel.

(** The other process arrives every time. *)
Definition synchronized_main (fuel : nat) : option (Z * list tb_event) :=
  session_main (fun _ => true) fuel.

(** The other process stops arriving after the first turn. *)
Definition deserted_main (fuel : nat) : option (Z * list tb_event) :=
  session_main (fun k => Nat.eqb k 0) fuel.

Definition synchronized_trace : list tb_event :=
  match synchronized_main 4 with
  | Some (_, t) => t
  | None => []
  end.


(** *** Handles opened in time *)

(** The leader alone, announcing two; the follower opens the barrier
    and both go through episode 1. *)
Definition join_then_episode : list command :=
  Join 0 4 :: map Go two_process_episode.


(** The leader alone, announcing three; one follower opens the barrier,
    and the two arrive and spin. *)
Definition join_then_two_arrive : list command :=
  Join 0 4 :: map Go two_of_three_arrive.
(* ================================================================== *)
(** ** Basic facts *)
(* ================================================================== *)

Lemma count_app : forall f l1 l2,
  count f (l1 ++ l2) = (count f l1 + count f l2)%nat.
Proof.
  intros f l1 l2. unfold count. rewrite map_app, list_sum_app. reflexivity.
Qed.

Lemma count_cons : forall f p l, count f (p :: l) = (f p + count f l)%nat.
Proof. reflexivity. Qed.

Lemma count_mid : forall f l1 p l2,
  count f (l1 ++ p :: l2) = (count f l1 + f p + count f l2)%nat.
Proof. intros. rewrite count_app, count_cons. lia. Qed.

(** A process is at one program point at a time. *)
Lemma class_bound : forall sn l,
  (count (waiting_ind sn) l + count reset_ind l + count mid_ind l
   + count release_ind l <= length l)%nat.
Proof.
  intros sn l. induction l as [|p l IH]; [cbn; lia|].
  rewrite !count_cons. cbn [length].
  assert (waiting_ind sn p + reset_ind p + mid_ind p + release_ind p <= 1)%nat.
  { unfold waiting_ind, reset_ind, mid_ind, release_ind.
    destruct (pc p) as [[]|]; try lia.
    destruct (_ =? _); lia. }
  lia.
Qed.

Lemma waiting_all : forall sn l,
  count (waiting_ind sn) l = length l ->
  Forall (fun p => waiting_ind sn p = 1%nat) l.
Proof.
  intros sn l. induction l as [|p l IH]; intros H; [constructor|].
  rewrite count_cons in H. cbn [length] in H.
  pose proof (class_bound sn l) as Hb.
  assert (Hp : (waiting_ind sn p <= 1)%nat).
  { unfold waiting_ind. destruct (pc p) as [[]|]; try lia.
    destruct (_ =? _); lia. }
  constructor; [lia | apply IH; lia].
Qed.

Lemma parked_count : forall f l,
  (forall p, pc p = None -> f p = 0%nat) ->
  Forall parked l -> count f l = 0%nat.
Proof.
  intros f l Hf H. induction H as [|p l Hp _ IH]; [reflexivity|].
  rewrite count_cons, IH, (Hf p Hp). reflexivity.
Qed.

Lemma parity_succ : forall E : nat,
  Z.of_nat (S E) mod 2 = 1 - Z.of_nat E mod 2.
Proof.
  intros E. rewrite Nat2Z.inj_succ. unfold Z.succ.
  Z.div_mod_to_equations. lia.
Qed.

Lemma parity_range : forall E : nat, 0 <= Z.of_nat E mod 2 <= 1.
Proof. intros E. Z.div_mod_to_equations. lia. Qed.

Lemma episode_values_S : forall k,
  episode_values (S k) = episode_values k ++ [Z.of_nat (S k) mod UINT64_MOD].
Proof.
  intros k. unfold episode_values. rewrite seq_S, map_app. reflexivity.
Qed.

Lemma uint32_mod_pos : 0 < UINT32_MOD.
Proof. reflexivity. Qed.

Lemma uint64_mod_pos : 0 < UINT64_MOD.
Proof. reflexivity. Qed.

(** The state [barrier_init_shared] leaves behind. *)
Lemma barrier_init_shared_state : forall num s0,
  state_of (barrier_init_shared num s0) = mk_shared 0 0 num 0 1.
Proof. intros num [c b n s i]. reflexivity. Qed.

Lemma initial_inv : forall s, initial s -> barrier_inv 0 s.
Proof.
  intros [sh ps] (s0 & num & Hsh & Hnum & Hlen & Hfresh).
  cbn [shared procs] in *. rewrite barrier_init_shared_state in Hsh. subst sh.
  assert (Hpark : Forall parked ps).
  { eapply Forall_impl; [|exact Hfresh]. intros p (Hp & _). exact Hp. }
  assert (Hr : count reset_ind ps = 0%nat).
  { apply parked_count; [|exact Hpark]. intros p Hp. unfold reset_ind. now rewrite Hp. }
  assert (Hm : count mid_ind ps = 0%nat).
  { apply parked_count; [|exact Hpark]. intros p Hp. unfold mid_ind. now rewrite Hp. }
  assert (Hl : count release_ind ps = 0%nat).
  { apply parked_count; [|exact Hpark]. intros p Hp. unfold release_ind. now rewrite Hp. }
  assert (Hw : count (waiting_ind 0) ps = 0%nat).
  { apply parked_count; [|exact Hpark]. intros p Hp. unfold waiting_ind. now rewrite Hp. }
  constructor; cbn [shared procs sense num_processes barrier_count cycle_count];
    rewrite ?Hr, ?Hm, ?Hl, ?Hw; try reflexivity; try lia.
  - unfold shared_wf, UINT64_MOD, UINT32_MOD in *. cbn. lia.
  - eapply Forall_impl; [|exact Hfresh].
    intros p (Hp & Hret & addr & nm & f & ld & Hh).
    unfold proc_inv. rewrite Hp, Hret, Hh. cbn. repeat split; congruence.
Qed.
Ltac ind_simpl :=
  cbn [reset_ind mid_ind release_ind waiting_ind pc handle returned
       shared procs] in *.

Ltac fields :=
  cbn [sense num_processes barrier_count cycle_count initialized
       get_field set_field field_modulus fst snd] in *.

Ltac rebuild :=
  constructor; cbn [shared procs];
  rewrite ?count_mid, ?length_app; cbn [length]; ind_simpl; fields.

Ltac procs_goal :=
  apply Forall_app; split;
  [ assumption
  | constructor;
    [ unfold proc_inv; cbn [pc handle returned pc_inv]
    | assumption ] ].

Ltac wf_goal :=
  match goal with
  | H : shared_wf _ |- shared_wf _ =>
      unfold shared_wf in *; fields;
      repeat match goal with
      | |- context [?a mod UINT64_MOD] =>
          pose proof (Z.mod_pos_bound a UINT64_MOD uint64_mod_pos);
          generalize dependent (a mod UINT64_MOD); intros
      end;
      pose proof uint32_mod_pos; pose proof uint64_mod_pos; lia
  end.

Ltac inv_open Hinv sh l1 l2 :=
  let Hps := fresh "Hps" in
  destruct Hinv as [Hwf Hsn Hsz Hps Hone Hall Hcr Hcm Hcw Hcy];
  cbn [shared procs] in *;
  rewrite ?count_mid, ?length_app in *; cbn [length] in *;
  apply Forall_app in Hps as [Hp1 Hps];
  inversion Hps as [|? ? Hp Hp2]; subst;
  pose proof (class_bound (sense sh) l1) as Hb1;
  pose proof (class_bound (sense sh) l2) as Hb2;
  destruct Hp as (Hshm & Hret & Hpc);
  cbn [pc handle returned pc_inv] in *.

(** Once the sense flips, a process that was spinning for the flip is a
    released one. *)
Lemma released_proc : forall E N q,
  proc_inv E (Z.of_nat E mod 2) N q ->
  waiting_ind (Z.of_nat E mod 2) q = 1%nat ->
  proc_inv (S E) (Z.of_nat (S E) mod 2) N q /\
  waiting_ind (Z.of_nat (S E) mod 2) q = 0%nat.
Proof.
  intros E N q (Hshm & Hret & Hpc) Hw. rewrite parity_succ.
  unfold proc_inv, waiting_ind in *.
  destruct (pc q) as [[]|]; try discriminate.
  cbn [pc_inv] in *.
  destruct (Z.eqb_spec my_sense (Z.of_nat E mod 2)); [discriminate|].
  destruct Hpc as (Hls & [(Hms & Hk) | (Hms & Hk)]); [|contradiction].
  rewrite Hms, Z.eqb_refl. repeat split; auto; try congruence; lia.
Qed.

Lemma released_all : forall E N l,
  Forall (proc_inv E (Z.of_nat E mod 2) N) l ->
  count (waiting_ind (Z.of_nat E mod 2)) l = length l ->
  Forall (proc_inv (S E) (Z.of_nat (S E) mod 2) N) l /\
  count (waiting_ind (Z.of_nat (S E) mod 2)) l = 0%nat.
Proof.
  intros E N l Hl Hc. apply waiting_all in Hc.
  induction Hl as [|q l Hq Hl IH]; [split; [constructor|reflexivity]|].
  inversion Hc as [|? ? Hwq Hwl]; subst.
  destruct (released_proc Hq Hwq) as (Hq' & Hw').
  destruct (IH Hwl) as (Hl' & Hc').
  split; [constructor; assumption|].
  rewrite count_cons, Hw', Hc'. reflexivity.
Qed.

Lemma wait_step_inv : forall E sh l1 h c r l2 b' c' sh' t,
  barrier_inv E (mk_system sh (l1 ++ mk_proc h (Some c) r :: l2)) ->
  (forall v, c <> PC_done v) ->
  wait_step h c sh = ((b', c'), sh', t) ->
  barrier_inv (E + releases t)
    (mk_system sh' (l1 ++ mk_proc b' (Some c') r :: l2)) /\
  (increments t + count release_ind (l1 ++ mk_proc h (Some c) r :: l2)
   = count release_ind (l1 ++ mk_proc b' (Some c') r :: l2) + releases t)%nat.
Proof.
  intros E sh l1 h c r l2 b' c' sh' t Hinv Hnd Hstep.
  rewrite !count_mid.
  inv_open Hinv sh l1 l2.
  assert (Hpar := parity_range E).
  destruct c; try (exfalso; eapply Hnd; reflexivity);
    cbv [wait_step abind aret atomic_load_n atomic_add_fetch atomic_store_n
         atomic_thread_fence cpu_pause local_op] in Hstep; ind_simpl; fields.
  - (* load num_processes *)
    inversion Hstep; subst b' c' sh' t; clear Hstep.
    split; [replace (E + releases _)%nat with E by (cbn; lia) | cbn; ind_simpl; lia]. rebuild; try assumption; try lia.
    procs_goal. tauto.
  - (* arrive *)
    destruct Hpc as (-> & Hms & Hls & Hk).
    assert (Hbc : barrier_count sh
                  = Z.of_nat (count (waiting_ind (sense sh)) l1 + 0
                              + count (waiting_ind (sense sh)) l2))
      by (apply Hcw; lia).
    assert (Hsmall : (barrier_count sh + 1) mod UINT32_MOD = barrier_count sh + 1).
    { apply Z.mod_small. destruct Hwf as (_ & _ & Hn & _). lia. }
    rewrite Hsmall in Hstep.
    destruct (barrier_count sh + 1 =? num_processes sh) eqn:Heq;
      inversion Hstep; subst b' c' sh' t; clear Hstep;
      [apply Z.eqb_eq in Heq | apply Z.eqb_neq in Heq].
    + split; [replace (E + releases _)%nat with E by (cbn; lia) | cbn; ind_simpl; lia]. rebuild; try assumption; try lia.
      * wf_goal.
      * procs_goal. tauto.
    + split; [replace (E + releases _)%nat with E by (cbn; lia) | cbn; ind_simpl; lia]. rebuild;
        destruct (Z.eqb_spec my_sense (sense sh)); try assumption; try lia.
      * wf_goal.
      * procs_goal. tauto.
  - (* reset *)
    inversion Hstep; subst b' c' sh' t; clear Hstep.
    split; [replace (E + releases _)%nat with E by (cbn; lia) | cbn; ind_simpl; lia]. rebuild; try assumption; try lia.
    + wf_goal.
    + procs_goal. tauto.
  - (* fence *)
    inversion Hstep; subst b' c' sh' t; clear Hstep.
    split; [replace (E + releases _)%nat with E by (cbn; lia) | cbn; ind_simpl; lia]. rebuild; try assumption; try lia.
    procs_goal. tauto.
  - (* inc cycle *)
    inversion Hstep; subst b' c' sh' t; clear Hstep.
    assert (Hr1 : count release_ind l1 = 0%nat) by lia.
    assert (Hr2 : count release_ind l2 = 0%nat) by lia.
    rewrite Hr1, Hr2 in *.
    split; [replace (E + releases _)%nat with E by (cbn; lia) | cbn; ind_simpl; lia]. rebuild; rewrite ?Hr1, ?Hr2; try assumption; try lia.
    + wf_goal.
    + procs_goal. tauto.
    + rewrite Hcy. cbn [Nat.add Z.of_nat]. rewrite Z.add_mod_idemp_l by (unfold UINT64_MOD; lia).
      f_equal. lia.
  - (* release *)
    inversion Hstep; subst b' c' sh' t; clear Hstep.
    destruct Hpc as (Hms & Hls & Hk).
    assert (Hw1 : count (waiting_ind (sense sh)) l1 = length l1) by lia.
    assert (Hw2 : count (waiting_ind (sense sh)) l2 = length l2) by lia.
    rewrite Hsn in Hp1, Hp2, Hw1, Hw2.
    destruct (released_all Hp1 Hw1) as (Hq1 & Hc1).
    destruct (released_all Hp2 Hw2) as (Hq2 & Hc2).
    assert (Hnew : my_sense = Z.of_nat (S E) mod 2)
      by (rewrite parity_succ; lia).
    rewrite Hnew.
    split; [replace (E + releases _)%nat with (S E) by (cbn; lia) | cbn; ind_simpl; lia].
    rebuild; rewrite ?Hc1, ?Hc2; try assumption; try lia.
    + wf_goal.
    + procs_goal. repeat split; try tauto; lia.
    + rewrite Hcy. f_equal. lia.
  - (* spin *)
    destruct Hpc as (Hls & Hcase).
    rewrite (Z.eqb_sym (sense sh) my_sense) in Hstep.
    destruct (Z.eqb_spec my_sense (sense sh)) as [Hms|Hms];
      inversion Hstep; subst b' c' sh' t; clear Hstep.
    + split; [replace (E + releases _)%nat with E by (cbn; lia) | cbn; ind_simpl; lia]. rebuild; try assumption; try lia.
      procs_goal. repeat split; try tauto; lia.
    + split; [replace (E + releases _)%nat with E by (cbn; lia) | cbn; ind_simpl; lia]. rebuild;
        destruct (Z.eqb_spec my_sense (sense sh)); try assumption; try lia.
      procs_goal. tauto.
  - (* fence after release *)
    inversion Hstep; subst b' c' sh' t; clear Hstep.
    split; [replace (E + releases _)%nat with E by (cbn; lia) | cbn; ind_simpl; lia]. rebuild; try assumption; try lia.
    procs_goal. tauto.
  - (* flip *)
    destruct Hpc as (Hls & Hms & Hk).
    set (v := (1 - my_sense) mod UINT32_MOD) in Hstep.
    assert (Hv : v = 1 - my_sense).
    { subst v. apply Z.mod_small. assert (1 < UINT32_MOD) by reflexivity. lia. }
    clearbody v.
    inversion Hstep; subst b' c' sh' t; clear Hstep.
    split; [replace (E + releases _)%nat with E by (cbn; lia) | cbn; ind_simpl; lia]. rebuild; try assumption; try lia.
    procs_goal.
    change (shm (set_local_sense h v)) with (shm h).
    change (local_sense (set_local_sense h v)) with v.
    repeat split; try tauto; lia.
  - (* load cycle *)
    inversion Hstep; subst b' c' sh' t; clear Hstep.
    split; [replace (E + releases _)%nat with E by (cbn; lia) | cbn; ind_simpl; lia]. rebuild; try assumption; try lia.
    procs_goal. repeat split; try tauto.
    rewrite Hcy. f_equal.
    assert (count release_ind l1 = 0%nat) by lia.
    assert (count release_ind l2 = 0%nat) by lia. lia.
Qed.

Lemma call_inv : forall E sh l1 h r l2,
  barrier_inv E (mk_system sh (l1 ++ mk_proc h None r :: l2)) ->
  barrier_inv E (mk_system sh (l1 ++ mk_proc h (Some PC_load_num) r :: l2)).
Proof.
  intros E sh l1 h r l2 Hinv. inv_open Hinv sh l1 l2.
  rebuild; try assumption; try lia.
  procs_goal. tauto.
Qed.

Lemma return_inv : forall E sh l1 h v r l2,
  barrier_inv E (mk_system sh (l1 ++ mk_proc h (Some (PC_done v)) r :: l2)) ->
  barrier_inv E (mk_system sh (l1 ++ mk_proc h None (r ++ [v]) :: l2)).
Proof.
  intros E sh l1 h v r l2 Hinv. inv_open Hinv sh l1 l2.
  destruct Hpc as (Hls & Hk & Hv).
  rebuild; try assumption; try lia.
  procs_goal. rewrite length_app. cbn [length].
  replace (length r + 1)%nat with (S (length r)) by lia.
  repeat split; try assumption.
  rewrite episode_values_S, Hk, <- Hv. f_equal. exact Hret.
Qed.

Lemma parked_proc_inv : forall E sn N N' q,
  parked q -> proc_inv E sn N q -> proc_inv E sn N' q.
Proof.
  intros E sn N N' q Hq (Hshm & Hret & Hpc).
  unfold proc_inv, parked in *. rewrite Hq in *. auto.
Qed.

Lemma set_num_inv : forall E sh ps num,
  barrier_inv E (mk_system sh ps) ->
  Forall parked ps ->
  Z.of_nat (length ps) <= num < UINT32_MOD ->
  barrier_inv E (mk_system (set_field F_num_processes num sh) ps).
Proof.
  intros E sh ps num [Hwf Hsn Hsz Hps Hone Hall Hcr Hcm Hcw Hcy] Hpark Hnum.
  cbn [shared procs] in *.
  assert (Hr : count reset_ind ps = 0%nat).
  { apply parked_count; [|exact Hpark]. intros p Hp. unfold reset_ind. now rewrite Hp. }
  assert (Hm : count mid_ind ps = 0%nat).
  { apply parked_count; [|exact Hpark]. intros p Hp. unfold mid_ind. now rewrite Hp. }
  assert (Hl : count release_ind ps = 0%nat).
  { apply parked_count; [|exact Hpark]. intros p Hp. unfold release_ind. now rewrite Hp. }
  rewrite Hr, Hm, Hl in *.
  constructor; cbn [shared procs]; fields; rewrite ?Hr, ?Hm, ?Hl;
    try assumption; try lia.
  - unfold shared_wf in *; fields. lia.
  - clear - Hps Hpark. induction Hps as [|q l Hq Hl IH]; [constructor|].
    inversion Hpark; subst.
    constructor; [eapply parked_proc_inv; eauto | auto].
Qed.

Lemma get_cycle_state : forall h m sh,
  barrier_get_cycle (Some h) = Some m -> state_of (m sh) = sh.
Proof.
  intros h m sh H. unfold barrier_get_cycle in H.
  destruct (shm h); inversion H; reflexivity.
Qed.

Lemma all_ready_state : forall h m sh,
  barrier_all_ready (Some h) = Some m -> state_of (m sh) = sh.
Proof.
  intros h m sh H. unfold barrier_all_ready in H.
  destruct (shm h); inversion H; reflexivity.
Qed.

Lemma get_num_state : forall h m sh,
  barrier_get_num_processes (Some h) = Some m -> state_of (m sh) = sh.
Proof.
  intros h m sh H. unfold barrier_get_num_processes in H.
  destruct (shm h); inversion H; reflexivity.
Qed.

Lemma set_num_state : forall h num m sh,
  barrier_set_num_processes (Some h) num = Some m ->
  state_of (m sh) = set_field F_num_processes num sh.
Proof.
  intros h num m sh H. unfold barrier_set_num_processes in H.
  destruct (shm h); [|discriminate].
  destruct (is_leader h); inversion H; reflexivity.
Qed.

Lemma step_inv : forall E s lbl s',
  barrier_inv E s -> sys_step s lbl s' ->
  barrier_inv (E + releases (wait_events lbl)) s' /\
  (increments (wait_events lbl) + count release_ind (procs s)
   = count release_ind (procs s') + releases (wait_events lbl))%nat.
Proof.
  intros E s lbl s' Hinv Hstep.
  destruct Hstep as
    [ sh l1 [h c0 r] l2 Hpc Hshm
    | sh l1 [h c0 r] l2 c b' c' sh' t Hpc Hnd Hw
    | sh l1 [h c0 r] l2 v Hpc
    | sh l1 p l2 m Hpc Hm
    | sh l1 p l2 m Hpc Hm
    | sh l1 p l2 m Hpc Hm
    | sh l1 p l2 num m Hpc Hm Hpark Hnum ];
    cbn [pc handle returned procs wait_events snd] in *; try subst c0.
  2: { eapply wait_step_inv; eassumption. }
  all: unfold releases, increments; cbn [map list_sum fold_right Nat.add];
    rewrite ?Nat.add_0_r, ?count_mid;
    (split; [| cbn [release_ind pc]; lia]).
  - now apply call_inv.
  - now apply return_inv.
  - now rewrite (@get_cycle_state (handle p) m sh Hm).
  - now rewrite (@all_ready_state (handle p) m sh Hm).
  - now rewrite (@get_num_state (handle p) m sh Hm).
  - rewrite (@set_num_state (handle p) num m sh Hm).
    now apply set_num_inv.
Qed.

Lemma episodes_snoc : forall tr lbl,
  episodes (tr ++ [lbl]) = (episodes tr + releases (wait_events lbl))%nat.
Proof.
  intros. unfold episodes. rewrite map_app, list_sum_app. cbn. lia.
Qed.

Lemma cycle_increments_snoc : forall tr lbl,
  cycle_increments (tr ++ [lbl])
  = (cycle_increments tr + increments (wait_events lbl))%nat.
Proof.
  intros. unfold cycle_increments. rewrite map_app, list_sum_app. cbn. lia.
Qed.

Lemma steps_inv : forall s tr s',
  sys_steps s tr s' ->
  forall E, barrier_inv E s ->
  barrier_inv (E + episodes tr) s' /\
  (cycle_increments tr + count release_ind (procs s)
   = count release_ind (procs s') + episodes tr)%nat.
Proof.
  intros s tr s' H. induction H as [s | s tr s1 lbl s2 H IH Hs]; intros E HE.
  - cbn. rewrite Nat.add_0_r. split; [assumption | lia].
  - destruct (IH E HE) as (H1 & Hc1).
    destruct (step_inv H1 Hs) as (H2 & Hc2).
    rewrite episodes_snoc, cycle_increments_snoc, Nat.add_assoc.
    split; [assumption | lia].
Qed.

(** In every state of a run that starts from a fresh session, the
    barrier invariant holds for the number of episodes released so far,
    and the cycle counter has been incremented once per episode, plus
    once more while a releaser is about to publish. *)
Lemma run_inv : forall s0 tr s,
  initial s0 -> sys_steps s0 tr s ->
  barrier_inv (episodes tr) s /\
  cycle_increments tr = (episodes tr + count release_ind (procs s))%nat.
Proof.
  intros s0 tr s Hinit Hsteps.
  destruct (steps_inv Hsteps (initial_inv Hinit)) as (HE & Hc).
  cbn [Nat.add] in HE. split; [assumption|].
  assert (H0 : count release_ind (procs s0) = 0%nat).
  { destruct Hinit as (_ & _ & _ & _ & _ & Hf).
    apply parked_count.
    - intros p Hp. unfold release_ind. now rewrite Hp.
    - eapply Forall_impl; [|exact Hf]. intros p (Hp & _). exact Hp. }
  lia.
Qed.

(* ================================================================== *)
(** ** Schedules are runs *)
(* ================================================================== *)

Lemma sys_steps_cons : forall s lbl s1 tr s2,
  sys_step s lbl s1 -> sys_steps s1 tr s2 -> sys_steps s (lbl :: tr) s2.
Proof.
  intros s lbl s1 tr s2 Hstep Hsteps.
  induction Hsteps as [s1 | s1 tr s2 lbl' s3 Hsteps IH Hlast].
  - apply (@steps_snoc s [] s lbl s1); [constructor | assumption].
  - change (lbl :: tr ++ [lbl']) with ((lbl :: tr) ++ [lbl']).
    eapply steps_snoc; [apply IH; assumption | eassumption].
Qed.

Lemma split_at : forall (l : list proc) i p,
  nth_error l i = Some p ->
  l = firstn i l ++ p :: skipn (S i) l /\ length (firstn i l) = i.
Proof.
  induction l as [|q l IH]; intros [|i] p H; try discriminate.
  - cbn in H. inversion H; subst. split; reflexivity.
  - cbn in H. destruct (IH i p H) as (Hl & Hlen).
    cbn [firstn skipn length app]. split; [f_equal; exact Hl | f_equal; exact Hlen].
Qed.

Lemma step_wait_fun : forall sh l1 p l2 c,
  pc p = Some c ->
  (forall v, c <> PC_done v) ->
  let r := wait_step (handle p) c sh in
  sys_step (mk_system sh (l1 ++ p :: l2))
           (length l1, OpWaitStep (trace_of r))
           (mk_system (state_of r)
              (l1 ++ mk_proc (fst (result_of r)) (Some (snd (result_of r)))
                       (returned p) :: l2)).
Proof.
  intros sh l1 p l2 c Hpc Hnd r. subst r.
  destruct (wait_step (handle p) c sh) as [[[b' c'] sh'] t] eqn:Hw.
  eapply step_wait; eassumption.
Qed.

Lemma exec_step_sound : forall i s s' lbl,
  exec_step i s = Some (s', lbl) -> sys_step s lbl s'.
Proof.
  intros i [sh ps] s' lbl H. unfold exec_step in H. cbn [procs shared] in H.
  destruct (nth_error ps i) as [p|] eqn:Hnth; [|discriminate].
  destruct (split_at _ _ Hnth) as (Hsplit & Hlen).
  remember (firstn i ps) as l1 eqn:E1. remember (skipn (S i) ps) as l2 eqn:E2.
  clear E1 E2 Hnth. subst ps i.
  destruct (pc p) as [c|] eqn:Hpc.
  - destruct c;
      try (injection H as <- <-;
           exact (@step_wait_fun sh l1 p l2 _ Hpc
                    ltac:(intros; discriminate))).
    injection H as <- <-. now apply step_return.
  - destruct (shm (handle p)) eqn:Hshm; [|discriminate].
    injection H as <- <-. apply step_call; [assumption | congruence].
Qed.

Lemma exec_sound : forall sched s s' tr,
  exec sched s = Some (s', tr) -> sys_steps s tr s'.
Proof.
  induction sched as [|i sched IH]; intros s s' tr H; cbn in H.
  - inversion H; subst. constructor.
  - destruct (exec_step i s) as [[s1 lbl]|] eqn:H1; [|discriminate].
    destruct (exec sched s1) as [[s2 tr']|] eqn:H2; [|discriminate].
    inversion H; subst.
    eapply sys_steps_cons; [eapply exec_step_sound; eassumption | now apply IH].
Qed.

Lemma run_of_sound : forall sched s,
  sys_steps s (snd (run_of sched s)) (fst (run_of sched s)).
Proof.
  intros sched s. unfold run_of.
  destruct (exec sched s) as [[s' tr]|] eqn:H.
  - cbn [fst snd]. eapply exec_sound. exact H.
  - constructor.
Qed.

Lemma fresh_session_initial : forall num n,
  Z.of_nat n <= num < UINT32_MOD -> initial (fresh_session num n).
Proof.
  intros num n Hn. exists (mk_shared 0 0 0 0 0), num.
  unfold fresh_session. cbn [shared procs].
  rewrite length_map, length_seq.
  repeat split; try reflexivity; try lia.
  apply Forall_forall. intros p Hp. apply in_map_iff in Hp as (i & <- & _).
  repeat split. now exists 0, None, (Z.of_nat i + 3), (Nat.eqb i 0).
Qed.

(* ================================================================== *)
(** ** The releasing branch of barrier_wait *)
(* ================================================================== *)

Lemma run_wait_unfold : forall fuel b c s,
  (forall v, c <> PC_done v) ->
  run_wait (S fuel) b c s
  = abind (wait_step b c) (fun r => run_wait fuel (fst r) (snd r)) s.
Proof.
  intros fuel b c s H. destruct c; try reflexivity.
  exfalso. eapply H. reflexivity.
Qed.

(** C1. A call whose increment of the arrival counter makes it equal to
    the count it captured takes the releasing branch, and then performs,
    in program order and whatever the shared memory holds by then: the
    store of 0 to [barrier_count], a fence, the increment of
    [cycle_count] by one (modulo 2^64), and last the store of the sense
    value it captured from its handle to [sense]. The reset therefore
    precedes the release store. Run alone, the call makes exactly the
    accesses of [releaser_trace]. *)
Theorem releaser_program_order : forall b s s0,
  (barrier_count s0 + 1) mod UINT32_MOD = num_processes s ->
  let my_sense := local_sense b in
  result_of (wait_step b PC_load_num s)
    = (b, PC_arrive (num_processes s) my_sense) /\
  result_of (wait_step b (PC_arrive (num_processes s) my_sense) s0)
    = (b, PC_reset my_sense) /\
  (forall s1,
      wait_step b (PC_reset my_sense) s1
      = ((b, PC_fence_rel my_sense), set_field F_barrier_count 0 s1,
         [EvStore F_barrier_count 0])) /\
  (forall s2,
      wait_step b (PC_fence_rel my_sense) s2
      = ((b, PC_inc_cycle my_sense), s2, [EvFence])) /\
  (forall s3,
      let c := (cycle_count s3 + 1) mod UINT64_MOD in
      wait_step b (PC_inc_cycle my_sense) s3
      = ((b, PC_release my_sense), set_field F_cycle_count c s3,
         [EvAddFetch F_cycle_count 1 c])) /\
  (forall s4,
      wait_step b (PC_release my_sense) s4
      = ((b, PC_fence my_sense), set_field F_sense my_sense s4,
         [EvStore F_sense my_sense])) /\
  (barrier_count s = barrier_count s0 ->
   trace_of (run_wait RELEASER_STEPS b PC_load_num s)
   = releaser_trace (num_processes s) (num_processes s)
       ((cycle_count s + 1) mod UINT64_MOD) my_sense).
Proof.
  intros b s s0 Harr my_sense.
  repeat split.
  - cbv [wait_step abind aret atomic_add_fetch result_of fst snd get_field
         field_modulus]. rewrite Harr, Z.eqb_refl. reflexivity.
  - intros Hbc. rewrite <- Hbc in Harr.
    unfold RELEASER_STEPS.
    rewrite run_wait_unfold by discriminate.
    unfold abind at 1. cbn [wait_step].
    unfold abind at 1, atomic_load_n at 1, aret at 1.
    cbn [fst snd get_field].
    rewrite run_wait_unfold by discriminate.
    unfold abind at 1. cbn [wait_step].
    unfold abind at 1, atomic_add_fetch at 1, aret at 1.
    cbn [fst snd get_field field_modulus]. rewrite Harr, Z.eqb_refl.
    destruct s as [c bc n sn i]. reflexivity.
Qed.

Lemma releaser_program_order_witness :
  (barrier_count (mk_shared 7 2 3 0 1) + 1) mod UINT32_MOD
  = num_processes (mk_shared 7 2 3 0 1) /\
  wait_step (opened_handle 4096 None 3 false) (PC_release 1)
            (mk_shared 8 0 3 0 1)
  = ((opened_handle 4096 None 3 false, PC_fence 1),
     mk_shared 8 0 3 1 1, [EvStore F_sense 1]).
Proof.
  split; [reflexivity|].
  apply (releaser_program_order (opened_handle 4096 None 3 false)
           (mk_shared 7 2 3 0 1) (mk_shared 7 2 3 0 1)).
  reflexivity.
Defined.

(* ================================================================== *)
(** ** The locally expected sense *)
(* ================================================================== *)

Lemma call_run_local_sense : forall b c b' v,
  call_run b c b' v ->
  local_sense b'
  = match c with
    | PC_load_num => (1 - local_sense b) mod UINT32_MOD
    | PC_arrive _ ms | PC_reset ms | PC_fence_rel ms | PC_inc_cycle ms
    | PC_release ms | PC_spin ms | PC_fence ms | PC_flip ms =>
        (1 - ms) mod UINT32_MOD
    | PC_load_cycle | PC_done _ => local_sense b
    end.
Proof.
  intros b c b' v H.
  induction H as [b v | b c s b1 c1 s1 t b2 v Hnd Hstep Hrun IH].
  - reflexivity.
  - destruct c; try (exfalso; eapply Hnd; reflexivity);
      cbv [wait_step abind aret atomic_load_n atomic_add_fetch atomic_store_n
           atomic_thread_fence cpu_pause local_op] in Hstep;
      try (injection Hstep as <- <- _ _; exact IH).
    + (* arrive *)
      destruct (_ =? _); injection Hstep as <- <- _ _; exact IH.
    + (* spin *)
      destruct (_ =? _); injection Hstep as <- <- _ _; exact IH.
Qed.

Lemma completes_flips : forall b b' v,
  completes b b' v -> local_sense b' = (1 - local_sense b) mod UINT32_MOD.
Proof. intros b b' v H. exact (call_run_local_sense H). Qed.

Lemma run_wait_call_run : forall fuel b c s b' v s' t,
  run_wait fuel b c s = (Some (b', v), s', t) -> call_run b c b' v.
Proof.
  induction fuel as [|fuel IH]; intros b c s b' v s' t H.
  - destruct c; cbn in H; try discriminate.
    injection H as <- <- _ _. constructor.
  - assert (Hstep : forall c0, (forall w, c0 <> PC_done w) -> c = c0 ->
              (r <- wait_step b c0;; run_wait fuel (fst r) (snd r)) s
              = (Some (b', v), s', t) -> call_run b c b' v).
    { intros c0 Hnd -> H0. unfold abind in H0.
      destruct (wait_step b c0 s) as [[[b1 c1] s1] t1] eqn:Hw.
      cbn [fst snd] in H0.
      destruct (run_wait fuel b1 c1 s1) as [[r s2] t2] eqn:Hr.
      injection H0 as -> <- _.
      eapply call_step; [exact Hnd | exact Hw | eapply IH; exact Hr]. }
    destruct c; try (eapply Hstep; [| reflexivity | exact H]; discriminate).
    cbn in H. injection H as <- <- _ _. constructor.
Qed.

(** C2. On a handle that [barrier_open] returned, after [k] completed
    calls of [barrier_wait] the locally expected sense is 1 for even
    [k] and 0 for odd [k]; every further completed call leaves it at
    one minus the value it had before the call. Nothing here depends on
    what the shared memory held during the calls, hence on whether the
    call was the releaser or a waiter. *)
Theorem local_sense_alternates : forall addr nm f leader k b,
  waits (opened_handle addr nm f leader) k b ->
  local_sense b = 1 - Z.of_nat k mod 2 /\
  (forall b' v, completes b b' v ->
     local_sense b' = 1 - local_sense b /\
     local_sense b' = 1 - Z.of_nat (S k) mod 2).
Proof.
  intros addr nm f leader k b H.
  assert (Hk : local_sense b = 1 - Z.of_nat k mod 2).
  { remember (opened_handle addr nm f leader) as b0 eqn:Hb0.
    induction H as [b | b k b1 b2 v Hw IH Hc].
    - subst b. reflexivity.
    - specialize (IH Hb0). rewrite (completes_flips Hc), IH, parity_succ.
      pose proof (parity_range k).
      apply Z.mod_small. assert (1 < UINT32_MOD) by reflexivity. lia. }
  split; [exact Hk|].
  intros b' v Hc. rewrite (completes_flips Hc), parity_succ, Hk.
  pose proof (parity_range k).
  rewrite Z.mod_small by (assert (1 < UINT32_MOD) by reflexivity; lia).
  split; lia.
Qed.

Lemma local_sense_alternates_witness :
  waits (opened_handle 4096 None 3 true) 1
        (set_local_sense (opened_handle 4096 None 3 true) 0) /\
  local_sense (set_local_sense (opened_handle 4096 None 3 true) 0)
  = 1 - Z.of_nat 1 mod 2.
Proof.
  assert (H : waits (opened_handle 4096 None 3 true) 1
                (set_local_sense (opened_handle 4096 None 3 true) 0)).
  { eapply waits_S; [apply waits_O|].
    apply (@run_wait_call_run RELEASER_STEPS _ _ (mk_shared 0 0 1 0 1) _ _
             (mk_shared 1 0 1 1 1) (releaser_trace 1 1 1 1)).
    reflexivity. }
  split; [exact H|].
  apply (local_sense_alternates H).
Defined.

(* ================================================================== *)
(** ** Initialization by the leader *)
(* ================================================================== *)

Lemma open_loop_break : forall env nm leader budget retries,
  0 <= fst (env_open env retries) ->
  open_loop env nm leader (S budget) retries
  = (Break (fst (env_open env retries)),
     [SysOpen nm leader (fst (env_open env retries))]).
Proof.
  intros env nm leader budget retries H. cbn [open_loop].
  destruct (env_open env retries) as [f e]. cbn [fst] in *.
  apply Z.leb_le in H. rewrite H. reflexivity.
Qed.

(** C4. On the leader path [barrier_open] fills in the mapping with
    exactly six accesses: the stores of 0 to [cycle_count], 0 to
    [barrier_count], the count to [num_processes], 0 to [sense], a
    fence, and the store of 1 to [initialized] last. Starting from a
    mapping whose [initialized] is 0, an observer of any prefix of these
    accesses who reads [initialized] as 1 sees all other fields in
    their initial values, and [initialized] is 0 after every proper
    prefix: it goes from 0 to 1 once. *)
Theorem leader_publishes_initialized_last : forall env nm num,
  initialized (env_shared env) = 0 ->
  env_memalign env = 0 ->
  0 <= fst (env_open env 0) ->
  0 <= env_ftruncate env ->
  env_mmap env <> None ->
  let t := barrier_init_shared num (env_shared env) in
  (exists b tr, barrier_open env nm true num = (Some b, tr) /\
                shared_accesses tr = trace_of t) /\
  trace_of t = [ EvStore F_cycle_count 0; EvStore F_barrier_count 0;
                 EvStore F_num_processes num; EvStore F_sense 0;
                 EvFence; EvStore F_initialized 1 ] /\
  state_of t = mk_shared 0 0 num 0 1 /\
  (forall n, (n < 6)%nat ->
     initialized (replay (firstn n (trace_of t)) (env_shared env)) = 0) /\
  (forall n,
     initialized (replay (firstn n (trace_of t)) (env_shared env)) = 1 ->
     replay (firstn n (trace_of t)) (env_shared env) = mk_shared 0 0 num 0 1).
Proof.
  intros env nm num Hinit Hmem Hopen Htrunc Hmap t.
  assert (Htr : trace_of t = [ EvStore F_cycle_count 0; EvStore F_barrier_count 0;
                 EvStore F_num_processes num; EvStore F_sense 0;
                 EvFence; EvStore F_initialized 1 ]) by reflexivity.
  assert (Hprefix : forall n, (n < 6)%nat ->
     initialized (replay (firstn n (trace_of t)) (env_shared env)) = 0).
  { intros n Hn. rewrite Htr.
    do 6 (destruct n as [|n]; [exact Hinit|]). lia. }
  split; [|split; [exact Htr | split; [apply barrier_init_shared_state | split; [exact Hprefix|]]]].
  - unfold barrier_open. rewrite Hmem. cbn [Z.eqb negb].
    change max_retries with (S (pred max_retries)).
    rewrite open_loop_break by exact Hopen.
    unfold size_phase.
    destruct (env_ftruncate env <? 0) eqn:Hlt; [apply Z.ltb_lt in Hlt; lia|].
    destruct (env_mmap env) as [p|]; [|congruence].
    cbn [init_phase]. eexists _, _. split; [reflexivity|].
    unfold shared_accesses. rewrite !flat_map_app. cbn [flat_map app].
    rewrite ?app_nil_r. reflexivity.
  - intros n Hn.
    destruct (Nat.lt_ge_cases n 6) as [Hlt|Hge].
    + rewrite (Hprefix n Hlt) in Hn. discriminate.
    + rewrite firstn_all2 by (rewrite Htr; cbn; lia).
      rewrite Htr. reflexivity.
Qed.

Lemma leader_publishes_initialized_last_witness :
  initialized (env_shared env_ok) = 0 /\
  exists b tr, barrier_open env_ok String.EmptyString true 3 = (Some b, tr) /\
               shared_accesses tr
               = trace_of (barrier_init_shared 3 (env_shared env_ok)).
Proof.
  split; [reflexivity|].
  apply (@leader_publishes_initialized_last env_ok String.EmptyString 3);
    (reflexivity || discriminate).
Defined.

(* ================================================================== *)
(** ** The handshake of barrier_open *)
(* ================================================================== *)

Lemma sleeps_app : forall t1 t2, sleeps (t1 ++ t2) = sleeps t1 ++ sleeps t2.
Proof. intros. unfold sleeps. apply flat_map_app. Qed.

Lemma open_loop_paced : forall env nm leader budget retries,
  paced 10000 budget (open_loop env nm leader budget retries).
Proof.
  intros env nm leader. unfold paced.
  induction budget as [|budget IH]; intros retries; cbn [open_loop].
  - cbn. repeat split; auto.
  - destruct (env_open env retries) as [f e].
    destruct (0 <=? f); [cbn; repeat split; auto; try lia; discriminate|].
    destruct (negb leader && (e =? ENOENT));
      [|cbn; repeat split; auto; try lia; discriminate].
    specialize (IH (S retries)).
    destruct (open_loop env nm leader budget (S retries)) as [x t].
    cbn [fst snd] in *. destruct IH as (H1 & H2 & H3).
    change (sleeps (SysOpen nm leader f :: SysUsleep 10000 :: t))
      with (10000 :: sleeps t).
    cbn [length repeat]. rewrite <- H1.
    repeat split; auto; try lia; try (intros Hx; rewrite (H3 Hx); reflexivity).
Qed.

Lemma size_loop_paced : forall env f budget retries,
  paced 10000 budget (size_loop env f budget retries).
Proof.
  intros env f. unfold paced.
  induction budget as [|budget IH]; intros retries; cbn [size_loop].
  - cbn. repeat split; auto.
  - destruct (env_fstat env retries) as [r size].
    destruct ((r =? 0) && (barrier_mapsize <=? size));
      [cbn; repeat split; auto; try lia; discriminate|].
    specialize (IH (S retries)).
    destruct (size_loop env f budget (S retries)) as [x t].
    cbn [fst snd] in *. destruct IH as (H1 & H2 & H3).
    change (sleeps (SysFstat f r size :: SysUsleep 10000 :: t))
      with (10000 :: sleeps t).
    cbn [length repeat]. rewrite <- H1.
    repeat split; auto; try lia; try (intros Hx; rewrite (H3 Hx); reflexivity).
Qed.

Lemma init_loop_paced : forall env budget retries,
  paced 1000 budget (init_loop env budget retries).
Proof.
  intros env. unfold paced.
  induction budget as [|budget IH]; intros retries; cbn [init_loop].
  - cbn. repeat split; auto.
  - destruct (env_initialized env retries =? 1);
      [cbn; repeat split; auto; try lia; discriminate|].
    specialize (IH (S retries)).
    destruct (init_loop env budget (S retries)) as [x t].
    cbn [fst snd] in *. destruct IH as (H1 & H2 & H3).
    change (sleeps (SysShared [EvLoad F_initialized (env_initialized env retries)]
                    :: SysUsleep 1000 :: t))
      with (1000 :: sleeps t).
    cbn [length repeat]. rewrite <- H1.
    repeat split; auto; try lia; try (intros Hx; rewrite (H3 Hx); reflexivity).
Qed.

(** The loops run out of budget when every check fails. *)
Lemma open_loop_exhausts : forall env nm budget retries,
  (forall k, (retries <= k < retries + budget)%nat ->
     fst (env_open env k) < 0 /\ snd (env_open env k) = ENOENT) ->
  fst (open_loop env nm false budget retries) = Exhausted.
Proof.
  intros env nm. induction budget as [|budget IH]; intros retries H;
    cbn [open_loop]; [reflexivity|].
  destruct (H retries ltac:(lia)) as (Hf & He).
  destruct (env_open env retries) as [f e]. cbn [fst snd] in *.
  destruct (Z.leb_spec 0 f); [lia|]. subst e. cbn.
  specialize (IH (S retries) ltac:(intros; apply H; lia)).
  destruct (open_loop env nm false budget (S retries)). exact IH.
Qed.

Lemma size_loop_exhausts : forall env f budget retries,
  (forall k, (retries <= k < retries + budget)%nat ->
     ~ (fst (env_fstat env k) = 0 /\ barrier_mapsize <= snd (env_fstat env k))) ->
  fst (size_loop env f budget retries) = Exhausted.
Proof.
  intros env f. induction budget as [|budget IH]; intros retries H;
    cbn [size_loop]; [reflexivity|].
  pose proof (H retries ltac:(lia)) as Hk.
  destruct (env_fstat env retries) as [r size]. cbn [fst snd] in *.
  destruct ((r =? 0) && (barrier_mapsize <=? size)) eqn:Hc.
  - apply andb_prop in Hc as (Hr & Hs).
    apply Z.eqb_eq in Hr. apply Z.leb_le in Hs. tauto.
  - specialize (IH (S retries) ltac:(intros; apply H; lia)).
    destruct (size_loop env f budget (S retries)). exact IH.
Qed.

Lemma init_loop_exhausts : forall env budget retries,
  (forall k, (retries <= k < retries + budget)%nat ->
     env_initialized env k <> 1) ->
  fst (init_loop env budget retries) = Exhausted.
Proof.
  intros env. induction budget as [|budget IH]; intros retries H;
    cbn [init_loop]; [reflexivity|].
  pose proof (H retries ltac:(lia)) as Hk.
  destruct (Z.eqb_spec (env_initialized env retries) 1); [contradiction|].
  specialize (IH (S retries) ltac:(intros; apply H; lia)).
  destruct (init_loop env budget (S retries)). exact IH.
Qed.

Lemma repeat_either : forall u n,
  u = 10000 \/ u = 1000 ->
  Forall (fun v => v = 10000 \/ v = 1000) (repeat u n).
Proof.
  intros u n Hu. induction n; cbn; constructor; auto.
Qed.

Ltac forall_app :=
  repeat match goal with
         | |- Forall _ (_ ++ _) => apply Forall_app; split
         end;
  auto.

Lemma open_err_sleeps : forall f a, sleeps (open_err f a) = [].
Proof. intros f a. unfold open_err. destruct (0 <=? f); reflexivity. Qed.

(** C6. A follower's [barrier_open] polls in three loops, each bounded
    by the retry budget of 1000 and sleeping a fixed time between two
    checks (10 ms while the file is missing or too small, 1 ms while it
    is not initialized). Whenever one of the three loops runs out of
    budget, [barrier_open] returns [NULL]; in all it sleeps at most
    three times the budget. *)
Theorem follower_polling_bounded : forall env nm num,
  let r := barrier_open env nm false num in
  (forall budget retries,
     paced 10000 budget (open_loop env nm false budget retries)) /\
  (forall f budget retries,
     paced 10000 budget (size_loop env f budget retries)) /\
  (forall budget retries,
     paced 1000 budget (init_loop env budget retries)) /\
  (length (sleeps (snd r)) <= 3 * max_retries)%nat /\
  Forall (fun u => u = 10000 \/ u = 1000) (sleeps (snd r)) /\
  ((forall k, (k < max_retries)%nat ->
      fst (env_open env k) < 0 /\ snd (env_open env k) = ENOENT) ->
   fst (open_loop env nm false max_retries 0) = Exhausted /\ fst r = None) /\
  (forall f t1,
     open_loop env nm false max_retries 0 = (Break f, t1) ->
     (forall k, (k < max_retries)%nat ->
        ~ (fst (env_fstat env k) = 0
           /\ barrier_mapsize <= snd (env_fstat env k))) ->
     fst (size_loop env f max_retries 0) = Exhausted /\ fst r = None) /\
  (forall f t1 t2,
     open_loop env nm false max_retries 0 = (Break f, t1) ->
     size_loop env f max_retries 0 = (Break tt, t2) ->
     (forall k, (k < max_retries)%nat -> env_initialized env k <> 1) ->
     fst (init_loop env max_retries 0) = Exhausted /\ fst r = None).
Proof.
  intros env nm num r.
  split; [intros; apply open_loop_paced|].
  split; [intros; apply size_loop_paced|].
  split; [intros; apply init_loop_paced|].
  assert (Hbound :
    (length (sleeps (snd r)) <= 3 * max_retries)%nat /\
    Forall (fun u => u = 10000 \/ u = 1000) (sleeps (snd r))).
  { subst r. unfold barrier_open.
    destruct (negb (env_memalign env =? 0)); [cbn; split; [lia | constructor]|].
    pose proof (open_loop_paced env nm false max_retries 0) as (Ho1 & Ho2 & _).
    destruct (open_loop env nm false max_retries 0) as [x1 t1].
    cbn [fst snd] in *.
    assert (Hf1 : Forall (fun u => u = 10000 \/ u = 1000) (sleeps t1))
      by (rewrite Ho1; apply repeat_either; auto).
    destruct x1 as [f| |];
      try (cbn [snd]; rewrite !sleeps_app, ?open_err_sleeps; cbn [sleeps flat_map app];
           rewrite ?app_nil_r; split; [lia | assumption]).
    unfold size_phase. cbn [negb].
    pose proof (size_loop_paced env f max_retries 0) as (Hs1 & Hs2 & _).
    destruct (size_loop env f max_retries 0) as [x2 t2].
    cbn [fst snd] in *.
    assert (Hf2 : Forall (fun u => u = 10000 \/ u = 1000) (sleeps t2))
      by (rewrite Hs1; apply repeat_either; auto).
    destruct x2 as [[]| |];
      try (cbn [snd]; rewrite !sleeps_app, ?open_err_sleeps; cbn [sleeps flat_map app];
           rewrite ?app_nil_r, ?length_app; split;
           [lia | forall_app]).
    destruct (env_mmap env) as [p|];
      try (cbn [snd]; rewrite !sleeps_app, ?open_err_sleeps; cbn [sleeps flat_map app];
           rewrite ?app_nil_r, ?length_app; split;
           [lia | forall_app]).
    unfold init_phase.
    pose proof (init_loop_paced env max_retries 0) as (Hi1 & Hi2 & _).
    destruct (init_loop env max_retries 0) as [x3 t3].
    cbn [fst snd] in *.
    assert (Hf3 : Forall (fun u => u = 10000 \/ u = 1000) (sleeps t3))
      by (rewrite Hi1; apply repeat_either; auto).
    destruct x3 as [[]| |];
      cbn [snd]; rewrite !sleeps_app, ?open_err_sleeps; cbn [sleeps flat_map app];
      rewrite ?app_nil_r, ?length_app; (split;
      [lia | forall_app]). }
  split; [apply Hbound|]. split; [apply Hbound|].
  split; [|split].
  - intros H.
    assert (Hx : fst (open_loop env nm false max_retries 0) = Exhausted)
      by (apply open_loop_exhausts; intros; apply H; lia).
    split; [exact Hx|]. subst r. unfold barrier_open.
    destruct (negb (env_memalign env =? 0)); [reflexivity|].
    destruct (open_loop env nm false max_retries 0) as [x1 t1].
    cbn [fst] in Hx. subst x1. reflexivity.
  - intros f t1 Ho H.
    assert (Hx : fst (size_loop env f max_retries 0) = Exhausted)
      by (apply size_loop_exhausts; intros; apply H; lia).
    split; [exact Hx|]. subst r. unfold barrier_open.
    destruct (negb (env_memalign env =? 0)); [reflexivity|].
    rewrite Ho. unfold size_phase.
    destruct (size_loop env f max_retries 0) as [x2 t2].
    cbn [fst] in Hx. subst x2. reflexivity.
  - intros f t1 t2 Ho Hs H.
    assert (Hx : fst (init_loop env max_retries 0) = Exhausted)
      by (apply init_loop_exhausts; intros; apply H; lia).
    split; [exact Hx|]. subst r. unfold barrier_open.
    destruct (negb (env_memalign env =? 0)); [reflexivity|].
    rewrite Ho. unfold size_phase. rewrite Hs.
    destruct (env_mmap env) as [p|]; [|reflexivity].
    unfold init_phase.
    destruct (init_loop env max_retries 0) as [x3 t3].
    cbn [fst] in Hx. subst x3. reflexivity.
Qed.

Lemma follower_polling_bounded_witness :
  (forall k, (k < max_retries)%nat ->
     fst (env_open env_no_file k) < 0 /\ snd (env_open env_no_file k) = ENOENT) /\
  fst (barrier_open env_no_file String.EmptyString false 3) = None.
Proof.
  assert (H : forall k, (k < max_retries)%nat ->
     fst (env_open env_no_file k) < 0 /\ snd (env_open env_no_file k) = ENOENT).
  { intros k _. split; reflexivity. }
  split; [exact H|].
  apply (follower_polling_bounded env_no_file String.EmptyString 3). exact H.
Defined.

(* ================================================================== *)
(** ** Resources on the failure paths of barrier_open *)
(* ================================================================== *)

(** C7. A follower whose file exists and is sized, but whose leader
    never sets [initialized], gets [NULL] after 1000 polls. The calls
    made on that path are the ones listed: the descriptor is closed and
    the handle freed, but there is no [munmap] and no [free] of the
    copied name, so the mapping and the name stay acquired. *)
Theorem open_init_timeout_leaks :
  let nm := String.EmptyString in
  let polls :=
    flat_map (fun _ : nat => [SysShared [EvLoad F_initialized 0]; SysUsleep 1000])
             (seq 0 max_retries) in
  let tr :=
    [ SysMemalign 0; SysOpen nm false 3; SysFstat 3 0 barrier_mapsize;
      SysMmap 3 barrier_mapsize (Some 4096); SysStrdup nm true ]
    ++ polls
    ++ [ SysStderr; SysClose 3; SysFree (Some HeapHandle) ] in
  barrier_open env_never_initialized nm false 3 = (None, tr) /\
  held_after tr = [ResMapping 4096; ResName].
Proof.
  split; vm_compute; reflexivity.
Qed.


(* ================================================================== *)
(** ** What barrier_open returns and what it leaves acquired *)
(* ================================================================== *)

Lemma held_from_app : forall live t1 t2,
  held_from live (t1 ++ t2) = held_from (held_from live t1) t2.
Proof. intros. unfold held_from. apply fold_left_app. Qed.

Lemma open_loop_held : forall env nm leader budget retries x t live,
  open_loop env nm leader budget retries = (x, t) ->
  match x with
  | Break f => 0 <= f /\ held_from live t = live ++ [ResFd f]
  | _ => held_from live t = live
  end.
Proof.
  intros env nm leader.
  induction budget as [|budget IH]; intros retries x t live H;
    cbn [open_loop] in H.
  - injection H as <- <-. reflexivity.
  - destruct (env_open env retries) as [f e].
    destruct (Z.leb_spec 0 f) as [Hf|Hf].
    + injection H as <- <-. split; [exact Hf|].
      cbn. apply Z.leb_le in Hf. rewrite Hf. reflexivity.
    + assert (Hneg : (0 <=? f) = false) by (apply Z.leb_gt; exact Hf).
      destruct (negb leader && (e =? ENOENT)).
      * destruct (open_loop env nm leader budget (S retries)) as [x' t'] eqn:Hl.
        injection H as <- <-.
        specialize (IH (S retries) x' t' live Hl).
        change (held_from live (SysOpen nm leader f :: SysUsleep 10000 :: t'))
          with (held_from
                  (fold_right drop
                     (fold_right drop (live ++ acquires (SysOpen nm leader f)) []
                      ++ []) []) t').
        cbn [acquires fold_right]. rewrite Hneg, !app_nil_r. exact IH.
      * injection H as <- <-. cbn. rewrite Hneg, !app_nil_r. reflexivity.
Qed.

Lemma size_loop_held : forall env f budget retries x t live,
  size_loop env f budget retries = (x, t) -> held_from live t = live.
Proof.
  intros env f.
  induction budget as [|budget IH]; intros retries x t live H;
    cbn [size_loop] in H.
  - injection H as <- <-. reflexivity.
  - destruct (env_fstat env retries) as [r size].
    destruct ((r =? 0) && (barrier_mapsize <=? size)).
    + injection H as <- <-. cbn. apply app_nil_r.
    + destruct (size_loop env f budget (S retries)) as [x' t'] eqn:Hl.
      injection H as <- <-.
      change (held_from live (SysFstat f r size :: SysUsleep 10000 :: t'))
        with (held_from ((live ++ []) ++ []) t').
      rewrite !app_nil_r. eapply IH. exact Hl.
Qed.

Lemma init_loop_held : forall env budget retries x t live,
  init_loop env budget retries = (x, t) -> held_from live t = live.
Proof.
  intros env.
  induction budget as [|budget IH]; intros retries x t live H;
    cbn [init_loop] in H.
  - injection H as <- <-. reflexivity.
  - destruct (env_initialized env retries =? 1).
    + injection H as <- <-. cbn. apply app_nil_r.
    + destruct (init_loop env budget (S retries)) as [x' t'] eqn:Hl.
      injection H as <- <-.
      change (held_from live
                (SysShared [EvLoad F_initialized (env_initialized env retries)]
                 :: SysUsleep 1000 :: t'))
        with (held_from ((live ++ []) ++ []) t').
      rewrite !app_nil_r. eapply IH. exact Hl.
Qed.

Lemma init_loop_not_failed : forall env budget retries,
  fst (init_loop env budget retries) <> Failed.
Proof.
  intros env. induction budget as [|budget IH]; intros retries;
    cbn [init_loop]; [discriminate|].
  destruct (_ =? 1); [discriminate|].
  specialize (IH (S retries)).
  destruct (init_loop env budget (S retries)). exact IH.
Qed.

(** The handle of a successful [barrier_open]: mapped, with the
    descriptor, expecting sense 1, owning the mapping, and holding a
    copy of the name unless [strdup] failed. *)
Lemma barrier_open_handle : forall env nm leader num h tr,
  barrier_open env nm leader num = (Some h, tr) ->
  exists p,
    h = opened_handle p (if env_strdup env then Some nm else None) (fd h) leader
    /\ env_mmap env = Some p /\ 0 <= fd h.
Proof.
  intros env nm leader num h tr H. unfold barrier_open in H.
  destruct (negb (env_memalign env =? 0)); [discriminate|].
  destruct (open_loop env nm leader max_retries 0) as [[f| |] t1] eqn:Ho;
    try discriminate.
  pose proof (open_loop_held _ _ _ _ _ [] Ho) as (Hf & _).
  destruct (size_phase env leader f) as [[[]| |] t2]; try discriminate.
  destruct (env_mmap env) as [p|]; [|discriminate].
  destruct (init_phase env leader num) as [[[]| |] t4]; try discriminate.
  injection H as <- _. exists p. repeat split. exact Hf.
Qed.

(** X10. Every failure of [barrier_open] but one returns with nothing
    acquired; the exception is a follower's timeout on [initialized],
    which returns with the mapping, and the copy of the name if there is
    one, still acquired. *)
Lemma open_failure_held : forall env nm leader num tr,
  barrier_open env nm leader num = (None, tr) ->
  held_after tr = []
  \/ (exists p,
        leader = false /\ env_mmap env = Some p /\
        fst (init_loop env max_retries 0) = Exhausted /\
        held_after tr
        = ResMapping p :: (if env_strdup env then [ResName] else [])).
Proof.
  intros env nm leader num tr H. unfold barrier_open in H.
  destruct (Z.eqb_spec (env_memalign env) 0) as [Hm|Hm]; cbn [negb] in H.
  2: { injection H as <-. left. unfold held_after. cbn.
       destruct (env_memalign env); try reflexivity. contradiction. }
  rewrite Hm in H.
  assert (Hclose : forall f rest,
            0 <= f ->
            (forall r, In r rest -> r = ResName \/ exists p, r = ResMapping p) ->
            held_from ([ResHandle; ResFd f] ++ rest) (open_err f true) = rest).
  { intros f rest Hf Hrest. unfold open_err.
    apply Z.leb_le in Hf. rewrite Hf. unfold held_from.
    cbn [app fold_left frees acquires fold_right].
    rewrite !app_nil_r. unfold drop. cbn [filter resource_eqb negb].
    rewrite Z.eqb_refl. cbn [negb filter resource_eqb].
    induction rest as [|r rest IH]; [reflexivity|].
    destruct (Hrest r (or_introl eq_refl)) as [-> | (p & ->)];
      cbn [filter resource_eqb negb];
      (rewrite IH; [reflexivity | intros; apply Hrest; now right]). }
  destruct (open_loop env nm leader max_retries 0) as [x1 t1] eqn:Ho.
  pose proof (open_loop_held _ _ _ _ _ [ResHandle] Ho) as Hh1.
  destruct x1 as [f| |].
  - destruct Hh1 as (Hf & Hh1).
    destruct (size_phase env leader f) as [x2 t2] eqn:Hs.
    assert (Hh2 : held_from [ResHandle; ResFd f] t2 = [ResHandle; ResFd f]).
    { unfold size_phase in Hs. destruct leader.
      - destruct (env_ftruncate env <? 0); injection Hs as _ <-; reflexivity.
      - destruct (size_loop env f max_retries 0) as [y t] eqn:Hl.
        pose proof (size_loop_held _ _ _ _ [ResHandle; ResFd f] Hl) as Hy.
        destruct y; injection Hs as _ <-; try exact Hy.
        rewrite held_from_app, Hy. reflexivity. }
    assert (Hpre : forall t,
              held_from [] ([SysMemalign 0] ++ t1 ++ t2 ++ t)
              = held_from [ResHandle; ResFd f] t).
    { intros t. rewrite !held_from_app.
      change (held_from [] [SysMemalign 0]) with [ResHandle].
      rewrite Hh1. cbn [app]. rewrite Hh2. reflexivity. }
    destruct x2 as [[]| |].
    + destruct (env_mmap env) as [p|].
      * destruct (init_phase env leader num) as [x4 t4] eqn:Hi.
        assert (Hh4 : forall live, held_from live t4 = live).
        { intros live. unfold init_phase in Hi. destruct leader.
          - injection Hi as _ <-. cbn. apply app_nil_r.
          - destruct (init_loop env max_retries 0) as [y t] eqn:Hl.
            pose proof (init_loop_held _ _ _ live Hl) as Hy.
            destruct y; injection Hi as _ <-; try exact Hy.
            rewrite held_from_app, Hy. cbn. apply app_nil_r. }
        assert (Hx4 : x4 <> Break tt ->
                      leader = false /\
                      fst (init_loop env max_retries 0) = Exhausted).
        { intros Hne. unfold init_phase in Hi. destruct leader.
          - injection Hi as <- _. contradiction.
          - split; [reflexivity|].
            destruct (init_loop env max_retries 0) as [[[]| |] t] eqn:Hl;
              injection Hi as <- _; try reflexivity; try contradiction.
            exfalso. apply (init_loop_not_failed env max_retries 0).
            rewrite Hl. reflexivity. }
        assert (Hleak : held_after ([SysMemalign 0] ++ t1 ++ t2
                          ++ [SysMmap f barrier_mapsize (Some p);
                              SysStrdup nm (env_strdup env)]
                          ++ t4 ++ open_err f true)
                        = ResMapping p
                          :: (if env_strdup env then [ResName] else [])).
        { unfold held_after. rewrite (Hpre _), !held_from_app.
          replace (held_from [ResHandle; ResFd f]
                     [SysMmap f barrier_mapsize (Some p);
                      SysStrdup nm (env_strdup env)])
            with ([ResHandle; ResFd f]
                  ++ ResMapping p :: (if env_strdup env then [ResName] else []))
            by (destruct (env_strdup env); reflexivity).
          rewrite Hh4. apply Hclose; [exact Hf|].
          intros r [<-|Hr]; [right; eexists; reflexivity|].
          destruct (env_strdup env); [|destruct Hr].
          destruct Hr as [<-|[]]. now left. }
        destruct x4 as [[]| |]; try discriminate;
          injection H as <-; right; exists p;
          (destruct Hx4 as (Hl & Hx); [discriminate|]);
          (split; [exact Hl|]); (split; [reflexivity|]); (split; [exact Hx|]);
          exact Hleak.
      * injection H as <-. left.
        change (held_from []
                  ([SysMemalign 0] ++ t1 ++ t2
                   ++ [SysMmap f barrier_mapsize None; SysStderr]
                   ++ open_err f true) = []).
        rewrite (Hpre _), held_from_app.
        change (held_from [ResHandle; ResFd f]
                  [SysMmap f barrier_mapsize None; SysStderr])
          with ([ResHandle; ResFd f] ++ []).
        apply Hclose; [exact Hf | intros r []].
    + injection H as <-. left.
      change (held_from [] ([SysMemalign 0] ++ t1 ++ t2 ++ open_err f true) = []).
      rewrite (Hpre _).
      change [ResHandle; ResFd f] with ([ResHandle; ResFd f] ++ []).
      apply Hclose; [exact Hf | intros r []].
    + injection H as <-. left.
      change (held_from [] ([SysMemalign 0] ++ t1 ++ t2 ++ open_err f true) = []).
      rewrite (Hpre _).
      change [ResHandle; ResFd f] with ([ResHandle; ResFd f] ++ []).
      apply Hclose; [exact Hf | intros r []].
  - injection H as <-. left.
    change (held_from []
              ([SysMemalign 0] ++ t1 ++ [SysStderr] ++ open_err (-1) true) = []).
    rewrite !held_from_app.
    change (held_from [] [SysMemalign 0]) with [ResHandle].
    rewrite Hh1. reflexivity.
  - injection H as <-. left.
    change (held_from [] ([SysMemalign 0] ++ t1 ++ open_err (-1) true) = []).
    rewrite !held_from_app.
    change (held_from [] [SysMemalign 0]) with [ResHandle].
    rewrite Hh1. reflexivity.
Qed.

(* ================================================================== *)
(** ** barrier_close *)
(* ================================================================== *)

(** Every handle [barrier_open] returns is valid; it has a copy of the
    name exactly when [strdup] succeeded. *)
Lemma barrier_open_valid : forall env nm leader num h tr,
  barrier_open env nm leader num = (Some h, tr) ->
  valid_handle h /\ is_leader h = leader /\ unmap_at_close h = true /\
  name h = (if env_strdup env then Some nm else None).
Proof.
  intros env nm leader num h tr H.
  destruct (barrier_open_handle _ _ _ _ H) as (p & Hh & _ & Hfd).
  unfold valid_handle. rewrite Hh at 1 3 4 5.
  cbn. repeat split; (discriminate || exact Hfd).
Qed.

(** C8. [barrier_close(NULL)] makes no call. On a valid handle (one
    with a mapping and an open descriptor, as [barrier_open] returns
    it) [barrier_close] unmaps the region exactly when [unmap_at_close]
    is set, closes the descriptor, and unlinks the file exactly when
    the handle is the leader's and holds a copy of the name: a
    follower's close unlinks nothing, and neither does the close of a
    leader's handle whose [name] is [NULL]. *)
Theorem barrier_close_effects :
  barrier_close None = [] /\
  forall h,
    valid_handle h ->
    let t := barrier_close (Some h) in
    ((exists p n, In (SysMunmap p n) t) <-> unmap_at_close h = true) /\
    (forall p, shm h = Some p -> unmap_at_close h = true ->
       In (SysMunmap p barrier_mapsize) t) /\
    In (SysClose (fd h)) t /\
    ((exists n, In (SysUnlink n) t)
     <-> is_leader h = true /\ name h <> None) /\
    (forall nm, In (SysUnlink nm) t
                <-> is_leader h = true /\ name h = Some nm).
Proof.
  split; [reflexivity|].
  intros h (Hshm & Hfd) t. subst t. unfold barrier_close.
  destruct (shm h) as [p|]; [clear Hshm | congruence].
  apply Z.leb_le in Hfd. rewrite Hfd.
  destruct (name h) as [nm|], (unmap_at_close h), (is_leader h); cbn;
    repeat split; intros;
    repeat match goal with
           | H : exists _, _ |- _ => destruct H
           | H : _ /\ _ |- _ => destruct H
           | H : _ \/ _ |- _ => destruct H
           | H : Some _ = Some _ |- _ => injection H as <-
           | H : SysUnlink _ = SysUnlink _ |- _ => injection H as <-
           end;
    try discriminate; try congruence; try tauto; eauto.
Qed.

Lemma barrier_close_effects_witness :
  valid_handle (opened_handle 4096 (Some String.EmptyString) 3 false) /\
  ~ (exists n,
       In (SysUnlink n)
          (barrier_close
             (Some (opened_handle 4096 (Some String.EmptyString) 3 false)))).
Proof.
  assert (Hv : valid_handle (opened_handle 4096 (Some String.EmptyString) 3 false)).
  { unfold valid_handle. cbn. split; [discriminate | lia]. }
  split; [exact Hv|].
  intros Hun.
  apply (proj2 barrier_close_effects _ Hv) in Hun.
  destruct Hun as (Hl & _). discriminate Hl.
Defined.

(** C8 as stated fails for a leader without its copy of the name: the
    leader opens the barrier while [strdup] finds no memory. [barrier_open] returns a handle all the
    same, a valid one and the leader's, with [name] at [NULL], and
    [barrier_close] on it unmaps and closes but leaves the file in
    place. *)
Lemma leader_close_without_name_keeps_file :
  fst (barrier_open env_strdup_fails String.EmptyString true 2)
  = Some nameless_leader /\
  valid_handle nameless_leader /\
  is_leader nameless_leader = true /\
  barrier_close (Some nameless_leader)
  = [SysMunmap 4096 barrier_mapsize; SysClose 3;
     SysFree None; SysFree (Some HeapHandle)] /\
  ~ (exists n, In (SysUnlink n) (barrier_close (Some nameless_leader))).
Proof.
  split; [vm_compute; reflexivity|].
  split; [unfold valid_handle; cbn; split; [discriminate | lia]|].
  split; [reflexivity|].
  split; [reflexivity|].
  intros (n & Hin). cbn in Hin.
  repeat (destruct Hin as [Hin|Hin]; [discriminate Hin|]). exact Hin.
Qed.

(* ================================================================== *)
(** ** The arrival counter *)
(* ================================================================== *)




(* ================================================================== *)
(** ** Episodes and the values barrier_wait returns *)
(* ================================================================== *)

Lemma nth_error_episode_values : forall k j v,
  nth_error (episode_values k) j = Some v ->
  v = Z.of_nat (S j) mod UINT64_MOD.
Proof.
  intros k j v H. unfold episode_values in H.
  rewrite nth_error_map in H.
  destruct (nth_error (seq 1 k) j) as [i|] eqn:Hi; [|discriminate].
  injection H as <-.
  assert (Hj : (j < k)%nat).
  { rewrite <- (length_seq k 1). apply nth_error_Some. rewrite Hi. discriminate. }
  assert (Hs : nth j (seq 1 k) 0%nat = i) by (apply nth_error_nth; exact Hi).
  rewrite seq_nth in Hs by exact Hj. subst i. reflexivity.
Qed.




(* ================================================================== *)
(** ** A session of one *)
(* ================================================================== *)

Lemma not_spinning_count : forall sn l,
  Forall not_spinning l -> count (waiting_ind sn) l = 0%nat.
Proof.
  intros sn l H. induction H as [|p l Hp _ IH]; [reflexivity|].
  rewrite count_cons, IH. unfold waiting_ind.
  destruct (pc p) as [[]|] eqn:Hpc; try reflexivity.
  exfalso. eapply Hp. exact Hpc.
Qed.

Lemma wait_step_num_processes : forall b c s r s' t,
  wait_step b c s = (r, s', t) -> num_processes s' = num_processes s.
Proof.
  intros b c s r s' t H.
  destruct c;
    cbv [wait_step abind aret atomic_load_n atomic_add_fetch atomic_store_n
         atomic_thread_fence cpu_pause local_op] in H;
    try (injection H as _ <- _; reflexivity).
  destruct (_ =? my_sense); injection H as _ <- _; reflexivity.
Qed.

(** With [num_processes] at 1 nobody ever gets into the spin loop: the
    only participant finds the arrival counter at 0 and is the
    releaser. *)
Lemma no_spin_step : forall E s lbl s',
  barrier_inv E s -> sys_step s lbl s' ->
  (num_processes (shared s) = 1 -> Forall not_spinning (procs s)) ->
  num_processes (shared s') = 1 -> Forall not_spinning (procs s').
Proof.
  intros E s lbl s' Hinv Hstep Hq Hn'.
  destruct Hstep as
    [ sh l1 [h c0 r] l2 Hpc Hshm
    | sh l1 [h c0 r] l2 c b' c' sh' t Hpc Hnd Hw
    | sh l1 [h c0 r] l2 v Hpc
    | sh l1 p l2 m Hpc Hm
    | sh l1 p l2 m Hpc Hm
    | sh l1 p l2 m Hpc Hm
    | sh l1 p l2 num m Hpc Hm Hpark Hnum ];
    cbn [pc handle returned shared procs] in *; try subst c0.
  - specialize (Hq Hn'). apply Forall_app in Hq as (H1 & H2).
    inversion H2; subst. apply Forall_app. split; [assumption|].
    constructor; [intros ms; discriminate | assumption].
  - rewrite (wait_step_num_processes _ _ _ Hw) in Hn'.
    specialize (Hq Hn'). apply Forall_app in Hq as (Hq1 & Hq2).
    inversion Hq2 as [|? ? Hqp Hq2']; subst.
    apply Forall_app. split; [assumption|].
    constructor; [|assumption].
    pose proof (not_spinning_count (sense sh) Hq1) as Hc1.
    pose proof (not_spinning_count (sense sh) Hq2') as Hc2.
    inv_open Hinv sh l1 l2.
    destruct c; try (exfalso; eapply Hnd; reflexivity);
      cbv [wait_step abind aret atomic_load_n atomic_add_fetch atomic_store_n
           atomic_thread_fence cpu_pause local_op] in Hw; ind_simpl; fields;
      try (injection Hw as _ <- _ _; intros ms; discriminate).
    + (* arrive *)
      destruct Hpc as (-> & Hms & Hls & Hk).
      assert (Hbc : barrier_count sh = 0) by (rewrite Hcw; lia).
      rewrite Hbc, Hn' in Hw. injection Hw as _ <- _ _.
      intros ms; discriminate.
    + (* spin *)
      exfalso. eapply Hqp. reflexivity.
  - specialize (Hq Hn'). apply Forall_app in Hq as (H1 & H2).
    inversion H2; subst. apply Forall_app. split; [assumption|].
    constructor; [intros ms; discriminate | assumption].
  - rewrite (@get_cycle_state (handle p) m sh Hm) in Hn'. auto.
  - rewrite (@all_ready_state (handle p) m sh Hm) in Hn'. auto.
  - rewrite (@get_num_state (handle p) m sh Hm) in Hn'. auto.
  - eapply Forall_impl; [|exact Hpark].
    intros q Hq' ms. unfold parked in Hq'. rewrite Hq'. discriminate.
Qed.

Lemma single_process_never_spins : forall s0 tr s,
  initial s0 -> sys_steps s0 tr s ->
  num_processes (shared s) = 1 -> Forall not_spinning (procs s).
Proof.
  intros s0 tr s Hinit Hsteps.
  induction Hsteps as [s0 | s0 tr s1 lbl s2 Hsteps IH Hstep].
  - intros _. destruct Hinit as (_ & _ & _ & _ & _ & Hf).
    eapply Forall_impl; [|exact Hf].
    intros p (Hp & _) ms. rewrite Hp. discriminate.
  - destruct (run_inv Hinit Hsteps) as (Hinv & _).
    eapply no_spin_step; [exact Hinv | exact Hstep | exact (IH Hinit)].
Qed.

Lemma parked_barrier_count : forall E s,
  barrier_inv E s -> Forall parked (procs s) -> barrier_count (shared s) = 0.
Proof.
  intros E s Hinv Hpark.
  assert (Hr : count reset_ind (procs s) = 0%nat).
  { apply parked_count; [|exact Hpark]. intros p Hp. unfold reset_ind. now rewrite Hp. }
  assert (Hm : count mid_ind (procs s) = 0%nat).
  { apply parked_count; [|exact Hpark]. intros p Hp. unfold mid_ind. now rewrite Hp. }
  assert (Hl : count release_ind (procs s) = 0%nat).
  { apply parked_count; [|exact Hpark]. intros p Hp. unfold release_ind. now rewrite Hp. }
  assert (Hw : count (waiting_ind (sense (shared s))) (procs s) = 0%nat).
  { apply parked_count; [|exact Hpark]. intros p Hp. unfold waiting_ind. now rewrite Hp. }
  rewrite (inv_count_wait Hinv) by lia. rewrite Hw. reflexivity.
Qed.

(* ================================================================== *)
(** ** A single process *)
(* ================================================================== *)

Lemma solo_wait_releaser : forall b s,
  shm b <> None ->
  num_processes s = 1 -> barrier_count s = 0 ->
  solo_wait b s
  = Some (set_local_sense b ((1 - local_sense b) mod UINT32_MOD),
          mk_shared ((cycle_count s + 1) mod UINT64_MOD) 0 1 (local_sense b)
                    (initialized s),
          (cycle_count s + 1) mod UINT64_MOD,
          releaser_trace 1 1 ((cycle_count s + 1) mod UINT64_MOD)
                         (local_sense b)).
Proof.
  intros b [c bc n sn i] Hshm Hn Hbc. cbn [num_processes barrier_count] in *.
  subst n bc. unfold solo_wait, barrier_wait.
  destruct (shm b); [reflexivity | contradiction].
Qed.

Lemma nth_solo_wait_SS : forall k b s,
  nth_solo_wait (S (S k)) b s
  = match solo_wait b s with
    | Some (b', s', _, _) => nth_solo_wait (S k) b' s'
    | None => None
    end.
Proof. reflexivity. Qed.

Lemma solo_wait_next : forall b j,
  shm b <> None ->
  solo_wait (solo_handle b j) (solo_shared j)
  = Some (solo_handle b (S j), solo_shared (S j),
          Z.of_nat (S j) mod UINT64_MOD,
          releaser_trace 1 1 (Z.of_nat (S j) mod UINT64_MOD)
                         (Z.of_nat (S j) mod 2)).
Proof.
  intros b j Hshm. rewrite solo_wait_releaser by (exact Hshm || reflexivity).
  unfold solo_handle, solo_shared, set_local_sense.
  cbn [local_sense shm name fd is_leader unmap_at_close cycle_count initialized].
  pose proof (parity_range j) as Hp.
  assert (Hc : (Z.of_nat j mod UINT64_MOD + 1) mod UINT64_MOD
               = Z.of_nat (S j) mod UINT64_MOD).
  { rewrite Z.add_mod_idemp_l by (pose proof uint64_mod_pos; lia).
    f_equal. lia. }
  assert (Hs : (1 - (1 - Z.of_nat j mod 2)) mod UINT32_MOD
               = 1 - Z.of_nat (S j) mod 2).
  { rewrite parity_succ. rewrite Z.mod_small; [lia|].
    assert (1 < UINT32_MOD) by reflexivity. lia. }
  rewrite Hc, Hs, (parity_succ j). reflexivity.
Qed.

(** The [k+1]-th call after [j] calls. *)
Lemma nth_solo_wait_closed : forall k j b,
  shm b <> None ->
  nth_solo_wait (S k) (solo_handle b j) (solo_shared j)
  = Some (solo_handle b (j + S k), solo_shared (j + S k),
          Z.of_nat (j + S k) mod UINT64_MOD,
          releaser_trace 1 1 (Z.of_nat (j + S k) mod UINT64_MOD)
                         (Z.of_nat (j + S k) mod 2)).
Proof.
  induction k as [|k IH]; intros j b Hshm.
  - change (nth_solo_wait 1 (solo_handle b j) (solo_shared j))
      with (solo_wait (solo_handle b j) (solo_shared j)).
    rewrite solo_wait_next by exact Hshm.
    replace (j + 1)%nat with (S j) by lia. reflexivity.
  - rewrite nth_solo_wait_SS, solo_wait_next, IH by exact Hshm.
    replace (S j + S k)%nat with (j + S (S k))%nat by lia. reflexivity.
Qed.

Lemma fresh_solo : forall addr nm f leader s0,
  opened_handle addr nm f leader = solo_handle (opened_handle addr nm f leader) 0
  /\ state_of (barrier_init_shared 1 s0) = solo_shared 0.
Proof.
  intros. split; [reflexivity | apply barrier_init_shared_state].
Qed.

(** C10, with the value of the [k]-th call taken modulo 2^64. When
    [num_processes] is 1 and no arrival is pending, a call of
    [barrier_wait] on a handle with a mapping makes exactly the accesses
    of the releasing branch (it never loads [sense], so it never spins),
    leaves [barrier_count] at 0 and returns the incremented cycle count.
    From a fresh one-process session the [k]-th call returns [k] modulo
    2^64, which is [k] as long as [k] is below 2^64. In every state of a
    run from a fresh session in which [num_processes] is 1, no process
    is in the spin loop, and [barrier_count] is 0 whenever no call is
    in progress. *)
Theorem single_process_wait :
  (forall b s,
     shm b <> None ->
     num_processes s = 1 -> barrier_count s = 0 ->
     exists b' s' v,
       solo_wait b s = Some (b', s', v, releaser_trace 1 1 v (local_sense b)) /\
       barrier_count s' = 0 /\
       v = (cycle_count s + 1) mod UINT64_MOD) /\
  (forall addr nm f leader s0 k,
     exists b' s' v my_sense,
       nth_solo_wait (S k) (opened_handle addr nm f leader)
                     (state_of (barrier_init_shared 1 s0))
       = Some (b', s', v, releaser_trace 1 1 v my_sense) /\
       barrier_count s' = 0 /\
       v = Z.of_nat (S k) mod UINT64_MOD /\
       (Z.of_nat (S k) < UINT64_MOD -> v = Z.of_nat (S k))) /\
  (forall s0 tr s,
     initial s0 -> sys_steps s0 tr s ->
     num_processes (shared s) = 1 ->
     Forall not_spinning (procs s) /\
     (Forall parked (procs s) -> barrier_count (shared s) = 0)).
Proof.
  split; [|split].
  - intros b s Hshm Hn Hbc. rewrite (solo_wait_releaser b s Hshm Hn Hbc).
    eexists _, _, _. repeat split.
  - intros addr nm f leader s0 k.
    destruct (fresh_solo addr nm f leader s0) as (Hb & Hs).
    rewrite Hs, Hb, nth_solo_wait_closed by discriminate. cbn [Nat.add].
    eexists _, _, _, _. repeat split.
    intros Hlt. apply Z.mod_small. lia.
  - intros s0 tr s Hinit Hsteps Hn.
    split; [eapply single_process_never_spins; eassumption|].
    destruct (run_inv Hinit Hsteps) as (Hinv & _).
    apply (parked_barrier_count Hinv).
Qed.

Lemma single_process_wait_witness :
  shm (mk_barrier (Some 4096) None 3 true 0 true) <> None /\
  num_processes (mk_shared 41 0 1 1 1) = 1 /\
  barrier_count (mk_shared 41 0 1 1 1) = 0 /\
  exists b' s' v,
    solo_wait (mk_barrier (Some 4096) None 3 true 0 true) (mk_shared 41 0 1 1 1)
    = Some (b', s', v, releaser_trace 1 1 v 0) /\
    barrier_count s' = 0 /\
    v = (cycle_count (mk_shared 41 0 1 1 1) + 1) mod UINT64_MOD.
Proof.
  split; [discriminate|]. split; [reflexivity|]. split; [reflexivity|].
  apply (proj1 single_process_wait
           (mk_barrier (Some 4096) None 3 true 0 true) (mk_shared 41 0 1 1 1));
    (discriminate || reflexivity).
Defined.

Lemma uint64_mod_nat : Z.of_nat (Z.to_nat UINT64_MOD) = UINT64_MOD.
Proof. apply Z2Nat.id. pose proof uint64_mod_pos. lia. Qed.

(** C10 as stated fails at the wrap of the counter: the call number
    2^64 of a one-process session returns 0, not 2^64. *)
Lemma wait_number_2_64_returns_0 :
  exists b s t,
    nth_solo_wait (Z.to_nat UINT64_MOD) (opened_handle 4096 None 3 true)
                  (state_of (barrier_init_shared 1 (mk_shared 0 0 0 0 0)))
    = Some (b, s, 0, t) /\
    0 <> Z.of_nat (Z.to_nat UINT64_MOD).
Proof.
  destruct (fresh_solo 4096 None 3 true (mk_shared 0 0 0 0 0)) as (Hb & Hs).
  assert (Hk : Z.to_nat UINT64_MOD = S (Z.to_nat (UINT64_MOD - 1))).
  { rewrite <- Z2Nat.inj_succ by (pose proof uint64_mod_pos; lia).
    f_equal; lia. }
  rewrite Hs, Hb.
  assert (H : nth_solo_wait (Z.to_nat UINT64_MOD)
                (solo_handle (opened_handle 4096 None 3 true) 0) (solo_shared 0)
              = Some (solo_handle (opened_handle 4096 None 3 true)
                        (Z.to_nat UINT64_MOD),
                      solo_shared (Z.to_nat UINT64_MOD), 0,
                      releaser_trace 1 1 0 0)).
  { rewrite Hk, nth_solo_wait_closed, Nat.add_0_l, <- Hk, uint64_mod_nat
      by discriminate.
    rewrite Z.mod_same by (pose proof uint64_mod_pos; lia).
    reflexivity. }
  eexists _, _, _. split; [exact H|].
  rewrite uint64_mod_nat. pose proof uint64_mod_pos. lia.
Qed.

(* ================================================================== *)
(** ** barrier_get_cycle *)
(* ================================================================== *)

Lemma step_cycle : forall s lbl s',
  sys_step s lbl s' ->
  cycle_count (shared s')
  = (if Nat.eqb (increments (wait_events lbl)) 0
     then cycle_count (shared s)
     else (cycle_count (shared s) + 1) mod UINT64_MOD) /\
  (increments (wait_events lbl) <= 1)%nat.
Proof.
  intros s lbl s' Hstep.
  destruct Hstep as
    [ sh l1 p l2 Hpc Hshm
    | sh l1 p l2 c b' c' sh' t Hpc Hnd Hw
    | sh l1 p l2 v Hpc
    | sh l1 p l2 m Hpc Hm
    | sh l1 p l2 m Hpc Hm
    | sh l1 p l2 m Hpc Hm
    | sh l1 p l2 num m Hpc Hm Hpark Hnum ];
    cbn [wait_events snd shared]; try (cbn; split; [reflexivity | lia]).
  - destruct c;
      cbv [wait_step abind aret atomic_load_n atomic_add_fetch atomic_store_n
           atomic_thread_fence cpu_pause local_op] in Hw;
      try (injection Hw as _ _ <- <-; cbn; split; [reflexivity | lia]).
    all: destruct (_ =? _) in Hw; injection Hw as _ _ <- <-; cbn;
      (split; [reflexivity | lia]).
  - rewrite (@get_cycle_state (handle p) m sh Hm). cbn. split; [reflexivity | lia].
  - rewrite (@all_ready_state (handle p) m sh Hm). cbn. split; [reflexivity | lia].
  - rewrite (@get_num_state (handle p) m sh Hm). cbn. split; [reflexivity | lia].
  - rewrite (@set_num_state (handle p) num m sh Hm). cbn. split; [reflexivity | lia].
Qed.

Lemma steps_cycle : forall s tr s',
  sys_steps s tr s' ->
  0 <= cycle_count (shared s) < UINT64_MOD ->
  cycle_count (shared s')
  = (cycle_count (shared s) + Z.of_nat (cycle_increments tr)) mod UINT64_MOD.
Proof.
  intros s tr s' H Hwf.
  induction H as [s | s tr s1 lbl s2 H IH Hs].
  - cbn. rewrite Z.add_0_r, Z.mod_small; [reflexivity | exact Hwf].
  - destruct (step_cycle Hs) as (Hc & Hle).
    rewrite cycle_increments_snoc, Hc, (IH Hwf).
    destruct (increments (wait_events lbl)) as [|[|n]]; [| |lia];
      cbn [Nat.eqb].
    + rewrite Nat.add_0_r. reflexivity.
    + rewrite Z.add_mod_idemp_l by (pose proof uint64_mod_pos; lia).
      f_equal. lia.
Qed.

Lemma last_access_value : forall s i v s',
  sys_step s (i, OpWaitStep [EvLoad F_cycle_count v]) s' ->
  v = cycle_count (shared s) /\
  exists p, nth_error (procs s') i = Some p /\ pc p = Some (PC_done v).
Proof.
  intros s i v s' Hstep.
  inversion Hstep as
    [ | sh l1 p l2 c b' c' sh' t Hpc Hnd Hw | | | | | ]; subst.
  destruct c;
    cbv [wait_step abind aret atomic_load_n atomic_add_fetch atomic_store_n
         atomic_thread_fence cpu_pause local_op] in Hw;
    try discriminate Hw.
  - destruct (_ =? my_sense); discriminate Hw.
  - injection Hw as <- <- <- <-.
    split; [reflexivity|].
    eexists. cbn [procs].
    rewrite nth_error_app2, Nat.sub_diag by lia.
    split; reflexivity.
Qed.

(** C3, with the comparison limited to runs in which the 64-bit cycle
    counter does not wrap. On a handle with a mapping [barrier_get_cycle]
    makes one access, a load of [cycle_count], changes nothing and
    returns the value loaded; it is not recursive. If the counter is
    incremented fewer than [2^64 - cycle_count] times between that load
    and the last access of a later call of [barrier_wait], the value
    that call returns is at least the value [barrier_get_cycle]
    returned. *)
Theorem get_cycle_le_next_wait : forall b a,
  shm b = Some a ->
  exists g,
    barrier_get_cycle (Some b) = Some g /\
    (forall sh, g sh = (cycle_count sh, sh, [EvLoad F_cycle_count (cycle_count sh)])) /\
    (forall s tr s1 i v s2,
       shared_wf (shared s) ->
       sys_steps s tr s1 ->
       sys_step s1 (i, OpWaitStep [EvLoad F_cycle_count v]) s2 ->
       cycle_count (shared s) + Z.of_nat (cycle_increments tr) < UINT64_MOD ->
       (exists p, nth_error (procs s2) i = Some p /\ pc p = Some (PC_done v)) /\
       result_of (g (shared s)) <= v).
Proof.
  intros b a Hshm. unfold barrier_get_cycle. rewrite Hshm.
  eexists. split; [reflexivity|]. split; [reflexivity|].
  intros s tr s1 i v s2 Hwf Hsteps Hlast Hnowrap.
  destruct (last_access_value Hlast) as (Hv & Hp).
  split; [exact Hp|].
  cbn [atomic_load_n result_of fst get_field].
  destruct Hwf as (Hc & _).
  rewrite Hv, (steps_cycle Hsteps Hc), Z.mod_small; lia.
Qed.

(* ================================================================== *)
(** ** Concrete runs *)
(* ================================================================== *)

(** Two processes, one episode: both calls return 1 and the session is
    back at rest. *)
Example two_process_episode_run :
  fst (run_of two_process_episode (fresh_session 2 2))
  = mk_system (mk_shared 1 0 2 1 1)
      [ mk_proc (set_local_sense (opened_handle 0 None 3 true) 0) None [1];
        mk_proc (set_local_sense (opened_handle 0 None 4 false) 0) None [1] ].
Proof. vm_compute. reflexivity. Qed.



Lemma get_cycle_le_next_wait_witness :
  shm (opened_handle 0 None 3 true) = Some 0 /\
  shared_wf (shared (fresh_session 1 1)) /\
  cycle_count (shared (fresh_session 1 1))
  + Z.of_nat (cycle_increments
                (snd (run_of up_to_last_access (fresh_session 1 1))))
  < UINT64_MOD /\
  exists g s2,
    barrier_get_cycle (Some (opened_handle 0 None 3 true)) = Some g /\
    sys_step (fst (run_of up_to_last_access (fresh_session 1 1)))
             (0%nat, OpWaitStep [EvLoad F_cycle_count 1]) s2 /\
    result_of (g (shared (fresh_session 1 1))) <= 1.
Proof.
  assert (Hwf : shared_wf (shared (fresh_session 1 1))).
  { unfold shared_wf. vm_compute. intuition discriminate. }
  assert (Hnw : cycle_count (shared (fresh_session 1 1))
                + Z.of_nat (cycle_increments
                     (snd (run_of up_to_last_access (fresh_session 1 1))))
                < UINT64_MOD) by reflexivity.
  split; [reflexivity|]. split; [exact Hwf|]. split; [exact Hnw|].
  destruct (@get_cycle_le_next_wait (opened_handle 0 None 3 true) 0 eq_refl)
    as (g & Hg & _ & Hle).
  exists g. eexists. split; [exact Hg|].
  assert (Hlast : sys_step (fst (run_of up_to_last_access (fresh_session 1 1)))
             (0%nat, OpWaitStep [EvLoad F_cycle_count 1])
             (fst (run_of (up_to_last_access ++ [0%nat]) (fresh_session 1 1)))).
  { apply (@exec_step_sound 0). vm_compute. reflexivity. }
  split; [exact Hlast|].
  apply (Hle _ _ _ _ _ _ Hwf
           (run_of_sound up_to_last_access (fresh_session 1 1)) Hlast Hnw).
Defined.

(** C3 as stated fails at the wrap of the counter. With the cycle
    counter at [2^64 - 1], which is where a one-process
    session stands after [2^64 - 1] calls, [barrier_get_cycle] returns
    [2^64 - 1] and the next call of [barrier_wait] on the same handle
    returns 0. *)
Lemma get_cycle_exceeds_next_wait_at_wrap :
  exists g s2 v,
    barrier_get_cycle (Some (mk_barrier (Some 4096) None 3 true 0 true))
    = Some g /\
    shared_wf (shared session_at_max) /\
    sys_steps session_at_max
      (snd (run_of up_to_last_access session_at_max))
      (fst (run_of up_to_last_access session_at_max)) /\
    sys_step (fst (run_of up_to_last_access session_at_max))
             (0%nat, OpWaitStep [EvLoad F_cycle_count v]) s2 /\
    result_of (g (shared session_at_max)) = UINT64_MOD - 1 /\
    v = 0 /\
    ~ (result_of (g (shared session_at_max)) <= v) /\
    exists v0 t0,
      nth_solo_wait (Z.to_nat (UINT64_MOD - 1))
        (opened_handle 4096 None 3 true)
        (state_of (barrier_init_shared 1 (mk_shared 0 0 0 0 0)))
      = Some (mk_barrier (Some 4096) None 3 true 0 true,
              shared session_at_max, v0, t0).
Proof.
  eexists _, (fst (run_of (up_to_last_access ++ [0%nat]) session_at_max)), 0.
  split; [reflexivity|].
  split; [unfold shared_wf; vm_compute; intuition discriminate|].
  split; [apply run_of_sound|].
  split; [apply (@exec_step_sound 0); vm_compute; reflexivity|].
  split; [reflexivity|]. split; [reflexivity|].
  split; [vm_compute; intros H; apply H; reflexivity|].
  destruct (fresh_solo 4096 None 3 true (mk_shared 0 0 0 0 0)) as (Hb & Hs).
  assert (Hk : Z.to_nat (UINT64_MOD - 1) = S (Z.to_nat (UINT64_MOD - 2))).
  { rewrite <- Z2Nat.inj_succ by (pose proof uint64_mod_pos; unfold UINT64_MOD; lia).
    f_equal; lia. }
  assert (Hid : Z.of_nat (Z.to_nat (UINT64_MOD - 1)) = UINT64_MOD - 1).
  { apply Z2Nat.id. unfold UINT64_MOD. lia. }
  rewrite Hs, Hb.
  eexists _, _.
  rewrite Hk, nth_solo_wait_closed, Nat.add_0_l, <- Hk by discriminate.
  unfold solo_handle, solo_shared. rewrite Hid. reflexivity.
Qed.

(* ================================================================== *)
(** ** Session runs *)
(* ================================================================== *)

Lemma session_steps_cons : forall s l s1 tr s2,
  session_step s l s1 -> session_steps s1 tr s2 -> session_steps s (l :: tr) s2.
Proof.
  intros s l s1 tr s2 Hstep Hsteps.
  induction Hsteps as [s1 | s1 tr s2 l' s3 Hsteps IH Hlast].
  - apply (@session_snoc s [] s l s1); [constructor | assumption].
  - change (l :: tr ++ [l']) with ((l :: tr) ++ [l']).
    eapply session_snoc; [apply IH; assumption | eassumption].
Qed.

Lemma forallb_parked : forall l, forallb is_parked l = true -> Forall parked l.
Proof.
  intros l H. apply Forall_forall. intros p Hin.
  rewrite forallb_forall in H. specialize (H p Hin).
  unfold is_parked, parked in *. destruct (pc p); [discriminate | reflexivity].
Qed.

Lemma session_exec_step_sound : forall c s s' l,
  session_exec_step c s = Some (s', l) -> session_step s l s'.
Proof.
  intros c [sh ps] s' l H. destruct c as [i | addr f | i num];
    cbn [session_exec_step shared procs] in H.
  - destruct (exec_step i (mk_system sh ps)) as [[s1 lbl]|] eqn:He;
      [|discriminate].
    injection H as <- <-. constructor. eapply exec_step_sound. exact He.
  - destruct (Z.eqb_spec (initialized sh) 1) as [Hi|]; [|discriminate].
    injection H as <- <-. constructor. exact Hi.
  - destruct (nth_error ps i) as [p|] eqn:Hnth; [|discriminate].
    destruct (barrier_set_num_processes (Some (handle p)) num) as [m|] eqn:Hm;
      [|discriminate].
    destruct (forallb is_parked ps) eqn:Hpark; cbn [andb] in H; [|discriminate].
    destruct (Z.leb_spec (Z.of_nat (length ps)) num) as [Hle|]; cbn [andb] in H;
      [|discriminate].
    destruct (Z.ltb_spec num UINT32_MOD) as [Hlt|]; [|discriminate].
    injection H as <- <-. constructor.
    apply forallb_parked in Hpark.
    destruct (split_at _ _ Hnth) as (Hsplit & Hlen).
    assert (Hp : pc p = None).
    { rewrite Forall_forall in Hpark. apply Hpark. eapply nth_error_In. exact Hnth. }
    remember (firstn i ps) as l1 eqn:E1. remember (skipn (S i) ps) as l2 eqn:E2.
    clear E1 E2 Hnth. subst ps i.
    apply step_set_num; [exact Hp | exact Hm | exact Hpark | lia].
Qed.

Lemma session_exec_sound : forall cs s s' tr,
  session_exec cs s = Some (s', tr) -> session_steps s tr s'.
Proof.
  induction cs as [|c cs IH]; intros s s' tr H; cbn in H.
  - inversion H; subst. constructor.
  - destruct (session_exec_step c s) as [[s1 l]|] eqn:H1; [|discriminate].
    destruct (session_exec cs s1) as [[s2 tr']|] eqn:H2; [|discriminate].
    inversion H; subst.
    eapply session_steps_cons;
      [eapply session_exec_step_sound; eassumption | now apply IH].
Qed.

Lemma session_run_of_sound : forall cs s,
  session_steps s (snd (session_run_of cs s)) (fst (session_run_of cs s)).
Proof.
  intros cs s. unfold session_run_of.
  destruct (session_exec cs s) as [[s' tr]|] eqn:H.
  - cbn [fst snd]. eapply session_exec_sound. exact H.
  - constructor.
Qed.

Lemma session_steps_app : forall s tr1 s1 tr2 s2,
  session_steps s tr1 s1 -> session_steps s1 tr2 s2 ->
  session_steps s (tr1 ++ tr2) s2.
Proof.
  intros s tr1 s1 tr2 s2 H1 H2.
  induction H2 as [s1 | s1 tr2 s2 l s3 H2 IH Hstep].
  - rewrite app_nil_r. exact H1.
  - rewrite app_assoc. eapply session_snoc; [apply IH; exact H1 | exact Hstep].
Qed.


Lemma ops_of_did : forall tr, ops_of (map Did tr) = tr.
Proof.
  induction tr as [|lbl tr IH]; [reflexivity|].
  cbn [map ops_of flat_map app]. fold (ops_of (map Did tr)). now rewrite IH.
Qed.

Lemma orderly_session : forall s0 tr s,
  orderly s0 tr s -> session_steps s0 tr s.
Proof.
  intros s0 tr s H.
  induction H as [s | s0 tr s lbl s' H IH Hstep | s0 tr s i s' H IH He Hn Hstep].
  - constructor.
  - eapply session_snoc; [exact IH | constructor; exact Hstep].
  - eapply session_snoc; [exact IH | exact Hstep].
Qed.

Lemma orderly_sys_steps : forall s0 tr s tr' s',
  orderly s0 tr s -> sys_steps s tr' s' -> orderly s0 (tr ++ map Did tr') s'.
Proof.
  intros s0 tr s tr' s' H Hsteps.
  induction Hsteps as [s | s tr' s1 lbl s2 Hsteps IH Hstep].
  - cbn [map]. rewrite app_nil_r. exact H.
  - rewrite map_app, app_assoc. cbn [map].
    eapply orderly_did; [apply IH; exact H | exact Hstep].
Qed.

Lemma sys_steps_orderly : forall s tr s',
  sys_steps s tr s' -> orderly s (map Did tr) s'.
Proof.
  intros s tr s' H.
  exact (orderly_sys_steps (orderly_nil s) H).
Qed.



(* ================================================================== *)
(** ** A handle opened after the first episode *)
(* ================================================================== *)

(** The resize scenario is a run of the session: from the fresh session
    of three, episode 1, [barrier_set_num_processes] with 4 under its
    caller contract, and a fourth [barrier_open]. It leaves [sense] at
    1 and four parked processes, the new one expecting 1 like every
    fresh handle, the three others expecting 0. *)
Lemma resized_session_reached :
  initial (fresh_session 3 3) /\
  session_steps (fresh_session 3 3)
    (snd (session_run_of episode_then_join (fresh_session 3 3)))
    resized_session /\
  shared resized_session = mk_shared 1 0 4 1 1 /\
  map (fun p => (pc p, local_sense (handle p), returned p))
      (procs resized_session)
  = [(None, 0, [1]); (None, 0, [1]); (None, 0, [1]); (None, 1, [])].
Proof.
  split; [apply fresh_session_initial; split; [lia | reflexivity]|].
  split; [apply session_run_of_sound|].
  split; vm_compute; reflexivity.
Qed.

(** C5. After the resize scenario [barrier_count] passes
    [num_processes]. The four processes call [barrier_wait] and arrive,
    the counter reaching 4 = [num_processes]; the call through the
    handle opened after episode 1 reads [sense] = 1, which a fresh
    handle expects, and returns although the episode is not released;
    the process calls again and its arrival makes the counter 5 before
    the releaser has reset it. No more than four calls are ever in
    flight, and no episode is released on the way. *)
Theorem late_join_overruns_barrier_count :
  initial (fresh_session 3 3) /\
  session_steps (fresh_session 3 3)
    (snd (session_run_of episode_then_join (fresh_session 3 3)))
    resized_session /\
  session_steps resized_session
    (snd (session_run_of episode_two_overrun resized_session))
    (fst (session_run_of episode_two_overrun resized_session)) /\
  length (procs resized_session) = 4%nat /\
  in_flight (fst (session_run_of episode_two_overrun resized_session)) = 4%nat /\
  calls_made (ops_of (snd (session_run_of episode_two_overrun resized_session)))
  = [3; 0; 1; 2; 3]%nat /\
  episodes (ops_of (snd (session_run_of episode_two_overrun resized_session)))
  = 0%nat /\
  num_processes
    (shared (fst (session_run_of episode_two_overrun resized_session))) = 4 /\
  barrier_count
    (shared (fst (session_run_of episode_two_overrun resized_session))) = 5.
Proof.
  split; [exact (proj1 resized_session_reached)|].
  split; [exact (proj1 (proj2 resized_session_reached))|].
  split; [apply session_run_of_sound|].
  repeat split; vm_compute; reflexivity.
Qed.

(** C9. After the resize scenario the calls of one episode return
    different cycle counts. Exactly the four processes call
    [barrier_wait], once each, and all four arrive before any call
    returns; the call through the handle opened after episode 1 reads
    [sense] = 1, which a fresh handle expects, and returns 1, the count
    of episode 1; the last to arrive then releases the episode, the one
    release of the run, and the three other calls return 2. *)
Theorem late_join_returns_disagree :
  initial (fresh_session 3 3) /\
  session_steps (fresh_session 3 3)
    (snd (session_run_of episode_then_join (fresh_session 3 3)))
    resized_session /\
  session_steps resized_session
    (snd (session_run_of episode_two resized_session))
    (fst (session_run_of episode_two resized_session)) /\
  Z.of_nat (length (procs resized_session))
  = num_processes (shared resized_session) /\
  calls_made (ops_of (snd (session_run_of episode_two resized_session)))
  = [3; 0; 1; 2]%nat /\
  in_flight (fst (session_run_of (firstn 12 episode_two) resized_session))
  = 4%nat /\
  episodes (ops_of (snd (session_run_of episode_two resized_session)))
  = 1%nat /\
  cycle_count (shared (fst (session_run_of episode_two resized_session)))
  = cycle_count (shared resized_session) + 1 /\
  Forall parked (procs (fst (session_run_of episode_two resized_session))) /\
  map returned (procs (fst (session_run_of episode_two resized_session)))
  = [[1; 2]; [1; 2]; [1; 2]; [1]] /\
  returned_values (ops_of (snd (session_run_of episode_two resized_session)))
  = [1; 2; 2; 2].
Proof.
  split; [exact (proj1 resized_session_reached)|].
  split; [exact (proj1 (proj2 resized_session_reached))|].
  split; [apply session_run_of_sound|].
  repeat split; try (vm_compute; reflexivity).
  vm_compute. repeat constructor.
Qed.

(* ================================================================== *)
(** ** Arrivals and returns of a run *)
(* ================================================================== *)

Lemma nth_error_mid_eq : forall (l1 : list proc) p l2,
  nth_error (l1 ++ p :: l2) (length l1) = Some p.
Proof.
  intros. rewrite nth_error_app2 by lia. rewrite Nat.sub_diag. reflexivity.
Qed.








(* ================================================================== *)
(** ** The sense flag, and what a run leaves alone *)
(* ================================================================== *)


Lemma wait_step_initialized : forall b c s r s' t,
  wait_step b c s = (r, s', t) -> initialized s' = initialized s.
Proof.
  intros b c s r s' t H.
  destruct c;
    cbv [wait_step abind aret atomic_load_n atomic_add_fetch atomic_store_n
         atomic_thread_fence cpu_pause local_op] in H;
    try (injection H as _ <- _; reflexivity).
  destruct (_ =? my_sense); injection H as _ <- _; reflexivity.
Qed.

Lemma step_frame : forall s lbl s',
  sys_step s lbl s' ->
  initialized (shared s') = initialized (shared s) /\
  length (procs s') = length (procs s) /\
  (is_resize lbl = false ->
   num_processes (shared s') = num_processes (shared s)) /\
  (forall i m, lbl = (i, OpSetNumProcesses m) ->
   num_processes (shared s') = m).
Proof.
  intros s lbl s' Hstep.
  destruct Hstep as
    [ sh l1 p l2 Hpc Hshm
    | sh l1 p l2 c b' c' sh' t Hpc Hnd Hw
    | sh l1 p l2 v Hpc
    | sh l1 p l2 m Hpc Hm
    | sh l1 p l2 m Hpc Hm
    | sh l1 p l2 m Hpc Hm
    | sh l1 p l2 num m Hpc Hm Hpark Hnum ];
    cbn [procs shared is_resize snd];
    rewrite ?length_app; cbn [length];
    try (repeat split; try reflexivity; intros; discriminate).
  - split; [|split; [reflexivity | split; [intros _; eapply wait_step_num_processes; exact Hw | intros; discriminate]]].
    eapply wait_step_initialized; exact Hw.
  - rewrite (@get_cycle_state (handle p) m sh Hm).
    repeat split; try reflexivity; intros; discriminate.
  - rewrite (@all_ready_state (handle p) m sh Hm).
    repeat split; try reflexivity; intros; discriminate.
  - rewrite (@get_num_state (handle p) m sh Hm).
    repeat split; try reflexivity; intros; discriminate.
  - rewrite (@set_num_state (handle p) num m sh Hm).
    repeat split; try reflexivity; try discriminate.
    intros i m0 Hl. injection Hl as _ <-. reflexivity.
Qed.

(** X6. Once the leader has published [initialized], it stays 1 for the
    whole run, so [barrier_all_ready] answers true on every mapped
    handle at any time; and [num_processes] keeps the value of the last
    [barrier_set_num_processes], or the one the leader opened with. *)
Theorem all_ready_throughout : forall s0 tr s,
  initial s0 -> sys_steps s0 tr s ->
  initialized (shared s) = 1 /\
  (forall b a, shm b = Some a ->
     exists m, barrier_all_ready (Some b) = Some m /\
               result_of (m (shared s)) = true /\
               state_of (m (shared s)) = shared s) /\
  (forall lbl s', sys_step s lbl s' ->
     (is_resize lbl = false ->
      num_processes (shared s') = num_processes (shared s)) /\
     (forall i m, lbl = (i, OpSetNumProcesses m) ->
      num_processes (shared s') = m)).
Proof.
  intros s0 tr s Hinit Hsteps.
  assert (Hi : initialized (shared s) = 1).
  { induction Hsteps as [s0 | s0 tr s1 lbl s2 Hsteps IH Hstep].
    - destruct Hinit as (x & num & Hsh & _). rewrite Hsh.
      rewrite barrier_init_shared_state. reflexivity.
    - destruct (step_frame Hstep) as (Hf & _). rewrite Hf. apply IH, Hinit. }
  split; [exact Hi|]. split.
  - intros b a Hshm. unfold barrier_all_ready. rewrite Hshm.
    eexists. split; [reflexivity|].
    cbv [abind atomic_load_n aret result_of state_of fst snd get_field].
    rewrite Hi. split; reflexivity.
  - intros lbl s' Hstep. destruct (step_frame Hstep) as (_ & _ & H1 & H2).
    split; assumption.
Qed.

(* ================================================================== *)
(** ** Missing participants *)
(* ================================================================== *)

Lemma sys_steps_app : forall s tr1 s1 tr2 s2,
  sys_steps s tr1 s1 -> sys_steps s1 tr2 s2 -> sys_steps s (tr1 ++ tr2) s2.
Proof.
  intros s tr1 s1 tr2 s2 H1 H2.
  induction H2 as [s1 | s1 tr2 s2 lbl s3 H2 IH Hstep].
  - rewrite app_nil_r. exact H1.
  - rewrite app_assoc. eapply steps_snoc; [apply IH; exact H1 | exact Hstep].
Qed.





(* ================================================================== *)
(** ** Changing the number of processes *)
(* ================================================================== *)

Lemma steps_num_processes : forall s tr s',
  sys_steps s tr s' ->
  Forall (fun lbl => is_resize lbl = false) tr ->
  num_processes (shared s') = num_processes (shared s).
Proof.
  intros s tr s' Hsteps.
  induction Hsteps as [s | s tr s1 lbl s2 Hsteps IH Hstep]; intros Hno.
  - reflexivity.
  - apply Forall_app in Hno as (Hno & Hlbl).
    inversion Hlbl as [|? ? Hl _]; subst.
    destruct (step_frame Hstep) as (_ & _ & HN & _).
    rewrite (HN Hl). apply IH, Hno.
Qed.

Lemma get_num_label : forall s j v s',
  sys_step s (j, OpGetNumProcesses v) s' ->
  v = num_processes (shared s) /\ shared s' = shared s.
Proof.
  intros s j v s' Hstep.
  remember (j, OpGetNumProcesses v) as lbl eqn:Hlbl.
  destruct Hstep as
    [ sh l1 p l2 Hpc Hshm
    | sh l1 p l2 c b' c' sh' t Hpc Hnd Hw
    | sh l1 p l2 w Hpc
    | sh l1 p l2 m Hpc Hm
    | sh l1 p l2 m Hpc Hm
    | sh l1 p l2 m Hpc Hm
    | sh l1 p l2 num m Hpc Hm Hpark Hnum ];
    try discriminate Hlbl.
  injection Hlbl as _ Hv. cbn [shared].
  unfold barrier_get_num_processes in Hm.
  destruct (shm (handle p)); [|discriminate].
  injection Hm as <-. subst v. split; reflexivity.
Qed.

(** X7. What the leader stores with [barrier_set_num_processes] is what
    every process reads with [barrier_get_num_processes] from then on,
    whatever calls of [barrier_wait] and queries come in between, until
    the count is set again; the query itself changes nothing. *)
Theorem set_num_processes_then_get : forall s i m s1 tr s2 j v s3,
  sys_step s (i, OpSetNumProcesses m) s1 ->
  sys_steps s1 tr s2 ->
  Forall (fun lbl => is_resize lbl = false) tr ->
  sys_step s2 (j, OpGetNumProcesses v) s3 ->
  v = m /\ shared s3 = shared s2.
Proof.
  intros s i m s1 tr s2 j v s3 Hset Hsteps Hno Hget.
  destruct (step_frame Hset) as (_ & _ & _ & Hm).
  destruct (get_num_label Hget) as (Hv & Hsh).
  split; [|exact Hsh].
  rewrite Hv, (steps_num_processes Hsteps Hno). apply (Hm i m eq_refl).
Qed.

(* ================================================================== *)
(** ** Progress *)
(* ================================================================== *)

Lemma reaches_refl : forall s, reaches s s.
Proof. intros s. exists []. constructor. Qed.

Lemma reaches_trans : forall s1 s2 s3,
  reaches s1 s2 -> reaches s2 s3 -> reaches s1 s3.
Proof.
  intros s1 s2 s3 (t1 & H1) (t2 & H2). exists (t1 ++ t2).
  eapply sys_steps_app; eassumption.
Qed.

Lemma reaches_step : forall s1 lbl s2 s3,
  sys_step s1 lbl s2 -> reaches s2 s3 -> reaches s1 s3.
Proof.
  intros s1 lbl s2 s3 H1 (t2 & H2). exists (lbl :: t2).
  eapply sys_steps_cons; eassumption.
Qed.

Ltac wait_step_tac :=
  eapply reaches_step;
  [ eapply step_wait;
    [ reflexivity
    | intros ?; discriminate
    | cbv [wait_step abind aret atomic_load_n atomic_add_fetch atomic_store_n
           atomic_thread_fence cpu_pause local_op handle get_field
           field_modulus] ]
  | cbn [handle returned] ].

(** A process that is not the last to arrive gets to the spin loop. *)
Lemma arrive_one : forall sh l1 p l2,
  pc p = None -> shm (handle p) <> None ->
  (barrier_count sh + 1) mod UINT32_MOD <> num_processes sh ->
  reaches (mk_system sh (l1 ++ p :: l2))
          (mk_system (set_field F_barrier_count
                        ((barrier_count sh + 1) mod UINT32_MOD) sh)
                     (l1 ++ spinning p :: l2)).
Proof.
  intros sh l1 [h c r] l2 Hpc Hshm Hne. cbn [pc handle] in *. subst c.
  eapply reaches_step; [apply step_call; [reflexivity | exact Hshm]|].
  cbn [handle returned].
  wait_step_tac; [reflexivity|].
  wait_step_tac.
  { apply Z.eqb_neq in Hne. rewrite Hne. reflexivity. }
  apply reaches_refl.
Qed.

(** The last to arrive releases the episode and returns the new cycle
    count. *)
Lemma release_one : forall sh l1 p l2,
  pc p = None -> shm (handle p) <> None ->
  (barrier_count sh + 1) mod UINT32_MOD = num_processes sh ->
  reaches (mk_system sh (l1 ++ p :: l2))
          (mk_system (mk_shared ((cycle_count sh + 1) mod UINT64_MOD) 0
                        (num_processes sh) (local_sense (handle p))
                        (initialized sh))
                     (l1 ++ left_with (local_sense (handle p))
                              ((cycle_count sh + 1) mod UINT64_MOD) p :: l2)).
Proof.
  intros [cc bc np sn ini] l1 [h c r] l2 Hpc Hshm He.
  cbn [pc handle barrier_count num_processes cycle_count initialized] in *.
  subst c.
  eapply reaches_step; [apply step_call; [reflexivity | exact Hshm]|].
  cbn [handle returned].
  wait_step_tac; [reflexivity|].
  wait_step_tac.
  { cbn [barrier_count num_processes]. rewrite He, Z.eqb_refl. reflexivity. }
  wait_step_tac; [reflexivity|].
  wait_step_tac; [reflexivity|].
  wait_step_tac; [reflexivity|].
  wait_step_tac; [reflexivity|].
  wait_step_tac; [reflexivity|].
  wait_step_tac; [reflexivity|].
  wait_step_tac; [reflexivity|].
  eapply reaches_step; [apply step_return; reflexivity|].
  cbn [handle returned set_field cycle_count barrier_count num_processes
       sense initialized].
  apply reaches_refl.
Qed.

(** A spinning process that sees its sense leaves the call with the
    cycle count it reads then. *)
Lemma leave_one : forall sh l1 p l2,
  pc p = Some (PC_spin (sense sh)) ->
  reaches (mk_system sh (l1 ++ p :: l2))
          (mk_system sh (l1 ++ left_with (sense sh) (cycle_count sh) p :: l2)).
Proof.
  intros sh l1 [h c r] l2 Hpc. cbn [pc] in Hpc. subst c.
  wait_step_tac.
  { rewrite Z.eqb_refl. reflexivity. }
  wait_step_tac; [reflexivity|].
  wait_step_tac; [reflexivity|].
  wait_step_tac; [reflexivity|].
  eapply reaches_step; [apply step_return; reflexivity|].
  apply reaches_refl.
Qed.

Lemma arrive_all : forall l2 l1 sh,
  Forall (fun p => pc p = None /\ shm (handle p) <> None) l2 ->
  0 <= barrier_count sh ->
  barrier_count sh + Z.of_nat (length l2) < num_processes sh ->
  num_processes sh <= UINT32_MOD ->
  reaches (mk_system sh (l1 ++ l2))
          (mk_system (set_field F_barrier_count
                        (barrier_count sh + Z.of_nat (length l2)) sh)
                     (l1 ++ map spinning l2)).
Proof.
  induction l2 as [|p l2 IH]; intros l1 sh Hall H0 Hlt HN.
  - cbn [length map Z.of_nat]. rewrite Z.add_0_r.
    destruct sh as [cc bc np sn ini]; apply reaches_refl.
  - inversion Hall as [|? ? (Hpc & Hshm) Hall']; subst.
    cbn [length] in Hlt. rewrite Nat2Z.inj_succ in Hlt.
    assert (Hsmall : (barrier_count sh + 1) mod UINT32_MOD = barrier_count sh + 1)
      by (apply Z.mod_small; lia).
    eapply reaches_trans.
    + apply arrive_one; [exact Hpc | exact Hshm | lia].
    + rewrite Hsmall.
      replace (l1 ++ spinning p :: l2) with ((l1 ++ [spinning p]) ++ l2)
        by (rewrite <- app_assoc; reflexivity).
      replace (l1 ++ map spinning (p :: l2))
        with ((l1 ++ [spinning p]) ++ map spinning l2)
        by (rewrite <- app_assoc; reflexivity).
      eapply reaches_trans.
      * apply IH; [exact Hall' | | | ];
          destruct sh as [cc bc np sn ini];
          cbn [set_field barrier_count num_processes] in *; lia.
      * destruct sh as [cc bc np sn ini].
        cbn [set_field barrier_count num_processes length] in *.
        rewrite Nat2Z.inj_succ.
        replace (bc + 1 + Z.of_nat (length l2))
          with (bc + Z.succ (Z.of_nat (length l2))) by lia.
        apply reaches_refl.
Qed.

Lemma leave_all : forall l2 l1 sh,
  Forall (fun p => pc p = Some (PC_spin (sense sh))) l2 ->
  reaches (mk_system sh (l1 ++ l2))
          (mk_system sh (l1 ++ map (left_with (sense sh) (cycle_count sh)) l2)).
Proof.
  induction l2 as [|p l2 IH]; intros l1 sh Hall.
  - apply reaches_refl.
  - inversion Hall as [|? ? Hpc Hall']; subst.
    eapply reaches_trans; [apply leave_one; exact Hpc|].
    replace (l1 ++ left_with (sense sh) (cycle_count sh) p :: l2)
      with ((l1 ++ [left_with (sense sh) (cycle_count sh) p]) ++ l2)
      by (rewrite <- app_assoc; reflexivity).
    replace (l1 ++ map (left_with (sense sh) (cycle_count sh)) (p :: l2))
      with ((l1 ++ [left_with (sense sh) (cycle_count sh) p])
            ++ map (left_with (sense sh) (cycle_count sh)) l2)
      by (rewrite <- app_assoc; reflexivity).
    apply IH. exact Hall'.
Qed.

(** X5. The barrier does not get stuck. From any point of a run at which
    all processes are between calls and as many take part as
    [num_processes] announces, the session can go through one more
    episode: every process calls [barrier_wait] once, every call
    returns, all of them return the same value, the cycle count one up
    (modulo 2^64), and the session is at rest again with the arrival
    counter at 0 and the sense flipped. *)
Theorem quiescent_session_completes_episode : forall s0 tr s,
  initial s0 -> sys_steps s0 tr s ->
  Forall parked (procs s) ->
  procs s <> [] ->
  Z.of_nat (length (procs s)) = num_processes (shared s) ->
  exists s',
    reaches s s' /\
    Forall parked (procs s') /\
    cycle_count (shared s') = (cycle_count (shared s) + 1) mod UINT64_MOD /\
    sense (shared s') = 1 - sense (shared s) /\
    barrier_count (shared s') = 0 /\
    map returned (procs s')
    = map (fun p => returned p ++ [cycle_count (shared s')]) (procs s).
Proof.
  intros s0 tr [[cc bc np sn ini] [|p0 l]] Hinit Hrun Hpark Hne Hlen;
    cbn [procs shared] in *; [congruence|].
  destruct (run_inv Hinit Hrun) as (Hinv & _).
  pose proof (parked_barrier_count Hinv Hpark) as Hbc.
  pose proof (inv_wf Hinv) as Hwf.
  pose proof (inv_procs Hinv) as Hprocs.
  cbn [procs shared barrier_count num_processes sense cycle_count] in *.
  assert (Hready : Forall (fun p => pc p = None /\ shm (handle p) <> None /\
                            local_sense (handle p) = 1 - sn) (p0 :: l)).
  { apply Forall_forall. intros p Hin.
    rewrite Forall_forall in Hpark, Hprocs.
    pose proof (Hpark p Hin) as Hp. destruct (Hprocs p Hin) as (Hshm & _ & Hpc).
    unfold parked in Hp. rewrite Hp in Hpc. cbn [pc_inv] in Hpc.
    destruct Hpc as (Hls & _). auto. }
  inversion Hready as [|? ? (Hpc0 & Hshm0 & Hls0) Hrest]; subst.
  destruct Hwf as (Hcc & _ & HN & _).
  cbn [length num_processes] in *. rewrite Nat2Z.inj_succ in *.
  exists (mk_system
            (mk_shared ((cc + 1) mod UINT64_MOD) 0
               (Z.succ (Z.of_nat (length l))) (1 - sn) ini)
            ([left_with (1 - sn) ((cc + 1) mod UINT64_MOD) p0]
             ++ map (left_with (1 - sn) ((cc + 1) mod UINT64_MOD))
                  (map spinning l))).
  split; [|split; [|split; [|split; [|split]]]].
  - eapply reaches_trans.
    { apply (@arrive_all l [p0]);
        [| cbn [barrier_count]; lia | cbn [barrier_count num_processes]; lia
         | cbn [num_processes]; lia].
      eapply Forall_impl; [|exact Hrest]. intros p (H1 & H2 & _). auto. }
    cbn [set_field barrier_count num_processes cycle_count sense initialized].
    eapply reaches_trans.
    { apply (@release_one _ [] p0 (map spinning l)); [exact Hpc0 | exact Hshm0 |].
      cbn [barrier_count num_processes].
      rewrite Z.mod_small by lia. lia. }
    cbn [barrier_count num_processes cycle_count initialized app].
    rewrite Hls0.
    apply (@leave_all (map spinning l)
             [left_with (1 - sn) ((cc + 1) mod UINT64_MOD) p0]
             (mk_shared ((cc + 1) mod UINT64_MOD) 0
               (Z.succ (Z.of_nat (length l))) (1 - sn) ini)).
    apply Forall_forall. intros q Hq. apply in_map_iff in Hq as (p & <- & Hin).
    rewrite Forall_forall in Hrest. destruct (Hrest p Hin) as (_ & _ & Hls).
    cbn [spinning pc sense]. rewrite Hls. reflexivity.
  - cbn [procs app]. constructor; [reflexivity|].
    apply Forall_forall. intros q Hq. apply in_map_iff in Hq as (p & <- & _).
    reflexivity.
  - reflexivity.
  - reflexivity.
  - reflexivity.
  - cbn [procs shared app map returned left_with cycle_count].
    f_equal. rewrite !map_map. apply map_ext. intros p. reflexivity.
Qed.

(* ================================================================== *)
(** ** The releasing branch *)
(* ================================================================== *)






(* ================================================================== *)
(** ** Sessions whose handles are opened in time *)
(* ================================================================== *)



Lemma step_index : forall s lbl s',
  sys_step s lbl s' -> (fst lbl < length (procs s))%nat.
Proof.
  intros s lbl s' Hstep.
  destruct Hstep; cbn [fst procs]; rewrite length_app; cbn [length]; lia.
Qed.











(* ================================================================== *)
(** ** A late handle as the releaser *)
(* ================================================================== *)

Lemma firstn_mid : forall (l1 : list proc) p l2,
  firstn (length l1) (l1 ++ p :: l2) = l1.
Proof.
  induction l1 as [|a l1 IH]; intros p l2; [reflexivity|].
  cbn. now rewrite IH.
Qed.

Lemma skipn_mid : forall (l1 : list proc) p l2,
  skipn (S (length l1)) (l1 ++ p :: l2) = l2.
Proof.
  induction l1 as [|a l1 IH]; intros p l2; [reflexivity|].
  cbn [length app]. rewrite skipn_cons. apply IH.
Qed.

(** A step of the system is the next step of the process that takes it,
    or a query, which leaves the system as it is, or
    [barrier_set_num_processes], which finds every process parked. *)
Lemma sys_step_cases : forall s lbl s',
  sys_step s lbl s' ->
  exec_step (fst lbl) s = Some (s', lbl) \/ s' = s \/ Forall parked (procs s).
Proof.
  intros s lbl s' Hstep.
  destruct Hstep as
    [ sh l1 p l2 Hpc Hshm
    | sh l1 p l2 c b' c' sh' t Hpc Hnd Hw
    | sh l1 p l2 v Hpc
    | sh l1 p l2 m Hpc Hm
    | sh l1 p l2 m Hpc Hm
    | sh l1 p l2 m Hpc Hm
    | sh l1 p l2 num m Hpc Hm Hpark Hnum ].
  - left. unfold exec_step. cbn [procs shared fst].
    rewrite nth_error_mid_eq, firstn_mid, skipn_mid, Hpc.
    destruct (shm (handle p)); [reflexivity | congruence].
  - left. unfold exec_step. cbn [procs shared fst].
    rewrite nth_error_mid_eq, firstn_mid, skipn_mid, Hpc, Hw.
    cbn [state_of result_of trace_of fst snd].
    destruct c; try reflexivity. exfalso. eapply Hnd. reflexivity.
  - left. unfold exec_step. cbn [procs shared fst].
    rewrite nth_error_mid_eq, firstn_mid, skipn_mid, Hpc. reflexivity.
  - right. left. rewrite (@get_cycle_state (handle p) m sh Hm). reflexivity.
  - right. left. rewrite (@all_ready_state (handle p) m sh Hm). reflexivity.
  - right. left. rewrite (@get_num_state (handle p) m sh Hm). reflexivity.
  - right. right. exact Hpark.
Qed.

Lemma stranded_session_is : stranded_session = stranded None 0.
Proof. vm_compute. reflexivity. Qed.

Lemma stranded_step : forall s lbl s',
  In s stranded_states -> sys_step s lbl s' -> In s' stranded_states.
Proof.
  intros s lbl s' Hin Hstep.
  pose proof (step_index Hstep) as Hlt.
  destruct (sys_step_cases Hstep) as [Hex | [-> | Hpark]];
    [| exact Hin |]; clear Hstep.
  - destruct lbl as [i o]. cbn [fst] in Hex, Hlt.
    unfold stranded_states in Hin. cbn [In] in Hin.
    destruct Hin as [<- | [<- | [<- | [<- | []]]]];
      (destruct i as [|[|[|[|i]]]];
       [ | | | | exfalso; cbn [stranded procs length] in Hlt; lia ]);
      vm_compute in Hex; injection Hex as <- _;
      vm_compute; repeat (first [left; reflexivity | right]).
  - exfalso. unfold stranded_states in Hin. cbn [In] in Hin.
    destruct Hin as [<- | [<- | [<- | [<- | []]]]];
      cbn [stranded procs] in Hpark;
      inversion Hpark as [|? ? Hp _]; discriminate Hp.
Qed.

Lemma stranded_run : forall s0 tr s,
  sys_steps s0 tr s -> In s0 stranded_states -> In s stranded_states.
Proof.
  intros s0 tr s Hsteps.
  induction Hsteps as [s | s tr s1 lbl s2 Hsteps IH Hstep]; intros H0.
  - exact H0.
  - eapply stranded_step; [apply IH; exact H0 | exact Hstep].
Qed.

Lemma stranded_facts : forall s,
  In s stranded_states ->
  sense (shared s) = 1 /\
  cycle_count (shared s) = 2 /\
  firstn 3 (program_points s)
  = [Some (PC_spin 0); Some (PC_spin 0); Some (PC_spin 0)] /\
  map returned (procs s) = [[1]; [1]; [1]; [2]].
Proof.
  intros s Hin.
  unfold stranded_states in Hin. cbn [In] in Hin.
  destruct Hin as [<- | [<- | [<- | [<- | []]]]];
    (split; [reflexivity|]); (split; [reflexivity|]); split; reflexivity.
Qed.

(** X24. A handle opened after an odd number of episodes, arriving last,
    strands the others. In the resize scenario the three processes of
    episode 1 arrive for episode 2 and spin for [sense] = 0; the call
    through the handle opened after episode 1 arrives last and releases
    with the 1 a fresh handle expects, which [sense] holds already. The
    cycle counter has gone to 2 and that call has returned 2, the only
    call of the four to return; and from there on, whatever the four
    processes do, [sense] stays 1, the three stay in the spin loop of
    the same call and no call returns. *)
Theorem late_releaser_strands_the_others :
  session_steps resized_session
    (snd (session_run_of episode_two_joiner_last resized_session))
    (stranded None 0) /\
  calls_made
    (ops_of (snd (session_run_of episode_two_joiner_last resized_session)))
  = [0; 1; 2; 3]%nat /\
  returned_values
    (ops_of (snd (session_run_of episode_two_joiner_last resized_session)))
  = [2] /\
  forall tr s,
    sys_steps (stranded None 0) tr s ->
    sense (shared s) = 1 /\
    cycle_count (shared s) = 2 /\
    firstn 3 (program_points s)
    = [Some (PC_spin 0); Some (PC_spin 0); Some (PC_spin 0)] /\
    map returned (procs s) = [[1]; [1]; [1]; [2]].
Proof.
  split.
  { rewrite <- stranded_session_is. apply session_run_of_sound. }
  split; [vm_compute; reflexivity|].
  split; [vm_compute; reflexivity|].
  intros tr s Hsteps.
  apply stranded_facts. apply (stranded_run Hsteps). left. reflexivity.
Qed.

Lemma late_releaser_strands_the_others_witness :
  sense (shared (fst (run_of [0; 1; 2; 3; 3; 3; 3; 0; 1; 2; 3]%nat
                        (stranded None 0)))) = 1 /\
  map returned
      (procs (fst (run_of [0; 1; 2; 3; 3; 3; 3; 0; 1; 2; 3]%nat
                     (stranded None 0))))
  = [[1]; [1]; [1]; [2]].
Proof.
  pose proof (run_of_sound [0; 1; 2; 3; 3; 3; 3; 0; 1; 2; 3]%nat
                (stranded None 0)) as Hs.
  destruct (proj2 (proj2 (proj2 late_releaser_strands_the_others)) _ _ Hs)
    as (H1 & _ & _ & H4).
  split; assumption.
Defined.

(* ================================================================== *)
(** ** When barrier_open succeeds *)
(* ================================================================== *)

Lemma open_loop_result : forall env nm budget r,
  match fst (open_loop env nm false budget r) with
  | Break f =>
      exists i, (r <= i < r + budget)%nat /\ f = fst (env_open env i) /\
                0 <= f /\ forall j, (r <= j < i)%nat -> open_retry env j
  | Exhausted => forall j, (r <= j < r + budget)%nat -> open_retry env j
  | Failed =>
      exists i, (r <= i < r + budget)%nat /\ fst (env_open env i) < 0 /\
                snd (env_open env i) <> ENOENT /\
                forall j, (r <= j < i)%nat -> open_retry env j
  end.
Proof.
  intros env nm. induction budget as [|budget IH]; intros r; cbn [open_loop].
  - cbn [fst]. intros j Hj. lia.
  - destruct (env_open env r) as [f e] eqn:Hr.
    destruct (Z.leb_spec 0 f) as [Hf|Hf].
    + cbn [fst]. exists r. rewrite Hr. cbn [fst].
      split; [lia|]. split; [reflexivity|]. split; [exact Hf|].
      intros j Hj. lia.
    + cbn [negb andb]. destruct (Z.eqb_spec e ENOENT) as [He|He].
      * specialize (IH (S r)).
        destruct (open_loop env nm false budget (S r)) as [[g| |] t];
          cbn [fst] in *.
        -- destruct IH as (i & Hi & Hg & H0 & Hall). exists i.
           split; [lia|]. split; [exact Hg|]. split; [exact H0|].
           intros j Hj. destruct (Nat.eq_dec j r) as [->|Hne].
           ++ unfold open_retry. rewrite Hr. cbn [fst snd].
              split; [lia | assumption].
           ++ apply Hall. lia.
        -- intros j Hj. destruct (Nat.eq_dec j r) as [->|Hne].
           ++ unfold open_retry. rewrite Hr. cbn [fst snd].
              split; [lia | assumption].
           ++ apply IH. lia.
        -- destruct IH as (i & Hi & Hg & H0 & Hall). exists i.
           split; [lia|]. split; [exact Hg|]. split; [exact H0|].
           intros j Hj. destruct (Nat.eq_dec j r) as [->|Hne].
           ++ unfold open_retry. rewrite Hr. cbn [fst snd].
              split; [lia | assumption].
           ++ apply Hall. lia.
      * cbn [fst]. exists r. rewrite Hr. cbn [fst snd].
        split; [lia|]. split; [exact Hf|]. split; [exact He|].
        intros j Hj. lia.
Qed.

Lemma size_loop_result : forall env f budget r,
  match fst (size_loop env f budget r) with
  | Break _ => exists k, (r <= k < r + budget)%nat /\ sized env k
  | Exhausted => forall k, (r <= k < r + budget)%nat -> ~ sized env k
  | Failed => False
  end.
Proof.
  intros env f. induction budget as [|budget IH]; intros r; cbn [size_loop].
  - cbn [fst]. intros k Hk. lia.
  - destruct (env_fstat env r) as [x size] eqn:Hr.
    destruct (Z.eqb_spec x 0) as [Hx|Hx];
      [destruct (Z.leb_spec barrier_mapsize size) as [Hs|Hs]|]; cbn [andb].
    + cbn [fst]. exists r. unfold sized. rewrite Hr. cbn [fst snd].
      split; [lia|]. split; assumption.
    + specialize (IH (S r)).
      destruct (size_loop env f budget (S r)) as [[[]| |] t]; cbn [fst] in *.
      * destruct IH as (k & Hk & Hsz). exists k. split; [lia | assumption].
      * intros k Hk. destruct (Nat.eq_dec k r) as [->|Hne].
        -- unfold sized. rewrite Hr. cbn [fst snd]. lia.
        -- apply IH. lia.
      * exact IH.
    + specialize (IH (S r)).
      destruct (size_loop env f budget (S r)) as [[[]| |] t]; cbn [fst] in *.
      * destruct IH as (k & Hk & Hsz). exists k. split; [lia | assumption].
      * intros k Hk. destruct (Nat.eq_dec k r) as [->|Hne].
        -- unfold sized. rewrite Hr. cbn [fst snd]. lia.
        -- apply IH. lia.
      * exact IH.
Qed.

Lemma init_loop_result : forall env budget r,
  match fst (init_loop env budget r) with
  | Break _ =>
      exists j, (r <= j < r + budget)%nat /\ env_initialized env j = 1 /\
                (forall i, (r <= i < j)%nat -> env_initialized env i <> 1) /\
                shared_accesses (snd (init_loop env budget r))
                = map (fun i => EvLoad F_initialized (env_initialized env i))
                      (seq r (S (j - r)))
  | Exhausted =>
      (forall i, (r <= i < r + budget)%nat -> env_initialized env i <> 1) /\
      shared_accesses (snd (init_loop env budget r))
      = map (fun i => EvLoad F_initialized (env_initialized env i))
            (seq r budget)
  | Failed => False
  end.
Proof.
  intros env. induction budget as [|budget IH]; intros r; cbn [init_loop].
  - cbn [fst snd]. split; [intros i Hi; lia | reflexivity].
  - destruct (Z.eqb_spec (env_initialized env r) 1) as [Hv|Hv].
    + cbn [fst snd]. exists r. rewrite Nat.sub_diag.
      split; [lia|]. split; [exact Hv|]. split; [intros i Hi; lia | reflexivity].
    + specialize (IH (S r)).
      destruct (init_loop env budget (S r)) as [[[]| |] t]; cbn [fst snd] in *.
      * destruct IH as (j & Hj & H1 & Hall & Hacc). exists j.
        split; [lia|]. split; [exact H1|]. split.
        -- intros i Hi. destruct (Nat.eq_dec i r) as [->|Hne];
             [assumption | apply Hall; lia].
        -- cbn [shared_accesses flat_map app]. fold (shared_accesses t).
           rewrite Hacc. replace (S (j - r)) with (S (S (j - S r))) by lia.
           reflexivity.
      * destruct IH as (Hall & Hacc). split.
        -- intros i Hi. destruct (Nat.eq_dec i r) as [->|Hne];
             [assumption | apply Hall; lia].
        -- cbn [shared_accesses flat_map app]. fold (shared_accesses t).
           rewrite Hacc. reflexivity.
      * exact IH.
Qed.

(** X8. [barrier_open] returns a handle exactly when the system gives the
    answers of [open_answers]: in particular a failing [strdup] does not
    make it fail, and a follower's [open] that fails with anything but
    [ENOENT] does. *)
Theorem barrier_open_succeeds_iff : forall env nm leader num,
  fst (barrier_open env nm leader num) <> None <-> open_answers env leader.
Proof.
  intros env nm leader num. unfold barrier_open, open_answers.
  destruct (Z.eqb_spec (env_memalign env) 0) as [Hm|Hm]; cbn [negb].
  2: { cbn [fst]. split; [congruence | intros (H & _); contradiction]. }
  destruct leader.
  - change max_retries with (S (pred max_retries)). cbn [open_loop].
    destruct (env_open env 0) as [f e]. cbn [fst].
    destruct (Z.leb_spec 0 f) as [Hf|Hf]; cbn [negb andb].
    2: { cbn [fst]. split; [congruence | intros (_ & _ & H & _); lia]. }
    unfold size_phase.
    destruct (Z.ltb_spec (env_ftruncate env) 0) as [Ht|Ht].
    { cbn [fst]. split; [congruence | intros (_ & _ & _ & H); lia]. }
    destruct (env_mmap env) as [p|].
    2: { cbn [fst]. split; [congruence | intros (_ & H & _); congruence]. }
    unfold init_phase. cbn [fst].
    split; [intros _ | discriminate].
    split; [exact Hm|]. split; [discriminate|]. split; [exact Hf | lia].
  - pose proof (open_loop_result env nm max_retries 0) as Ho.
    destruct (open_loop env nm false max_retries 0) as [[f| |] t1];
      cbn [fst] in Ho.
    2: { cbn [fst]. split; [congruence|].
         intros (_ & _ & (i & Hi & H0 & _) & _).
         destruct (Ho i) as (Hlt & _); lia. }
    2: { cbn [fst]. split; [congruence|].
         intros (_ & _ & (i & Hi & H0 & Hall) & _).
         destruct Ho as (i' & Hi' & Hneg & Hnot & Hall').
         destruct (Nat.lt_trichotomy i' i) as [Hlt|[->|Hgt]].
         - destruct (Hall i' Hlt) as (_ & He). contradiction.
         - lia.
         - destruct (Hall' i) as (Hlt & _); lia. }
    destruct Ho as (i & Hi & Hfi & Hf0 & Hall).
    assert (Hopen : exists i, (i < max_retries)%nat /\
                      0 <= fst (env_open env i) /\
                      forall j, (j < i)%nat -> open_retry env j).
    { exists i. split; [lia|]. split; [congruence|].
      intros j Hj. apply Hall. lia. }
    unfold size_phase.
    pose proof (size_loop_result env f max_retries 0) as Hs.
    destruct (size_loop env f max_retries 0) as [[[]| |] t2]; cbn [fst] in Hs.
    2: { cbn [fst]. split; [congruence|].
         intros (_ & _ & _ & (k & Hk & Hsz) & _).
         exfalso. apply (Hs k); [lia | assumption]. }
    2: { contradiction. }
    destruct Hs as (k & Hk & Hsz).
    destruct (env_mmap env) as [p|].
    2: { cbn [fst]. split; [congruence | intros (_ & H & _); congruence]. }
    unfold init_phase.
    pose proof (init_loop_result env max_retries 0) as Hini.
    destruct (init_loop env max_retries 0) as [[[]| |] t4]; cbn [fst] in Hini.
    + destruct Hini as (j & Hj & H1 & _). cbn [fst].
      split; [intros _ | discriminate].
      split; [assumption|]. split; [discriminate|]. split; [assumption|].
      split; [exists k; split; [lia | assumption]|].
      exists j. split; [lia | assumption].
    + cbn [fst]. split; [congruence|].
      intros (_ & _ & _ & _ & (j & Hj & H1)).
      destruct Hini as (Hall' & _). exfalso. apply (Hall' j); [lia | assumption].
    + contradiction.
Qed.

(* ================================================================== *)
(** ** barrier_open followed by barrier_close *)
(* ================================================================== *)

Lemma size_phase_held : forall env leader f x t live,
  size_phase env leader f = (x, t) -> held_from live t = live.
Proof.
  intros env leader f x t live H. unfold size_phase in H. destruct leader.
  - destruct (env_ftruncate env <? 0); injection H as _ <-;
      unfold held_from; cbn [fold_left acquires frees fold_right];
      rewrite ?app_nil_r; reflexivity.
  - destruct (size_loop env f max_retries 0) as [y t'] eqn:Hl.
    pose proof (size_loop_held _ _ _ _ live Hl) as Hy.
    destruct y; injection H as _ <-; try exact Hy.
    rewrite held_from_app, Hy.
    unfold held_from; cbn [fold_left acquires frees fold_right];
      rewrite ?app_nil_r; reflexivity.
Qed.

Lemma init_phase_held : forall env leader num x t live,
  init_phase env leader num = (x, t) -> held_from live t = live.
Proof.
  intros env leader num x t live H. unfold init_phase in H. destruct leader.
  - injection H as _ <-.
    unfold held_from; cbn [fold_left acquires frees fold_right];
      rewrite ?app_nil_r; reflexivity.
  - destruct (init_loop env max_retries 0) as [y t'] eqn:Hl.
    pose proof (init_loop_held _ _ _ live Hl) as Hy.
    destruct y; injection H as _ <-; try exact Hy.
    rewrite held_from_app, Hy.
    unfold held_from; cbn [fold_left acquires frees fold_right];
      rewrite ?app_nil_r; reflexivity.
Qed.

Lemma open_success_held : forall env nm leader num h tr,
  barrier_open env nm leader num = (Some h, tr) ->
  open_handle h /\ held_after tr = handle_resources h.
Proof.
  intros env nm leader num h tr H.
  destruct (barrier_open_handle _ _ _ _ H) as (p & Hh & Hmap & Hfd).
  unfold barrier_open in H.
  destruct (Z.eqb_spec (env_memalign env) 0) as [Hm|Hm]; cbn [negb] in H;
    [|discriminate].
  rewrite Hm in H.
  destruct (open_loop env nm leader max_retries 0) as [[f| |] t1] eqn:Ho;
    try discriminate.
  destruct (open_loop_held _ _ _ _ _ [ResHandle] Ho) as (Hf & Hh1).
  destruct (size_phase env leader f) as [[[]| |] t2] eqn:Hs; try discriminate.
  pose proof (size_phase_held _ _ _ [ResHandle; ResFd f] Hs) as Hh2.
  rewrite Hmap in H.
  destruct (init_phase env leader num) as [[[]| |] t4] eqn:Hi; try discriminate.
  pose proof (fun live => init_phase_held _ _ _ live Hi) as Hh4.
  injection H as Hb <-.
  assert (Hfdh : fd h = f) by (rewrite <- Hb; reflexivity).
  rewrite Hfdh in *.
  split.
  - unfold open_handle. rewrite Hh. cbn [opened_handle shm fd unmap_at_close].
    split; [discriminate|]. split; [exact Hf | reflexivity].
  - change (held_after
              ([SysMemalign 0] ++ t1 ++ t2
               ++ [SysMmap f barrier_mapsize (Some p);
                   SysStrdup nm (env_strdup env)] ++ t4)
            = handle_resources h).
    unfold held_after. rewrite !held_from_app.
    change (held_from [] [SysMemalign 0]) with [ResHandle].
    rewrite Hh1. cbn [app]. rewrite Hh2, Hh4, Hh.
    destruct (env_strdup env); reflexivity.
Qed.

Lemma close_releases : forall h,
  open_handle h ->
  held_from (handle_resources h) (barrier_close (Some h)) = [].
Proof.
  intros [s n f l ls u] (Hshm & Hfd & Hu). cbn [shm fd unmap_at_close] in *.
  subst u. destruct s as [p|]; [|congruence].
  unfold barrier_close, handle_resources. cbn [shm unmap_at_close fd is_leader name].
  apply Z.leb_le in Hfd. rewrite Hfd.
  destruct n as [n|], l;
    unfold held_from;
    cbn [app fold_left frees acquires fold_right];
    unfold drop; cbn [filter resource_eqb negb app];
    rewrite ?Z.eqb_refl; cbn [filter resource_eqb negb app];
    reflexivity.
Qed.

(** X9. A successful [barrier_open] returns holding the handle, the
    descriptor, the mapping and, if [strdup] succeeded, the copy of the
    name, and nothing else; [barrier_close] on the handle it returned
    gives all of them back. The file is unlinked by that close exactly
    when the handle is the leader's and [strdup] had succeeded: a leader
    whose [strdup] failed leaves the file behind. *)
Theorem open_then_close_releases_all : forall env nm leader num h tr,
  barrier_open env nm leader num = (Some h, tr) ->
  (exists p,
     shm h = Some p /\
     held_after tr
     = [ResHandle; ResFd (fd h); ResMapping p]
       ++ (if env_strdup env then [ResName] else [])) /\
  held_after (tr ++ barrier_close (Some h)) = [] /\
  (forall n, In (SysUnlink n) (barrier_close (Some h)) <->
             leader = true /\ env_strdup env = true /\ n = nm).
Proof.
  intros env nm leader num h tr H.
  destruct (barrier_open_handle _ _ _ _ H) as (p & Hh & Hmap & Hfd).
  destruct (open_success_held _ _ _ _ H) as (Hopen & Hheld).
  split; [|split].
  - exists p. split; [rewrite Hh; reflexivity|].
    rewrite Hheld, Hh. unfold handle_resources, opened_handle.
    cbn [shm fd name]. destruct (env_strdup env); reflexivity.
  - unfold held_after in *. rewrite held_from_app, Hheld.
    apply close_releases, Hopen.
  - intros n. rewrite Hh. unfold barrier_close, opened_handle.
    cbn [shm unmap_at_close fd is_leader name].
    apply Z.leb_le in Hfd. rewrite Hfd.
    destruct (env_strdup env), leader; cbn [app In]; split;
      try (intros [Hx|[Hx|[Hx|[Hx|[Hx|[]]]]]]; try discriminate Hx);
      try (intros [Hx|[Hx|[Hx|[Hx|[]]]]]; try discriminate Hx);
      try (intros (H1 & H2 & H3); discriminate H1 || discriminate H2).
    + injection Hx as <-. auto.
    + intros (_ & _ & ->). right. right. left. reflexivity.
Qed.

(* ================================================================== *)
(** ** Who waits, and who writes, in barrier_open *)
(* ================================================================== *)

Lemma shared_accesses_app : forall t1 t2,
  shared_accesses (t1 ++ t2) = shared_accesses t1 ++ shared_accesses t2.
Proof. intros. unfold shared_accesses. apply flat_map_app. Qed.

Lemma opens_app : forall t1 t2, opens (t1 ++ t2) = opens t1 ++ opens t2.
Proof. intros. unfold opens. apply flat_map_app. Qed.

Lemma open_err_quiet : forall f a,
  shared_accesses (open_err f a) = [] /\ opens (open_err f a) = [].
Proof. intros f a. unfold open_err. destruct (0 <=? f); split; reflexivity. Qed.

Lemma open_loop_quiet : forall env nm leader budget r,
  shared_accesses (snd (open_loop env nm leader budget r)) = [].
Proof.
  intros env nm leader. induction budget as [|budget IH]; intros r;
    cbn [open_loop]; [reflexivity|].
  destruct (env_open env r) as [f e].
  destruct (0 <=? f); [reflexivity|].
  destruct (negb leader && (e =? ENOENT)); [|reflexivity].
  specialize (IH (S r)).
  destruct (open_loop env nm leader budget (S r)) as [x t]. exact IH.
Qed.

Lemma size_loop_quiet : forall env f budget r,
  shared_accesses (snd (size_loop env f budget r)) = [] /\
  opens (snd (size_loop env f budget r)) = [].
Proof.
  intros env f. induction budget as [|budget IH]; intros r;
    cbn [size_loop]; [split; reflexivity|].
  destruct (env_fstat env r) as [x size].
  destruct ((x =? 0) && (barrier_mapsize <=? size)); [split; reflexivity|].
  specialize (IH (S r)).
  destruct (size_loop env f budget (S r)) as [y t]. exact IH.
Qed.

Lemma init_loop_no_open : forall env budget r,
  opens (snd (init_loop env budget r)) = [].
Proof.
  intros env. induction budget as [|budget IH]; intros r;
    cbn [init_loop]; [reflexivity|].
  destruct (env_initialized env r =? 1); [reflexivity|].
  specialize (IH (S r)).
  destruct (init_loop env budget (S r)) as [y t]. exact IH.
Qed.

Lemma size_phase_quiet : forall env leader f,
  shared_accesses (snd (size_phase env leader f)) = [] /\
  opens (snd (size_phase env leader f)) = [] /\
  (leader = true -> sleeps (snd (size_phase env leader f)) = []).
Proof.
  intros env leader f. unfold size_phase. destruct leader.
  - destruct (env_ftruncate env <? 0); repeat split.
  - destruct (size_loop_quiet env f max_retries 0) as (H1 & H2).
    destruct (size_loop env f max_retries 0) as [[[]| |] t]; cbn [snd] in *;
      rewrite ?shared_accesses_app, ?opens_app, ?H1, ?H2;
      (split; [reflexivity | split; [reflexivity | discriminate]]).
Qed.

(** X11. The leader's [barrier_open] never waits: it calls [open] at most
    once, with the flags that create the file, and never sleeps. *)
Theorem leader_open_never_waits : forall env nm num,
  sleeps (snd (barrier_open env nm true num)) = [] /\
  opens (snd (barrier_open env nm true num))
  = if env_memalign env =? 0 then [true] else [].
Proof.
  intros env nm num. unfold barrier_open.
  destruct (env_memalign env =? 0); cbn [negb]; [|split; reflexivity].
  change max_retries with (S (pred max_retries)). cbn [open_loop].
  destruct (env_open env 0) as [f e].
  destruct (Z.leb_spec 0 f) as [Hf|Hf]; cbn [negb andb].
  2: { destruct (open_err_quiet (-1) true) as (_ & Ho).
       cbn [snd]. rewrite !sleeps_app, !opens_app, open_err_sleeps, Ho.
       split; reflexivity. }
  destruct (size_phase_quiet env true f) as (_ & Ho2 & Hs2).
  specialize (Hs2 eq_refl).
  destruct (open_err_quiet f true) as (_ & Hoe).
  pose proof (open_err_sleeps f true) as Hse.
  destruct (size_phase env true f) as [[[]| |] t2]; cbn [snd] in *.
  - destruct (env_mmap env) as [p|]; unfold init_phase; cbn [snd];
      rewrite !sleeps_app, !opens_app, ?Ho2, ?Hs2, ?Hoe, ?Hse;
      split; reflexivity.
  - rewrite !sleeps_app, !opens_app, ?Ho2, ?Hs2, ?Hoe, ?Hse;
      split; reflexivity.
  - rewrite !sleeps_app, !opens_app, ?Ho2, ?Hs2, ?Hoe, ?Hse;
      split; reflexivity.
Qed.

(** X12. A follower never writes to the shared structure while it opens the
    barrier: its only accesses are loads of [initialized], at most
    [max_retries] of them, none but the last reads 1, and when
    [barrier_open] returns a handle the last one did read 1. *)
Theorem follower_open_only_polls : forall env nm num,
  exists n,
    (n <= max_retries)%nat /\
    shared_accesses (snd (barrier_open env nm false num)) = init_polls env n /\
    (forall i, (S i < n)%nat -> env_initialized env i <> 1) /\
    (fst (barrier_open env nm false num) <> None ->
     exists j, n = S j /\ env_initialized env j = 1).
Proof.
  intros env nm num. unfold barrier_open.
  assert (Hnone : forall t : list sys_event,
            shared_accesses t = [] ->
            exists n,
              (n <= max_retries)%nat /\
              shared_accesses (snd (@None cycle_barrier, t)) = init_polls env n /\
              (forall i, (S i < n)%nat -> env_initialized env i <> 1) /\
              (fst (@None cycle_barrier, t) <> None ->
               exists j, n = S j /\ env_initialized env j = 1)).
  { intros t Ht. exists 0%nat. cbn [fst snd]. rewrite Ht.
    split; [lia|]. split; [reflexivity|]. split; [intros i Hi; lia|].
    intros Hc. congruence. }
  destruct (env_memalign env =? 0); cbn [negb].
  2: { apply Hnone. rewrite shared_accesses_app.
       rewrite (proj1 (open_err_quiet (-1) false)). reflexivity. }
  pose proof (open_loop_quiet env nm false max_retries 0) as Hq1.
  destruct (open_loop env nm false max_retries 0) as [[f| |] t1];
    cbn [snd] in Hq1.
  2: { apply Hnone. rewrite !shared_accesses_app, Hq1.
       rewrite (proj1 (open_err_quiet (-1) true)). reflexivity. }
  2: { apply Hnone. rewrite !shared_accesses_app, Hq1.
       rewrite (proj1 (open_err_quiet (-1) true)). reflexivity. }
  destruct (size_phase_quiet env false f) as (Hq2 & _).
  destruct (size_phase env false f) as [[[]| |] t2]; cbn [snd] in Hq2.
  2: { apply Hnone. rewrite !shared_accesses_app, Hq1, Hq2.
       rewrite (proj1 (open_err_quiet f true)). reflexivity. }
  2: { apply Hnone. rewrite !shared_accesses_app, Hq1, Hq2.
       rewrite (proj1 (open_err_quiet f true)). reflexivity. }
  destruct (env_mmap env) as [p|].
  2: { apply Hnone. rewrite !shared_accesses_app, Hq1, Hq2.
       rewrite (proj1 (open_err_quiet f true)). reflexivity. }
  unfold init_phase.
  pose proof (init_loop_result env max_retries 0) as Hini.
  destruct (init_loop env max_retries 0) as [[[]| |] t4];
    cbn [fst snd] in Hini; [| |contradiction].
  - destruct Hini as (j & Hj & H1 & Hall & Hacc).
    exists (S j). cbn [fst snd].
    rewrite !shared_accesses_app, Hq1, Hq2, Hacc, Nat.sub_0_r.
    split; [lia|]. split; [reflexivity|].
    split; [intros i Hi; apply Hall; lia|].
    intros _. exists j. split; [reflexivity | exact H1].
  - destruct Hini as (Hall & Hacc).
    exists max_retries. cbn [fst snd].
    rewrite !shared_accesses_app, Hq1, Hq2, Hacc.
    rewrite (proj1 (open_err_quiet f true)).
    split; [lia|]. split; [cbn [app]; rewrite !app_nil_r; reflexivity|].
    split; [intros i Hi; apply Hall; lia|].
    intros Hc. congruence.
Qed.

(* ================================================================== *)
(** ** The DPI entry points *)
(* ================================================================== *)

Lemma wait_step_handle : forall b c s b' c' s' t,
  wait_step b c s = ((b', c'), s', t) ->
  b' = set_local_sense b (local_sense b').
Proof.
  intros [sh n f l ls u] c s b' c' s' t H.
  destruct c;
    cbv [wait_step abind aret atomic_load_n atomic_add_fetch atomic_store_n
         atomic_thread_fence cpu_pause local_op] in H;
    try (injection H as <- _ _ _; reflexivity).
  destruct (_ =? my_sense); injection H as <- _ _ _; reflexivity.
Qed.

Lemma call_run_handle : forall b c b' v,
  call_run b c b' v -> b' = set_local_sense b (local_sense b').
Proof.
  intros b c b' v H.
  induction H as [[sh n f l ls u] v | b c s b1 c1 s1 t b2 v Hnd Hw Hrun IH].
  - reflexivity.
  - rewrite IH. rewrite (wait_step_handle _ _ _ Hw). reflexivity.
Qed.

Lemma set_local_sense_open : forall h v,
  open_handle h -> open_handle (set_local_sense h v).
Proof. intros h v H. exact H. Qed.

Lemma held_from_stderr : forall live, held_from live [SysStderr] = live.
Proof. intros live. unfold held_from. cbn. apply app_nil_r. Qed.

Lemma dpi_step_inv : forall g c g' t live,
  dpi_step g c g' t ->
  match g with
  | None => live = []
  | Some h => open_handle h /\ live = handle_resources h
  end ->
  match g' with
  | None => held_from live t = []
  | Some h => open_handle h /\ held_from live t = handle_resources h
  end.
Proof.
  intros g c g' t live Hstep Hinv.
  destruct Hstep as
    [ g env uri l n g' t H
    | fuel h m t h' v H Hc
    | g m t H
    | g g' t H
    | g m t H
    | g n m t H
    | g m t H ].
  - unfold pi_barrier_init in H. destruct g as [h|].
    + injection H as <- <-. rewrite held_from_stderr. exact Hinv.
    + subst live.
      destruct (barrier_open env uri (negb (l =? 0)) (to_uint32 n))
        as [[h|] t0] eqn:Ho; [|discriminate].
      injection H as <- <-. exact (open_success_held _ _ _ _ Ho).
  - unfold pi_barrier_wait in H.
    destruct (barrier_wait fuel (Some h)); [|discriminate].
    injection H as _ <-. destruct Hinv as (Hopen & ->).
    rewrite (call_run_handle Hc). split; [exact Hopen | reflexivity].
  - unfold pi_barrier_get_cycle in H. destruct g as [h|]; [|discriminate].
    destruct (barrier_get_cycle (Some h)); [|discriminate].
    injection H as _ <-. exact Hinv.
  - unfold pi_barrier_close in H. destruct g as [h|].
    + injection H as <- <-. destruct Hinv as (Hopen & ->).
      apply close_releases, Hopen.
    + injection H as <- <-. exact Hinv.
  - unfold pi_barrier_ready in H. destruct g as [h|].
    + destruct (barrier_all_ready (Some h)); [|discriminate].
      injection H as _ <-. exact Hinv.
    + injection H as _ <-. exact Hinv.
  - unfold pi_barrier_set_num_procs in H. destruct g as [h|].
    + destruct (barrier_set_num_processes (Some h) (to_uint32 n));
        [|discriminate].
      injection H as _ <-. exact Hinv.
    + injection H as _ <-. rewrite held_from_stderr. exact Hinv.
  - unfold pi_barrier_get_num_procs in H. destruct g as [h|].
    + destruct (barrier_get_num_processes (Some h)); [|discriminate].
      injection H as _ <-. exact Hinv.
    + injection H as _ <-. exact Hinv.
Qed.

Lemma dpi_steps_inv : forall calls g t,
  dpi_steps None calls g t ->
  match g with
  | None => held_after t = []
  | Some h => open_handle h /\ held_after t = handle_resources h
  end.
Proof.
  intros calls g t H. remember None as g0 eqn:Hg0.
  induction H as [g | g calls g1 t1 c g2 t2 Hsteps IH Hstep].
  - subst g. reflexivity.
  - specialize (IH Hg0). unfold held_after in *. rewrite held_from_app.
    apply (@dpi_step_inv g1 c g2 t2 (held_from [] t1) Hstep).
    destruct g1 as [h|]; exact IH.
Qed.

(** X13. Whatever sequence of entry points a process calls, starting with
    [g_barrier] null, it holds exactly the resources of the handle in
    [g_barrier], and none when [g_barrier] is null: a second
    [pi_barrier_init] opens nothing, and [pi_barrier_close] gives back
    everything [pi_barrier_init] acquired. *)
Theorem dpi_holds_one_handle : forall calls g t,
  dpi_steps None calls g t ->
  held_after t
  = match g with Some h => handle_resources h | None => [] end.
Proof.
  intros calls g t H. pose proof (dpi_steps_inv H) as Hinv.
  destruct g as [h|]; [apply Hinv | exact Hinv].
Qed.

(** X14. No assertion of barrier_sync.h fails behind the entry points, but
    one: [g_barrier] is null or a mapped handle, so [pi_barrier_wait],
    [pi_barrier_get_cycle], [pi_barrier_ready] and
    [pi_barrier_get_num_procs] never abort, while
    [pi_barrier_set_num_procs] aborts exactly in a process that opened
    the barrier as a follower. *)
Theorem dpi_assertions : forall calls g t,
  dpi_steps None calls g t ->
  (forall fuel, fst (pi_barrier_wait fuel g) <> Aborts) /\
  fst (pi_barrier_get_cycle g) <> Aborts /\
  fst (pi_barrier_ready g) <> Aborts /\
  fst (pi_barrier_get_num_procs g) <> Aborts /\
  (forall n, fst (pi_barrier_set_num_procs g n) = Aborts <->
             exists h, g = Some h /\ is_leader h = false).
Proof.
  intros calls g t H. pose proof (dpi_steps_inv H) as Hinv.
  destruct g as [h|].
  - destruct Hinv as ((Hshm & _) & _).
    unfold pi_barrier_wait, pi_barrier_get_cycle, pi_barrier_ready,
      pi_barrier_get_num_procs, pi_barrier_set_num_procs, barrier_wait,
      barrier_get_cycle, barrier_all_ready, barrier_get_num_processes,
      barrier_set_num_processes.
    destruct (shm h) as [p|]; [|congruence]. cbn [fst].
    split; [intros; discriminate|]. split; [discriminate|].
    split; [discriminate|]. split; [discriminate|].
    intros n. destruct (is_leader h) eqn:Hl; cbn [fst]; split.
    + discriminate.
    + intros (h' & Hh & Hl'). injection Hh as <-. congruence.
    + intros _. exists h. split; [reflexivity | exact Hl].
    + reflexivity.
  - cbn [pi_barrier_wait pi_barrier_get_cycle pi_barrier_ready
         pi_barrier_get_num_procs pi_barrier_set_num_procs fst].
    split; [intros; discriminate|]. split; [discriminate|].
    split; [discriminate|]. split; [discriminate|].
    intros n. split; [discriminate|]. intros (h & Hh & _). discriminate.
Qed.

Lemma to_int_to_uint32 : forall n,
  INT_MIN <= n <= INT_MAX -> to_int (to_uint32 n) = n.
Proof.
  intros n Hn. unfold to_int, to_uint32, INT_MIN, INT_MAX, UINT32_MOD in *.
  destruct (Z_lt_le_dec n 0) as [Hneg|Hpos].
  - replace (n mod 2 ^ 32) with (n + 2 ^ 32)
      by (apply Z.mod_unique with (q := -1); lia).
    destruct (Z.leb_spec (n + 2 ^ 32) (2 ^ 31 - 1)); lia.
  - rewrite Z.mod_small by lia.
    destruct (Z.leb_spec n (2 ^ 31 - 1)); lia.
Qed.

(** X15. The count passes the entry points unchanged: what
    [pi_barrier_set_num_procs] is given is what
    [pi_barrier_get_num_procs] returns, for every [int], through the
    casts to [uint32_t] and back. The shared field holds the count
    itself only when it is not negative: a negative one is stored as
    2^32 more. *)
Theorem dpi_num_procs_round_trip : forall h p n sh,
  shm h = Some p -> is_leader h = true ->
  INT_MIN <= n <= INT_MAX ->
  exists set get,
    pi_barrier_set_num_procs (Some h) n = (Returns set, []) /\
    pi_barrier_get_num_procs (Some h) = (Returns get, []) /\
    result_of (get (state_of (set sh))) = n /\
    num_processes (state_of (set sh)) = (if n <? 0 then n + UINT32_MOD else n).
Proof.
  intros h p n sh Hshm Hl Hn.
  unfold pi_barrier_set_num_procs, pi_barrier_get_num_procs,
    barrier_set_num_processes, barrier_get_num_processes.
  rewrite Hshm, Hl. eexists. eexists.
  split; [reflexivity|]. split; [reflexivity|].
  cbv [abind aret atomic_load_n atomic_store_n result_of state_of fst snd
       get_field set_field num_processes].
  split; [apply to_int_to_uint32, Hn|].
  unfold to_uint32, INT_MIN, INT_MAX, UINT32_MOD in *.
  destruct (Z.ltb_spec n 0) as [Hneg|Hpos].
  - symmetry. apply Z.mod_unique with (q := -1); lia.
  - apply Z.mod_small. lia.
Qed.

Lemma leader_open_accesses : forall env nm num h tr,
  barrier_open env nm true num = (Some h, tr) ->
  shared_accesses tr = trace_of (barrier_init_shared num (env_shared env)).
Proof.
  intros env nm num h tr H. unfold barrier_open in H.
  destruct (negb (env_memalign env =? 0)); [discriminate|].
  pose proof (open_loop_quiet env nm true max_retries 0) as Hq1.
  destruct (open_loop env nm true max_retries 0) as [[f| |] t1];
    try discriminate.
  destruct (size_phase_quiet env true f) as (Hq2 & _).
  destruct (size_phase env true f) as [[[]| |] t2]; try discriminate.
  destruct (env_mmap env) as [p|]; [|discriminate].
  unfold init_phase in H. cbn [snd] in *.
  assert (Htr : tr = [SysMemalign (env_memalign env)] ++ t1 ++ t2
                     ++ [SysMmap f barrier_mapsize (Some p);
                         SysStrdup nm (env_strdup env)]
                     ++ [SysShared (trace_of (barrier_init_shared num
                                                (env_shared env)))])
    by (injection H as _ <-; reflexivity).
  rewrite Htr, !shared_accesses_app, Hq1, Hq2.
  cbn [shared_accesses flat_map app]. apply app_nil_r.
Qed.

(** X16. What a leader finds after [pi_barrier_init]: on the structure as its
    accesses leave it, whatever the mapping held before,
    [pi_barrier_ready] gives 1, [pi_barrier_get_num_procs] the count it
    was called with, and [pi_barrier_get_cycle] 0. *)
Theorem dpi_leader_init_then_queries : forall env uri is_leader n g t,
  is_leader <> 0 -> INT_MIN <= n <= INT_MAX ->
  pi_barrier_init env None uri is_leader n = (Returns g, t) ->
  exists ready get_num get_cycle,
    replay (shared_accesses t) (env_shared env)
    = mk_shared 0 0 (to_uint32 n) 0 1 /\
    pi_barrier_ready g = (Returns ready, []) /\
    pi_barrier_get_num_procs g = (Returns get_num, []) /\
    pi_barrier_get_cycle g = (Returns get_cycle, []) /\
    result_of (ready (replay (shared_accesses t) (env_shared env))) = 1 /\
    result_of (get_num (replay (shared_accesses t) (env_shared env))) = n /\
    result_of (get_cycle (replay (shared_accesses t) (env_shared env))) = 0.
Proof.
  intros env uri l n g t Hl Hn H. unfold pi_barrier_init in H.
  apply Z.eqb_neq in Hl. rewrite Hl in H. cbn [negb] in H.
  destruct (barrier_open env uri true (to_uint32 n)) as [[h|] t0] eqn:Ho;
    [|discriminate].
  injection H as <- <-.
  destruct (barrier_open_handle _ _ _ _ Ho) as (p & Hh & _).
  rewrite (leader_open_accesses _ _ _ Ho).
  assert (Hsh : replay (trace_of (barrier_init_shared (to_uint32 n)
                                    (env_shared env))) (env_shared env)
                = mk_shared 0 0 (to_uint32 n) 0 1)
    by (destruct (env_shared env); reflexivity).
  rewrite Hsh.
  unfold pi_barrier_ready, pi_barrier_get_num_procs, pi_barrier_get_cycle,
    barrier_all_ready, barrier_get_num_processes, barrier_get_cycle.
  rewrite Hh. cbn [opened_handle shm].
  eexists. eexists. eexists.
  split; [reflexivity|]. split; [reflexivity|]. split; [reflexivity|].
  split; [reflexivity|]. split; [reflexivity|].
  cbv [abind aret atomic_load_n result_of fst snd get_field num_processes
       cycle_count].
  split; [apply to_int_to_uint32, Hn | reflexivity].
Qed.

(* ================================================================== *)
(** ** Plusargs *)
(* ================================================================== *)

Lemma text_eqb_refl : forall a, text_eqb a a = true.
Proof.
  intros a. unfold text_eqb. destruct (list_eq_dec Ascii.ascii_dec a a);
    [reflexivity | contradiction].
Qed.

Lemma text_eqb_eq : forall a b, text_eqb a b = true -> a = b.
Proof.
  intros a b. unfold text_eqb.
  destruct (list_eq_dec Ascii.ascii_dec a b); [auto | discriminate].
Qed.

Lemma firstn_name : forall (name rest : text) c,
  firstn (length ([c] ++ name ++ [Plusargs.equals]) - 1) ([c] ++ name ++ rest)
  = [c] ++ name.
Proof.
  intros name rest c.
  replace (length ([c] ++ name ++ [Plusargs.equals]) - 1)%nat
    with (length ([c] ++ name) + 0)%nat
    by (rewrite !length_app; cbn [length]; lia).
  rewrite app_assoc, firstn_app_2. cbn [firstn]. apply app_nil_r.
Qed.

Lemma extract_plusarg_value_app : forall name c value,
  extract_plusarg_value (Some ([Plusargs.plus] ++ name ++ [c] ++ value)) name
  = value.
Proof.
  intros name c value. unfold extract_plusarg_value, substr, substr_from.
  cbn [skipn].
  rewrite (firstn_name name [Plusargs.equals] Plusargs.plus).
  rewrite (firstn_name name ([c] ++ value) Plusargs.plus).
  rewrite text_eqb_refl, andb_true_r.
  destruct value as [|v value].
  - destruct (Nat.leb_spec
                (length ([Plusargs.plus] ++ name ++ [Plusargs.equals]) + 1)
                (length ([Plusargs.plus] ++ name ++ [c] ++ []))) as [H|H];
      [|reflexivity].
    rewrite !length_app in H. cbn [length] in H. lia.
  - destruct (Nat.leb_spec
                (length ([Plusargs.plus] ++ name ++ [Plusargs.equals]) + 1)
                (length ([Plusargs.plus] ++ name ++ [c] ++ v :: value)))
      as [H|H].
    + replace ([Plusargs.plus] ++ name ++ [c] ++ v :: value)
        with (([Plusargs.plus] ++ name ++ [c]) ++ v :: value)
        by (rewrite <- !app_assoc; reflexivity).
      replace (length ([Plusargs.plus] ++ name ++ [Plusargs.equals]))
        with (length ([Plusargs.plus] ++ name ++ [c]))
        by (rewrite !length_app; cbn [length]; lia).
      rewrite skipn_app, skipn_all, Nat.sub_diag. reflexivity.
    + rewrite !length_app in H. cbn [length] in H. lia.
Qed.

Lemma extract_plusarg_value_shape : forall m name value,
  extract_plusarg_value m name = value -> value <> [] ->
  exists c, m = Some ([Plusargs.plus] ++ name ++ [c] ++ value).
Proof.
  intros m name value H Hne. unfold extract_plusarg_value in H.
  destruct m as [full|]; [|congruence].
  set (prefix := [Plusargs.plus] ++ name ++ [Plusargs.equals]) in *.
  destruct (Nat.leb_spec (length prefix + 1) (length full)) as [Hlen|Hlen];
    cbn [andb] in H; [|congruence].
  destruct (text_eqb (substr full 0 (length prefix - 1))
              (substr prefix 0 (length prefix - 1))) eqn:He; [|congruence].
  apply text_eqb_eq in He. unfold substr, substr_from in *. cbn [skipn] in He.
  unfold prefix in He at 2 3.
  rewrite (firstn_name name [Plusargs.equals] Plusargs.plus) in He.
  assert (Hpl : length prefix = S (length ([Plusargs.plus] ++ name)))
    by (unfold prefix; rewrite !length_app; cbn [length]; lia).
  rewrite Hpl in *.
  replace (S (length ([Plusargs.plus] ++ name)) - 1)%nat
    with (length ([Plusargs.plus] ++ name)) in He by lia.
  pose proof (firstn_skipn (length ([Plusargs.plus] ++ name)) full) as Hsplit.
  rewrite He in Hsplit.
  destruct (skipn (length ([Plusargs.plus] ++ name)) full) as [|c rest] eqn:Hs.
  - exfalso. rewrite <- Hsplit in Hlen. rewrite !length_app in Hlen.
    cbn [length] in Hlen. lia.
  - exists c. f_equal. rewrite <- Hsplit, <- app_assoc. do 2 f_equal.
    cbn [app]. f_equal. rewrite <- H.
    change (S (length ([Plusargs.plus] ++ name)))
      with (1 + length ([Plusargs.plus] ++ name))%nat.
    rewrite <- skipn_skipn, Hs. reflexivity.
Qed.

(** X17. A value that is not empty is returned for exactly one shape of
    match: [+], the name, one more character, and the value. [+name=value]
    is of that shape, and so is the same text with anything else in the
    place of [=], which the comparison leaves out. *)
Theorem extract_plusarg_value_iff : forall m name value,
  value <> [] ->
  (extract_plusarg_value m name = value <->
   exists c, m = Some ([Plusargs.plus] ++ name ++ [c] ++ value)).
Proof.
  intros m name value Hne. split.
  - intros H. exact (extract_plusarg_value_shape _ _ H Hne).
  - intros (c & ->). apply extract_plusarg_value_app.
Qed.

(** X18. [parse_plusarg] hands the value of [+name=value] to the stream
    extraction, and leaves the variable as it is when the value is
    empty; whenever it changes the variable, the match was of that
    shape with a value that is not empty. *)
Theorem parse_plusarg_value : forall (T : Type) (extraction : text -> T -> T)
    m name (result : T),
  (forall c value,
     parse_plusarg extraction
       (Some ([Plusargs.plus] ++ name ++ [c] ++ value)) name result
     = match value with [] => result | _ => extraction value result end) /\
  (parse_plusarg extraction m name result = result \/
   exists c value,
     value <> [] /\
     m = Some ([Plusargs.plus] ++ name ++ [c] ++ value) /\
     parse_plusarg extraction m name result = extraction value result).
Proof.
  intros T extraction m name result. split.
  - intros c value. unfold parse_plusarg.
    rewrite extract_plusarg_value_app. destruct value; reflexivity.
  - unfold parse_plusarg.
    destruct (extract_plusarg_value m name) as [|v value] eqn:He.
    + left. reflexivity.
    + right. assert (Hne : v :: value <> []) by discriminate.
      destruct (extract_plusarg_value_shape _ _ He Hne) as (c & Hm).
      exists c, (v :: value). split; [exact Hne|]. split; [exact Hm|].
      reflexivity.
Qed.

(* ================================================================== *)
(** ** The simulation loop *)
(* ================================================================== *)

Lemma time_advance_app : forall t1 t2,
  time_advance (t1 ++ t2) = time_advance t1 + time_advance t2.
Proof.
  intros t1 t2. induction t1 as [|e t1 IH]; [reflexivity|].
  cbn [app time_advance fold_right]. fold (time_advance (t1 ++ t2)).
  fold (time_advance t1). rewrite IH. destruct e; lia.
Qed.

Lemma barrier_waits_app : forall t1 t2,
  barrier_waits (t1 ++ t2) = (barrier_waits t1 + barrier_waits t2)%nat.
Proof. intros. unfold barrier_waits. rewrite filter_app, length_app. reflexivity. Qed.

Lemma rising_edges_app : forall t1 t2,
  rising_edges (t1 ++ t2) = (rising_edges t1 + rising_edges t2)%nat.
Proof. intros. unfold rising_edges. rewrite filter_app, length_app. reflexivity. Qed.

Lemma evals_app : forall t1 t2, evals (t1 ++ t2) = (evals t1 + evals t2)%nat.
Proof. intros. unfold evals. rewrite filter_app, length_app. reflexivity. Qed.

Lemma sys_calls_app : forall t1 t2,
  sys_calls (t1 ++ t2) = sys_calls t1 ++ sys_calls t2.
Proof. intros. unfold sys_calls. apply flat_map_app. Qed.

Lemma tb_sys_events : forall l,
  time_advance (map TbSys l) = 0 /\ barrier_waits (map TbSys l) = 0%nat /\
  rising_edges (map TbSys l) = 0%nat /\ evals (map TbSys l) = 0%nat /\
  sys_calls (map TbSys l) = l.
Proof.
  induction l as [|e l (H1 & H2 & H3 & H4 & H5)]; [repeat split|].
  repeat split; try assumption.
  cbn [map sys_calls flat_map app]. fold (sys_calls (map TbSys l)).
  rewrite H5. reflexivity.
Qed.

Lemma sim_cycle_counts : forall d0 d1 b,
  time_advance (sim_cycle d0 d1 b) = d0 + d1 /\
  rising_edges (sim_cycle d0 d1 b) = 1%nat /\
  evals (sim_cycle d0 d1 b) = 3%nat /\
  barrier_waits (sim_cycle d0 d1 b)
  = (match b with Some _ => 1 | None => 0 end)%nat /\
  sys_calls (sim_cycle d0 d1 b) = [].
Proof.
  intros d0 d1 b. unfold sim_cycle.
  destruct b; cbn; repeat split; lia.
Qed.

Lemma waited_handle : forall b,
  match b, waited b with
  | Some h, Some h' => h' = set_local_sense h (local_sense h')
  | None, None => True
  | _, _ => False
  end.
Proof. intros [h|]; cbn; [reflexivity | exact I]. Qed.

Lemma sim_loop_spec : forall finish wr mc d0 d1 fuel b cycle k c b' t,
  0 <= cycle < UINT64_MOD ->
  sim_loop fuel finish wr mc d0 d1 b cycle k = Some (c, b', t) ->
  exists n,
    (n < fuel)%nat /\
    time_advance t = Z.of_nat n * (d0 + d1) /\
    rising_edges t = n /\
    evals t = (3 * n)%nat /\
    barrier_waits t = (match b with Some _ => n | None => 0 end)%nat /\
    sys_calls t = [] /\
    c = (cycle + Z.of_nat n) mod UINT64_MOD /\
    (forall j, (j < n)%nat ->
       finish (k + j)%nat = false /\
       ~ (0 < mc /\ mc <= (cycle + Z.of_nat j) mod UINT64_MOD)) /\
    match b, b' with
    | Some h, Some h' => h' = set_local_sense h (local_sense h')
    | None, None => True
    | _, _ => False
    end.
Proof.
  intros finish wr mc d0 d1.
  induction fuel as [|fuel IH]; intros b cycle k c b' t Hc H;
    cbn [sim_loop] in H; [discriminate|].
  assert (Hsame : match b, b with
                  | Some h, Some h' => h' = set_local_sense h (local_sense h')
                  | None, None => True
                  | _, _ => False
                  end)
    by (destruct b as [[]|]; [reflexivity | exact I]).
  destruct (finish k) eqn:Hfin.
  { injection H as <- <- <-.
    exists 0%nat. split; [lia|]. split; [reflexivity|]. split; [reflexivity|].
    split; [reflexivity|]. split; [destruct b; reflexivity|].
    split; [reflexivity|].
    split; [rewrite Z.add_0_r, Z.mod_small by lia; reflexivity|].
    split; [intros j Hj; lia | exact Hsame]. }
  destruct ((0 <? mc) && (mc <=? cycle)) eqn:Hmax.
  { injection H as <- <- <-.
    exists 0%nat. split; [lia|]. split; [reflexivity|]. split; [reflexivity|].
    split; [reflexivity|]. split; [destruct b; reflexivity|].
    split; [reflexivity|].
    split; [rewrite Z.add_0_r, Z.mod_small by lia; reflexivity|].
    split; [intros j Hj; lia | exact Hsame]. }
  destruct (match b with Some _ => wr k | None => true end); [|discriminate].
  destruct (sim_loop fuel finish wr mc d0 d1 (waited b)
              ((cycle + 1) mod UINT64_MOD) (S k))
    as [[[c1 b1] t1]|] eqn:Hrec; [|discriminate].
  assert (Heq : c = c1 /\ b' = b1 /\ t = sim_cycle d0 d1 b ++ t1)
    by (injection H as <- <- <-; repeat split).
  destruct Heq as (-> & -> & ->). clear H.
  assert (Hc1 : 0 <= (cycle + 1) mod UINT64_MOD < UINT64_MOD)
    by (apply Z.mod_pos_bound; pose proof uint64_mod_pos; lia).
  destruct (IH _ _ _ _ _ _ Hc1 Hrec)
    as (n & Hn & Ht & Hr & He & Hw & Hs & Hcc & Hall & Hh).
  destruct (sim_cycle_counts d0 d1 b) as (S1 & S2 & S3 & S4 & S5).
  exists (S n). split; [lia|].
  rewrite time_advance_app, rising_edges_app, evals_app, barrier_waits_app,
    sys_calls_app, S1, S2, S3, S4, S5, Ht, Hr, He, Hw, Hs.
  split; [lia|]. split; [reflexivity|]. split; [lia|].
  split; [destruct b; reflexivity|]. split; [reflexivity|].
  split.
  { rewrite Hcc, Zplus_mod_idemp_l. f_equal. lia. }
  split.
  { intros j Hj. destruct j as [|j].
    - rewrite Nat.add_0_r, Z.add_0_r, Z.mod_small by lia.
      split; [exact Hfin|]. intros (H1 & H2).
      apply andb_false_iff in Hmax as [Hm|Hm];
        [apply Z.ltb_ge in Hm | apply Z.leb_gt in Hm]; lia.
    - destruct (Hall j) as (Hf & Hm); [lia|].
      rewrite Zplus_mod_idemp_l in Hm.
      replace (k + S j)%nat with (S k + j)%nat by lia.
      replace (cycle + Z.of_nat (S j)) with (cycle + 1 + Z.of_nat j) by lia.
      split; assumption. }
  destruct b as [h|]; cbn [waited] in Hh.
  - destruct b1 as [h2|]; [|contradiction]. rewrite Hh at 1. reflexivity.
  - destruct b1; [contradiction | exact I].
Qed.

(** With [max_cycles] set, the loop ends within [max_cycles] turns when
    no call of [barrier_wait] holds it. *)
Lemma sim_loop_stops : forall finish wr mc d0 d1 fuel b k,
  0 < mc < UINT64_MOD -> (0 < fuel)%nat ->
  mc - Z.of_nat k < Z.of_nat fuel ->
  (b = None \/ forall j, Z.of_nat j < mc -> wr j = true) ->
  exists r, sim_loop fuel finish wr mc d0 d1 b (Z.of_nat k) k = Some r.
Proof.
  intros finish wr mc d0 d1.
  induction fuel as [|fuel IH]; intros b k Hmc Hpos Hf Hw;
    cbn [sim_loop]; [lia|].
  destruct (finish k); [eexists; reflexivity|].
  destruct (Z.ltb_spec 0 mc) as [_|]; [|lia].
  destruct (Z.leb_spec mc (Z.of_nat k)) as [Hge|Hlt]; cbn [andb];
    [eexists; reflexivity|].
  assert (Hgo : match b with Some _ => wr k | None => true end = true).
  { destruct b as [h|]; [|reflexivity].
    destruct Hw as [Hb|Hw]; [discriminate | apply Hw; exact Hlt]. }
  rewrite Hgo, Z.mod_small by lia.
  replace (Z.of_nat k + 1) with (Z.of_nat (S k)) by lia.
  destruct (IH (waited b) (S k)) as ([[c1 b1] t1] & ->); try lia.
  - destruct Hw as [->|Hw]; [left; reflexivity | right; exact Hw].
  - eexists; reflexivity.
Qed.

(** A call of [barrier_wait] that does not return holds the loop
    whatever the number of turns allowed. *)
Lemma sim_loop_held : forall finish wr mc d0 d1 n fuel h k,
  0 < mc < UINT64_MOD -> (k <= n)%nat -> Z.of_nat n < mc ->
  (forall j, (j <= n)%nat -> finish j = false) ->
  wr n = false ->
  sim_loop fuel finish wr mc d0 d1 (Some h) (Z.of_nat k) k = None.
Proof.
  intros finish wr mc d0 d1 n.
  induction fuel as [|fuel IH]; intros h k Hmc Hk Hn Hfin Hw;
    cbn [sim_loop]; [reflexivity|].
  rewrite (Hfin k Hk).
  destruct (Z.leb_spec mc (Z.of_nat k)) as [Hge|Hlt]; [lia|].
  rewrite andb_false_r.
  destruct (wr k) eqn:Hwk; [|reflexivity].
  assert (Hlt' : (k < n)%nat).
  { destruct (Nat.eq_dec k n) as [->|]; [congruence | lia]. }
  rewrite Z.mod_small by lia.
  replace (Z.of_nat k + 1) with (Z.of_nat (S k)) by lia.
  cbn [waited]. rewrite IH; [reflexivity | | | | |]; try assumption; lia.
Qed.

Section TestbenchSyncFacts.
Variable double : Type.
Variable period_default : double.
Variable extract_double : text -> double -> double.
Variable extract_int : text -> Z -> Z.
Variable extract_uint64 : text -> Z -> Z.
Variable period_to_uint64 : double -> Z.
Variable commandArgsPlusMatch : text -> option text.
Variable env : environment.
Variable finish : nat -> bool.
Variable wait_returns : nat -> bool.

Local Abbreviation args :=
  (main_args period_default extract_double extract_int extract_uint64
     commandArgsPlusMatch).
Local Abbreviation the_iperiod :=
  (iperiod period_default extract_double extract_int extract_uint64
     period_to_uint64 commandArgsPlusMatch).
Local Abbreviation the_duration0 :=
  (duration0 period_default extract_double extract_int extract_uint64
     period_to_uint64 commandArgsPlusMatch).
Local Abbreviation the_duration1 :=
  (duration1 period_default extract_double extract_int extract_uint64
     period_to_uint64 commandArgsPlusMatch).
Local Abbreviation the_main :=
  (main period_default extract_double extract_int extract_uint64
     period_to_uint64 commandArgsPlusMatch env finish wait_returns).
Local Abbreviation the_open :=
  (barrier_open env (String.string_of_list_ascii (arg_barrier_uri args))
     (negb (arg_barrier_leader args =? 0))
     (to_uint32 (arg_barrier_procs args))).

Lemma durations_add_up : the_duration0 + the_duration1 = the_iperiod.
Proof.
  unfold duration1, duration0.
  assert (H : 0 <= the_iperiod < UINT64_MOD).
  { unfold iperiod. apply Z.mod_pos_bound. pose proof uint64_mod_pos. lia. }
  assert (H2 : 0 <= the_iperiod / 2 <= the_iperiod).
  { split; [apply Z.div_pos; lia|]. apply Z.div_le_upper_bound; lia. }
  rewrite Z.mod_small by lia. lia.
Qed.

Lemma main_cases : forall fuel r,
  the_main fuel = Some r ->
  (arg_barrier_uri args <> [] /\ fst the_open = None /\
   r = (1, map TbSys (snd the_open) ++ [TbStderr])) \/
  (exists barrier t_open c b' t1,
     ((arg_barrier_uri args = [] /\ barrier = None /\ t_open = []) \/
      (arg_barrier_uri args <> [] /\ the_open = (barrier, t_open) /\
       barrier <> None)) /\
     sim_loop fuel finish wait_returns (arg_max_cycles args)
       the_duration0 the_duration1 barrier 0 0 = Some (c, b', t1) /\
     r = (0, map TbSys t_open
             ++ (match barrier with Some _ => [TbStdout] | None => [] end)
             ++ [TbEval 0; TbStartDelay]
             ++ t1 ++ map TbSys (barrier_close b') ++ [TbFinal; TbStdout])).
Proof.
  intros fuel r. unfold main.
  destruct (arg_barrier_uri args) as [|a uri].
  - destruct (sim_loop fuel finish wait_returns (arg_max_cycles args)
                the_duration0 the_duration1 None 0 0) as [[[c b'] t1]|] eqn:Hloop;
      [|discriminate].
    intros H. right. exists None, [], c, b', t1.
    split; [left; repeat split|]. split; [exact Hloop|].
    injection H as <-. reflexivity.
  - destruct (barrier_open _ _ _ _) as [[h|] t0].
    + destruct (sim_loop fuel finish wait_returns (arg_max_cycles args)
                  the_duration0 the_duration1 (Some h) 0 0)
        as [[[c b'] t1]|] eqn:Hloop;
        [|discriminate].
      intros H. right. exists (Some h), t0, c, b', t1.
      split; [right; repeat split; discriminate|]. split; [exact Hloop|].
      injection H as <-. reflexivity.
    + intros H. left. split; [discriminate|]. split; [reflexivity|].
      injection H as <-. reflexivity.
Qed.

(** X19. A run of [main] that returns 0 went through a whole number of clock
    cycles: simulated time advanced by that many periods (the two halves
    add up to the period, also when it is odd), the model was evaluated
    three times per cycle and once before, [barrier_wait] was called
    once per cycle when a barrier is configured and never otherwise, and
    in no cycle before the last check was the simulation finished or
    [max_cycles] reached. *)
Theorem main_cycle_accounting : forall fuel t,
  the_main fuel = Some (0, t) ->
  exists n,
    time_advance t = Z.of_nat n * the_iperiod /\
    rising_edges t = n /\
    evals t = (1 + 3 * n)%nat /\
    barrier_waits t
    = (match arg_barrier_uri args with [] => 0 | _ => n end)%nat /\
    (forall j, (j < n)%nat -> finish j = false) /\
    (0 < arg_max_cycles args < UINT64_MOD ->
     Z.of_nat n <= arg_max_cycles args).
Proof.
  intros fuel t H.
  destruct (main_cases _ H) as [(_ & _ & Hr) | Hrun]; [discriminate|].
  destruct Hrun as (barrier & t_open & c & b' & t1 & Hbar & Hloop & Hr).
  assert (Ht : t = map TbSys t_open
                   ++ (match barrier with Some _ => [TbStdout] | None => [] end)
                   ++ [TbEval 0; TbStartDelay]
                   ++ t1 ++ map TbSys (barrier_close b') ++ [TbFinal; TbStdout])
    by congruence.
  clear Hr. subst t.
  assert (H0 : 0 <= 0 < UINT64_MOD) by (pose proof uint64_mod_pos; lia).
  destruct (@sim_loop_spec _ _ _ _ _ _ _ _ _ _ _ _ H0 Hloop)
    as (n & Hn & Ht & Hr & He & Hw & Hs & Hcc & Hall & Hh).
  exists n.
  destruct (tb_sys_events t_open) as (A1 & A2 & A3 & A4 & _).
  destruct (tb_sys_events (barrier_close b')) as (B1 & B2 & B3 & B4 & _).
  rewrite !time_advance_app, !rising_edges_app, !evals_app, !barrier_waits_app.
  rewrite A1, A2, A3, A4, B1, B2, B3, B4, Ht, Hr, He, Hw.
  rewrite durations_add_up.
  split; [destruct barrier; cbn; lia|].
  split; [destruct barrier; cbn; lia|].
  split; [destruct barrier; cbn; lia|].
  split.
  { destruct Hbar as [(-> & -> & _) | (Hne & _ & Hb)].
    - cbn. lia.
    - destruct (arg_barrier_uri args); [congruence|].
      destruct barrier; [cbn; lia | congruence]. }
  split; [intros j Hj; apply (Hall j Hj)|].
  intros Hmc.
  destruct (Z_lt_le_dec (arg_max_cycles args) (Z.of_nat n)) as [Hgt|]; [|lia].
  exfalso.
  destruct (Hall (Z.to_nat (arg_max_cycles args))) as (_ & Hno); [lia|].
  apply Hno. rewrite Z2Nat.id, Z.add_0_l, Z.mod_small by lia. lia.
Qed.

(** X20. [max_cycles] and the barrier. With [max_cycles] set, [main]
    returns after at most [max_cycles] turns of the loop, whatever the
    model does, provided no barrier is configured or every call of
    [barrier_wait] up to there returns. With a barrier opened, a call
    of [barrier_wait] that does not return, in a turn the loop gets to,
    keeps [main] from returning at all: [max_cycles] is checked at the
    top of the loop only. *)
Theorem main_stops_at_max_cycles :
  0 < arg_max_cycles args < UINT64_MOD ->
  ((arg_barrier_uri args = [] \/
    forall k, Z.of_nat k < arg_max_cycles args -> wait_returns k = true) ->
   exists code t,
     the_main (S (Z.to_nat (arg_max_cycles args))) = Some (code, t)) /\
  (forall n,
     arg_barrier_uri args <> [] -> fst the_open <> None ->
     Z.of_nat n < arg_max_cycles args ->
     (forall j, (j <= n)%nat -> finish j = false) ->
     wait_returns n = false ->
     forall fuel, the_main fuel = None).
Proof.
  intros Hmc. split.
  - intros Hw.
    assert (Hloop : forall b,
              (b = None \/
               forall k, Z.of_nat k < arg_max_cycles args ->
                         wait_returns k = true) ->
              exists r,
                sim_loop (S (Z.to_nat (arg_max_cycles args))) finish
                  wait_returns (arg_max_cycles args) the_duration0
                  the_duration1 b 0 0
                = Some r).
    { intros b Hb.
      apply (@sim_loop_stops finish wait_returns (arg_max_cycles args)
               the_duration0 the_duration1
               (S (Z.to_nat (arg_max_cycles args))) b 0%nat);
        [exact Hmc | lia | lia | exact Hb]. }
    unfold main.
    destruct (arg_barrier_uri args) as [|a uri].
    + destruct (Hloop None) as ([[c b'] t1] & ->); [left; reflexivity|].
      eexists; eexists; reflexivity.
    + destruct (barrier_open _ _ _ _) as [[h|] t0];
        [|eexists; eexists; reflexivity].
      destruct (Hloop (Some h)) as ([[c b'] t1] & ->).
      { destruct Hw as [Hnil|Hw]; [discriminate | right; exact Hw]. }
      eexists; eexists; reflexivity.
  - intros n. unfold main.
    destruct (arg_barrier_uri args) as [|a uri]; [congruence|].
    destruct (barrier_open _ _ _ _) as [[h|] t0]; cbn [fst];
      [|congruence].
    intros _ _ Hn Hfin Hw fuel.
    assert (Hheld :
              sim_loop fuel finish wait_returns (arg_max_cycles args)
                the_duration0 the_duration1 (Some h) 0 0 = None).
    { apply (@sim_loop_held finish wait_returns (arg_max_cycles args)
               the_duration0 the_duration1 n fuel h 0%nat);
        [exact Hmc | lia | exact Hn | exact Hfin | exact Hw]. }
    rewrite Hheld. reflexivity.
Qed.

(** X21. [main] and the barrier. Without a [+barrier_uri] value [main] makes
    no call of [barrier_open] or [barrier_close]. With one it returns 1
    exactly when [barrier_open] fails, before the model is evaluated at
    all; and when it returns 0 it has closed the barrier it opened:
    nothing it acquired is still held. *)
Theorem main_opens_and_closes : forall fuel code t,
  the_main fuel = Some (code, t) ->
  (arg_barrier_uri args = [] -> code = 0 /\ sys_calls t = []) /\
  (code = 1 <-> arg_barrier_uri args <> [] /\ fst the_open = None) /\
  (code = 1 -> evals t = 0%nat /\ time_advance t = 0) /\
  (code = 0 -> held_after (sys_calls t) = []) /\
  (code = 0 \/ code = 1).
Proof.
  intros fuel code t H.
  destruct (main_cases _ H) as [(Hne & Hfail & Hr) | Hrun].
  - assert (Heq : code = 1 /\ t = map TbSys (snd the_open) ++ [TbStderr])
      by (split; congruence).
    destruct Heq as (-> & ->).
    split; [intros He; congruence|].
    split; [split; [intros _; split; assumption | reflexivity]|].
    split.
    { intros _. destruct (tb_sys_events (snd the_open)) as (A1 & _ & _ & A4 & _).
      rewrite evals_app, time_advance_app, A1, A4. split; reflexivity. }
    split; [discriminate | right; reflexivity].
  - destruct Hrun as (barrier & t_open & c & b' & t1 & Hbar & Hloop & Hr).
    assert (Heq : code = 0 /\
              t = map TbSys t_open
                  ++ (match barrier with Some _ => [TbStdout] | None => [] end)
                  ++ [TbEval 0; TbStartDelay]
                  ++ t1 ++ map TbSys (barrier_close b') ++ [TbFinal; TbStdout])
      by (split; congruence).
    destruct Heq as (-> & ->). clear Hr.
    assert (H0 : 0 <= 0 < UINT64_MOD) by (pose proof uint64_mod_pos; lia).
    destruct (@sim_loop_spec _ _ _ _ _ _ _ _ _ _ _ _ H0 Hloop)
      as (n & _ & _ & _ & _ & _ & Hs & _ & _ & Hh).
    assert (Hsys : sys_calls
                     (map TbSys t_open
                      ++ (match barrier with Some _ => [TbStdout] | None => [] end)
                      ++ [TbEval 0; TbStartDelay]
                      ++ t1 ++ map TbSys (barrier_close b') ++ [TbFinal; TbStdout])
                   = t_open ++ barrier_close b').
    { rewrite !sys_calls_app, Hs.
      destruct (tb_sys_events t_open) as (_ & _ & _ & _ & ->).
      destruct (tb_sys_events (barrier_close b')) as (_ & _ & _ & _ & ->).
      destruct barrier; cbn [sys_calls flat_map app]; rewrite app_nil_r;
        reflexivity. }
    rewrite Hsys.
    destruct Hbar as [(Huri & -> & ->) | (Hne & Hopen & Hb)].
    + destruct b' as [h'|]; [contradiction|].
      split; [intros _; split; reflexivity|].
      split; [split; [discriminate | intros (Hne & _); congruence]|].
      split; [discriminate|]. split; [reflexivity | left; reflexivity].
    + destruct barrier as [h|]; [|congruence].
      destruct b' as [h'|]; [|contradiction].
      destruct (open_success_held _ _ _ _ Hopen) as (Hop & Hheld).
      split; [intros He; congruence|].
      split; [split; [discriminate | intros (_ & Hn); rewrite Hopen in Hn;
                                      discriminate]|].
      split; [discriminate|]. split; [|left; reflexivity].
      intros _. unfold held_after in *. rewrite held_from_app, Hheld.
      assert (Hres : handle_resources h = handle_resources h')
        by (rewrite Hh; reflexivity).
      rewrite Hres. apply close_releases. rewrite Hh. exact Hop.
Qed.

End TestbenchSyncFacts.

(* ================================================================== *)
(** ** Concrete instances *)
(* ================================================================== *)



Lemma all_ready_throughout_witness :
  initialized (shared (fst (run_of two_process_episode (fresh_session 2 2))))
  = 1.
Proof.
  assert (Hi : initial (fresh_session 2 2)).
  { apply fresh_session_initial. split; [lia | reflexivity]. }
  pose proof (run_of_sound two_process_episode (fresh_session 2 2)) as Hs.
  exact (proj1 (all_ready_throughout Hi Hs)).
Defined.


Lemma set_num_processes_then_get_witness :
  exists s1 s2 s3,
    sys_step resize_session (0%nat, OpSetNumProcesses 2) s1 /\
    sys_steps s1 (snd (run_of two_process_episode s1)) s2 /\
    sys_step s2 (1%nat, OpGetNumProcesses 2) s3 /\
    shared s3 = shared s2.
Proof.
  assert (Hset : sys_step resize_session (0%nat, OpSetNumProcesses 2)
                   (mk_system (mk_shared 0 0 2 0 1) (procs resize_session))).
  { apply (@step_set_num (mk_shared 0 0 3 0 1) []
             (mk_proc (opened_handle 0 None 3 true) None [])
             [mk_proc (opened_handle 0 None 4 false) None []] 2
             (atomic_store_n F_num_processes 2)).
    - reflexivity.
    - reflexivity.
    - repeat constructor.
    - vm_compute. split; [discriminate | reflexivity]. }
  pose proof (run_of_sound two_process_episode
                (mk_system (mk_shared 0 0 2 0 1) (procs resize_session))) as Hs.
  assert (Hget : sys_step
                   (fst (run_of two_process_episode
                           (mk_system (mk_shared 0 0 2 0 1)
                                      (procs resize_session))))
                   (1%nat, OpGetNumProcesses 2)
                   (fst (run_of two_process_episode
                           (mk_system (mk_shared 0 0 2 0 1)
                                      (procs resize_session))))).
  { apply (@step_get_num (mk_shared 1 0 2 1 1)
             [mk_proc (set_local_sense (opened_handle 0 None 3 true) 0) None [1]]
             (mk_proc (set_local_sense (opened_handle 0 None 4 false) 0) None [1])
             [] (atomic_load_n F_num_processes)); reflexivity. }
  exists (mk_system (mk_shared 0 0 2 0 1) (procs resize_session)).
  eexists. eexists.
  split; [exact Hset|]. split; [exact Hs|]. split; [exact Hget|].
  assert (Hno : Forall (fun lbl => is_resize lbl = false)
                  (snd (run_of two_process_episode
                          (mk_system (mk_shared 0 0 2 0 1)
                                     (procs resize_session)))))
    by (vm_compute; repeat constructor).
  apply (set_num_processes_then_get Hset Hs Hno Hget).
Defined.

Lemma quiescent_session_completes_episode_witness :
  exists s',
    reaches (fresh_session 2 2) s' /\
    Forall parked (procs s') /\
    cycle_count (shared s')
    = (cycle_count (shared (fresh_session 2 2)) + 1) mod UINT64_MOD /\
    sense (shared s') = 1 - sense (shared (fresh_session 2 2)) /\
    barrier_count (shared s') = 0 /\
    map returned (procs s')
    = map (fun p => returned p ++ [cycle_count (shared s')])
          (procs (fresh_session 2 2)).
Proof.
  assert (Hi : initial (fresh_session 2 2)).
  { apply fresh_session_initial. split; [lia | reflexivity]. }
  apply (quiescent_session_completes_episode Hi (steps_nil _)).
  - repeat constructor.
  - discriminate.
  - reflexivity.
Defined.


Lemma open_failure_held_witness :
  held_after (snd (barrier_open env_no_file String.EmptyString false 3)) = []
  \/ (exists p,
        false = false /\ env_mmap env_no_file = Some p /\
        fst (init_loop env_no_file max_retries 0) = Exhausted /\
        held_after (snd (barrier_open env_no_file String.EmptyString false 3))
        = ResMapping p :: (if env_strdup env_no_file then [ResName] else [])).
Proof.
  assert (H : barrier_open env_no_file String.EmptyString false 3
              = (None, snd (barrier_open env_no_file String.EmptyString false 3)))
    by (vm_compute; reflexivity).
  exact (open_failure_held _ _ _ _ H).
Defined.

Lemma open_then_close_releases_all_witness :
  held_after (snd (barrier_open env_ok String.EmptyString true 2)
              ++ barrier_close (fst (barrier_open env_ok String.EmptyString true 2)))
  = [].
Proof.
  assert (H : barrier_open env_ok String.EmptyString true 2
              = (Some (opened_handle 4096 (Some String.EmptyString) 3 true),
                 snd (barrier_open env_ok String.EmptyString true 2)))
    by (vm_compute; reflexivity).
  rewrite H at 2. cbn [fst].
  apply (open_then_close_releases_all _ _ _ _ H).
Defined.

Lemma dpi_holds_one_handle_witness :
  exists t,
    dpi_steps None
      [DpiInit env_ok String.EmptyString 1 2;
       DpiInit env_ok String.EmptyString 1 2; DpiReady; DpiClose; DpiClose]
      None t /\
    held_after t = [].
Proof.
  assert (H : dpi_steps None
      (((([] ++ [DpiInit env_ok String.EmptyString 1 2])
         ++ [DpiInit env_ok String.EmptyString 1 2]) ++ [DpiReady])
        ++ [DpiClose] ++ [DpiClose])
      None
      (((([] ++ snd (barrier_open env_ok String.EmptyString true 2))
         ++ [SysStderr]) ++ [])
       ++ barrier_close
            (Some (opened_handle 4096 (Some String.EmptyString) 3 true))
       ++ [])).
  { rewrite !app_assoc.
    eapply dpi_steps_snoc; [eapply dpi_steps_snoc; [eapply dpi_steps_snoc;
      [eapply dpi_steps_snoc; [eapply dpi_steps_snoc; [apply dpi_steps_nil|]|]|]|]|].
    - apply dpi_init. vm_compute. reflexivity.
    - apply dpi_init. reflexivity.
    - eapply dpi_ready. reflexivity.
    - apply dpi_close. reflexivity.
    - apply dpi_close. reflexivity. }
  eexists. split; [exact H|].
  apply (dpi_holds_one_handle H).
Defined.

Lemma dpi_assertions_witness :
  exists h t,
    dpi_steps None [DpiInit env_ok String.EmptyString 0 2] (Some h) t /\
    fst (pi_barrier_set_num_procs (Some h) 5) = Aborts /\
    fst (pi_barrier_get_num_procs (Some h)) <> Aborts.
Proof.
  assert (H : dpi_steps None ([] ++ [DpiInit env_ok String.EmptyString 0 2])
                (Some (opened_handle 4096 (Some String.EmptyString) 3 false))
                ([] ++ snd (barrier_open env_ok String.EmptyString false 2))).
  { eapply dpi_steps_snoc; [apply dpi_steps_nil|].
    apply dpi_init. vm_compute. reflexivity. }
  destruct (dpi_assertions H) as (_ & _ & _ & Hget & Hset).
  eexists. eexists. split; [exact H|]. split; [|exact Hget].
  apply Hset. eexists. split; reflexivity.
Defined.

Lemma dpi_leader_init_then_queries_witness :
  exists ready get_num get_cycle,
    replay (shared_accesses (snd (barrier_open env_ok String.EmptyString true 2)))
           (env_shared env_ok)
    = mk_shared 0 0 (to_uint32 2) 0 1 /\
    pi_barrier_ready (fst (barrier_open env_ok String.EmptyString true 2))
    = (Returns ready, []) /\
    pi_barrier_get_num_procs (fst (barrier_open env_ok String.EmptyString true 2))
    = (Returns get_num, []) /\
    pi_barrier_get_cycle (fst (barrier_open env_ok String.EmptyString true 2))
    = (Returns get_cycle, []) /\
    result_of (ready (replay (shared_accesses
                                (snd (barrier_open env_ok String.EmptyString true 2)))
                             (env_shared env_ok))) = 1 /\
    result_of (get_num (replay (shared_accesses
                                  (snd (barrier_open env_ok String.EmptyString true 2)))
                               (env_shared env_ok))) = 2 /\
    result_of (get_cycle (replay (shared_accesses
                                    (snd (barrier_open env_ok String.EmptyString true 2)))
                                 (env_shared env_ok))) = 0.
Proof.
  apply (@dpi_leader_init_then_queries env_ok String.EmptyString 1 2).
  - discriminate.
  - vm_compute. split; discriminate.
  - vm_compute. reflexivity.
Defined.

Lemma dpi_num_procs_round_trip_witness :
  exists set get,
    pi_barrier_set_num_procs (Some (opened_handle 4096 None 3 true)) (-1)
    = (Returns set, []) /\
    pi_barrier_get_num_procs (Some (opened_handle 4096 None 3 true))
    = (Returns get, []) /\
    result_of (get (state_of (set (mk_shared 0 0 2 0 1)))) = -1 /\
    num_processes (state_of (set (mk_shared 0 0 2 0 1))) = 4294967295.
Proof.
  apply (@dpi_num_procs_round_trip (opened_handle 4096 None 3 true) 4096 (-1)
           (mk_shared 0 0 2 0 1) eq_refl eq_refl).
  vm_compute. split; discriminate.
Defined.

Lemma extract_plusarg_value_iff_witness :
  extract_plusarg_value (Some CommandLine.uri_arg) Plusargs.barrier_uri
  = skipn 13 CommandLine.uri_arg.
Proof.
  assert (Hne : skipn 13 CommandLine.uri_arg <> []) by (vm_compute; discriminate).
  apply (proj2 (@extract_plusarg_value_iff (Some CommandLine.uri_arg)
                  Plusargs.barrier_uri (skipn 13 CommandLine.uri_arg) Hne)).
  exists Plusargs.equals. reflexivity.
Defined.

Lemma main_cycle_accounting_witness :
  exists n,
    time_advance synchronized_trace = Z.of_nat n * 7 /\
    rising_edges synchronized_trace = n /\
    barrier_waits synchronized_trace = n.
Proof.
  assert (H : synchronized_main 4 = Some (0, synchronized_trace))
    by (vm_compute; reflexivity).
  destruct (main_cycle_accounting _ _ _ _ _ _ _ _ _ _ H)
    as (n & H1 & H2 & _ & H4 & _).
  exists n. split; [exact H1|]. split; [exact H2 | exact H4].
Defined.

Lemma main_stops_at_max_cycles_witness :
  (exists code t, synchronized_main 4 = Some (code, t)) /\
  (forall fuel, deserted_main fuel = None).
Proof.
  split.
  - apply (@main_stops_at_max_cycles Z 10 read_digit read_digit read_digit
             (fun p : Z => p) (plusargs_of synchronized_run) env_ok
             (fun _ => false) (fun _ => true)).
    + vm_compute. split; reflexivity.
    + right. intros k _. reflexivity.
  - apply (proj2 (@main_stops_at_max_cycles Z 10 read_digit read_digit
             read_digit (fun p : Z => p) (plusargs_of synchronized_run) env_ok
             (fun _ => false) (fun k => Nat.eqb k 0)
             ltac:(vm_compute; split; reflexivity)) 1%nat).
    + vm_compute. discriminate.
    + vm_compute. discriminate.
    + vm_compute. reflexivity.
    + intros j _. reflexivity.
    + reflexivity.
Defined.

Lemma main_opens_and_closes_witness :
  held_after (sys_calls synchronized_trace) = [].
Proof.
  assert (H : synchronized_main 4 = Some (0, synchronized_trace))
    by (vm_compute; reflexivity).
  destruct (main_opens_and_closes _ _ _ _ _ _ _ _ _ _ H)
    as (_ & _ & _ & Hheld & _).
  apply Hheld. reflexivity.
Defined.

(* ================================================================== *)
(** ** Concrete sessions with a handle opened in time *)
(* ================================================================== *)

(** The leader alone announces two, the follower opens the barrier, and
    episode 1 goes as in a session of two from the start. *)
Example join_then_episode_run :
  fst (orderly_run_of join_then_episode (fresh_session 2 1))
  = fst (run_of two_process_episode (fresh_session 2 2)) /\
  ops_of (snd (orderly_run_of join_then_episode (fresh_session 2 1)))
  = snd (run_of two_process_episode (fresh_session 2 2)).
Proof. split; vm_compute; reflexivity. Qed.






